(** * AI Interview Assistant: the server's text helpers, the grading route
      and the client's session/timer controller, embedded and verified.

    Sources embedded here:
    - [api/index.js] and [backend/server.js]: [extractJSON], [extractEmail],
      [extractPhone], [extractName] and the route [POST /api/grade-answer];
      further down the routes [POST /api/generate-questions],
      [POST /api/final-summary] and [POST /api/parse-resume];
    - [frontend/src/pages/Interviewee.js]: the candidate store, the countdown,
      pause/resume, [openCandidate], [handleSubmit], the upload of a resume
      and the effect of the first render.

    JavaScript strings are sequences of UTF-16 code units; a code unit is a
    number [N] here, so every statement below quantifies over all strings. *)

From Stdlib Require Import String Ascii NArith ZArith Bool Arith Lia List.
Import ListNotations.

Set Implicit Arguments.

(* ================================================================== *)
(** * JavaScript strings                                               *)
(* ================================================================== *)

Module Js.

Local Open Scope N_scope.

Definition char := N.
Bind Scope N_scope with char.
Definition text := list char.

(** A literal of the source, as code units (ASCII literals only). *)
Definition str (s : string) : text :=
  List.map N_of_ascii (list_ascii_of_string s).

(** The double quote, written apart: 34. *)
Definition dq : char := 34.

Definition between (lo hi c : char) : bool := ((lo <=? c) && (c <=? hi))%N.
Definition is_char (x c : char) : bool := (c =? x)%N.

Definition is_digit : char -> bool := between 48 57.   (* \d, [0-9] *)
Definition is_lower : char -> bool := between 97 122.  (* [a-z] *)
Definition is_upper : char -> bool := between 65 90.   (* [A-Z] *)
Definition is_letter (c : char) : bool := is_upper c || is_lower c. (* [A-Za-z] *)

(** [\s] of a regular expression and the characters [trim] strips:
    WhiteSpace and LineTerminator of ECMAScript. *)
Definition is_space (c : char) : bool :=
  (between 9 13 c || is_char 32 c || is_char 160 c || is_char 5760 c || between 8192 8202 c
   || is_char 8232 c || is_char 8233 c || is_char 8239 c || is_char 8287 c || is_char 12288 c
   || is_char 65279 c)%N.

Definition any (_ : char) : bool := true.            (* [\s\S] *)

Fixpoint text_eqb (a b : text) : bool :=
  match a, b with
  | [], [] => true
  | x :: a', y :: b' => (x =? y)%N && text_eqb a' b'
  | _, _ => false
  end.

Fixpoint drop_space (s : text) : text :=
  match s with
  | c :: s' => if is_space c then drop_space s' else s
  | [] => []
  end.

(** [String.prototype.trim]. *)
Definition trim (s : text) : text := rev (drop_space (rev (drop_space s))).

(** [s.split(sep)] for a one-character string separator. *)
Fixpoint split_char (sep : char) (piece : text) (s : text) : list text :=
  match s with
  | [] => [rev piece]
  | c :: s' => if (c =? sep)%N then rev piece :: split_char sep [] s'
               else split_char sep (c :: piece) s'
  end.

End Js.
Import Js.

(* ================================================================== *)
(** * Regular expressions                                              *)
(* ================================================================== *)

(** The fragment the sources use: character classes, greedy quantifiers on a
    class ([*], [+], [?], [{n}], [{n,}], [{n,m}]), sequence, ordered
    alternation and a greedy optional group.  Matching is the backtracking
    search of ECMAScript, in continuation-passing style. *)

Module Regex.

Inductive bound : Type := Upto (n : nat) | Unbounded.

Inductive regex : Type :=
| Cls (p : char -> bool)
| Rep (p : char -> bool) (lo : nat) (hi : bound)
| Seq (r1 r2 : regex)
| Alt (r1 r2 : regex)
| Opt (r : regex).

Definition more (hi : bound) : bool :=
  match hi with Upto O => false | _ => true end.

Definition dec (hi : bound) : bound :=
  match hi with Upto n => Upto (pred n) | Unbounded => Unbounded end.

(** Greedy repetition of a class: take one more character when allowed, and
    fall back to stopping here when the rest of the pattern fails. *)
Fixpoint rep {A} (p : char -> bool) (lo : nat) (hi : bound) (s : text)
         (k : text -> option A) {struct s} : option A :=
  let stop := match lo with O => k s | S _ => None end in
  match s with
  | c :: s' =>
      if p c && more hi then
        match rep p (pred lo) (dec hi) s' k with
        | Some x => Some x
        | None => stop
        end
      else stop
  | [] => stop
  end.

Fixpoint run {A} (r : regex) (s : text) (k : text -> option A) : option A :=
  match r with
  | Cls p => match s with
             | c :: s' => if p c then k s' else None
             | [] => None
             end
  | Rep p lo hi => rep p lo hi s k
  | Seq r1 r2 => run r1 s (fun s1 => run r2 s1 k)
  | Alt r1 r2 => match run r1 s k with
                 | Some x => Some x
                 | None => run r2 s k
                 end
  | Opt r1 => match run r1 s k with
              | Some x => Some x
              | None => k s
              end
  end.

(** A match anchored at the start of [s]: what is left after it. *)
Definition match_here (r : regex) (s : text) : option text :=
  run r s (fun rest => Some rest).

Definition matched (s rest : text) : text :=
  firstn (length s - length rest) s.

(** [RegExp.prototype.exec] without the global flag: the leftmost start
    position at which the pattern matches; the index and the text [m[0]]. *)
Fixpoint exec_from (r : regex) (i : nat) (s : text) : option (nat * text) :=
  match match_here r s with
  | Some rest => Some (i, matched s rest)
  | None => match s with
            | [] => None
            | _ :: s' => exec_from r (S i) s'
            end
  end.

Definition exec (r : regex) (s : text) : option (nat * text) := exec_from r 0 s.

(** [text.match(re)] then [m[0]], and [re.test(text)]. *)
Definition match0 (r : regex) (s : text) : option text :=
  option_map snd (exec r s).

Definition test (r : regex) (s : text) : bool :=
  match exec r s with Some _ => true | None => false end.

(** [text.split(re)] for a pattern without capture groups. *)
Fixpoint split_go (r : regex) (skip : nat) (piece : text) (s : text)
  : list text :=
  match s with
  | [] => [rev piece]
  | c :: s' =>
      match skip with
      | S n => split_go r n piece s'
      | O =>
          match match_here r s with
          | Some rest =>
              match length s - length rest with
              | O => match piece with
                     | [] => split_go r 0 [c] s'
                     | _ => rev piece :: split_go r 0 [c] s'
                     end
              | S n => rev piece :: split_go r n [] s'
              end
          | None => split_go r 0 (c :: piece) s'
          end
      end
  end.

Definition split (r : regex) (s : text) : list text :=
  match s with
  | [] => match match_here r [] with Some _ => [] | None => [[]] end
  | _ => split_go r 0 [] s
  end.

(** A letter of a pattern under the [i] flag.  Without the [u] flag a code
    unit is compared through its upper-case form, and a unit outside ASCII
    whose upper-case form is inside ASCII keeps itself; so an ASCII letter of
    the pattern matches exactly its two ASCII cases. *)
Definition ci (lower : char) (c : char) : bool :=
  ((c =? lower) || (c =? lower - 32))%N.

Fixpoint lit_ci (w : text) (last : char) : regex :=
  match w with
  | [] => Cls (ci last)
  | c :: w' => Seq (Cls (ci c)) (lit_ci w' last)
  end.

(** What a pattern denotes, without any search order. *)
Definition within (hi : bound) (n : nat) : Prop :=
  match hi with Upto h => n <= h | Unbounded => True end.

Inductive Matches : regex -> text -> Prop :=
| MCls p c : p c = true -> Matches (Cls p) [c]
| MRep p lo hi w :
    Forall (fun c => p c = true) w -> lo <= length w -> within hi (length w) ->
    Matches (Rep p lo hi) w
| MSeq r1 r2 w1 w2 :
    Matches r1 w1 -> Matches r2 w2 -> Matches (Seq r1 r2) (w1 ++ w2)
| MAltL r1 r2 w : Matches r1 w -> Matches (Alt r1 r2) w
| MAltR r1 r2 w : Matches r2 w -> Matches (Alt r1 r2) w
| MOptNone r : Matches (Opt r) []
| MOptSome r w : Matches r w -> Matches (Opt r) w.

(** [w] occurs in [s]. *)
Definition occurs_in (w s : text) : Prop :=
  exists pre post, s = pre ++ w ++ post.

End Regex.
Import Regex.

(* ================================================================== *)
(** * JSON values and [JSON.parse]                                     *)
(* ================================================================== *)

Module Json.

Local Open Scope N_scope.

(** A number keeps the exact decimal it was written as, [mant * 10^exp10];
    the double JavaScript stores is the rounding of that value.  An object
    keeps its members in the order of the text. *)
#[warnings="-register-all"]
Inductive json : Type :=
| JNull
| JBool (b : bool)
| JNumber (mant exp10 : Z)
| JString (s : text)
| JArray (items : list json)
| JObject (members : list (text * json)).

Definition is_ws (c : char) : bool :=
  is_char 32 c || is_char 9 c || is_char 10 c || is_char 13 c.

Fixpoint skip_ws (s : text) : text :=
  match s with
  | c :: s' => if is_ws c then skip_ws s' else s
  | [] => []
  end.

Fixpoint strip_prefix (p s : text) : option text :=
  match p, s with
  | [], _ => Some s
  | x :: p', y :: s' => if x =? y then strip_prefix p' s' else None
  | _ :: _, [] => None
  end.

(** A run of decimal digits: its value on top of [acc], how many, the rest. *)
Fixpoint digits (acc : Z) (n : nat) (s : text) : Z * nat * text :=
  match s with
  | c :: s' => if is_digit c
               then digits (10 * acc + Z.of_N (c - 48)) (S n) s'
               else (acc, n, s)
  | [] => (acc, n, s)
  end.

Definition hex (c : char) : option N :=
  if is_digit c then Some (c - 48)
  else if between 97 102 c then Some (c - 87)
  else if between 65 70 c then Some (c - 55)
  else None.

Definition hex4 (a b c d : char) : option char :=
  match hex a, hex b, hex c, hex d with
  | Some x, Some y, Some z, Some w => Some (((x * 16 + y) * 16 + z) * 16 + w)
  | _, _, _, _ => None
  end.

Definition escape (c : char) : option char :=
  if is_char 34 c then Some 34          (* quote *)
  else if is_char 92 c then Some 92     (* backslash *)
  else if is_char 47 c then Some 47     (* slash *)
  else if is_char 98 c then Some 8      (* b: backspace *)
  else if is_char 102 c then Some 12    (* f: form feed *)
  else if is_char 110 c then Some 10    (* n: line feed *)
  else if is_char 114 c then Some 13    (* r: carriage return *)
  else if is_char 116 c then Some 9     (* t: tab *)
  else None.

(** The characters of a string literal after its opening quote. *)
Fixpoint string_body (acc : text) (s : text) : option (text * text) :=
  match s with
  | [] => None
  | c :: s' =>
      if is_char 34 c then Some (rev acc, s')
      else if is_char 92 c then
        match s' with
        | [] => None
        | e :: s'' =>
            if is_char 117 e then
              match s'' with
              | h1 :: h2 :: h3 :: h4 :: s3 =>
                  match hex4 h1 h2 h3 h4 with
                  | Some u => string_body (u :: acc) s3
                  | None => None
                  end
              | _ => None
              end
            else match escape e with
                 | Some x => string_body (x :: acc) s''
                 | None => None
                 end
        end
      else if c <? 32 then None
      else string_body (c :: acc) s'
  end.

(** A number: an optional minus, then 0 or a digit run that does not start
    with 0, then an optional fraction (a point and at least one digit), then
    an optional exponent (e or E, an optional sign, at least one digit). *)
Definition sign (s : text) : bool * text :=
  match s with
  | c :: s' => if is_char 45 c then (true, s') else (false, s)
  | [] => (false, s)
  end.

Definition int_part (s : text) : option (Z * text) :=
  match s with
  | c :: s' => if is_char 48 c then Some (0%Z, s')
               else if is_digit c
                    then let '(v, _, r) := digits 0 0 s in Some (v, r)
                    else None
  | [] => None
  end.

(** The digits of the fraction go on top of the integer part [iv]; their
    number is returned with the value. *)
Definition frac_part (iv : Z) (s : text) : option (Z * nat * text) :=
  match s with
  | c :: s' => if is_char 46 c
               then match digits iv 0 s' with
                    | (_, O, _) => None
                    | (v, n, r) => Some (v, n, r)
                    end
               else Some (iv, O, s)
  | [] => Some (iv, O, s)
  end.

Definition exp_part (s : text) : option (Z * text) :=
  match s with
  | c :: s' =>
      if is_char 101 c || is_char 69 c then
        let '(eneg, s1) :=
          match s' with
          | d :: s'' => if is_char 45 d then (true, s'')
                        else if is_char 43 d then (false, s'')
                        else (false, s')
          | [] => (false, s')
          end in
        match digits 0 0 s1 with
        | (_, O, _) => None
        | (v, _, r) => Some ((if eneg then - v else v)%Z, r)
        end
      else Some (0%Z, s)
  | [] => Some (0%Z, s)
  end.

Definition number (s : text) : option (json * text) :=
  let '(neg, s1) := sign s in
  match int_part s1 with
  | None => None
  | Some (iv, s2) =>
      match frac_part iv s2 with
      | None => None
      | Some (fv, fn, s3) =>
          match exp_part s3 with
          | None => None
          | Some (ev, s4) =>
              Some (JNumber (if neg then - fv else fv)%Z
                            (ev - Z.of_nat fn)%Z, s4)
          end
      end
  end.

(** A value at the start of [s] (no leading white space); [elements] and
    [members] parse what follows an opening bracket or brace. *)
Definition value_at (elements : text -> option (list json * text))
           (members : text -> option (list (text * json) * text))
           (s : text) : option (json * text) :=
  match s with
  | [] => None
  | c :: s' =>
      if is_char 123 c then
        match skip_ws s' with
        | d :: r => if is_char 125 d then Some (JObject [], r)
                    else option_map (fun '(ms, r') => (JObject ms, r'))
                                    (members (d :: r))
        | [] => None
        end
      else if is_char 91 c then
        match skip_ws s' with
        | d :: r => if is_char 93 d then Some (JArray [], r)
                    else option_map (fun '(vs, r') => (JArray vs, r'))
                                    (elements (d :: r))
        | [] => None
        end
      else if is_char 34 c then
        option_map (fun '(t, r) => (JString t, r)) (string_body [] s')
      else match strip_prefix (str "true") s with
           | Some r => Some (JBool true, r)
           | None =>
      match strip_prefix (str "false") s with
      | Some r => Some (JBool false, r)
      | None =>
      match strip_prefix (str "null") s with
      | Some r => Some (JNull, r)
      | None => number s
      end end end
  end.

(** The elements of an array: a value, then a comma and more elements, or
    the closing bracket. *)
Definition elements_at (value : text -> option (json * text))
           (elements : text -> option (list json * text))
           (s : text) : option (list json * text) :=
  match value s with
  | None => None
  | Some (v, r) =>
      match skip_ws r with
      | d :: r' =>
          if is_char 44 d then
            option_map (fun '(vs, r'') => (v :: vs, r''))
                       (elements (skip_ws r'))
          else if is_char 93 d then Some ([v], r')
          else None
      | [] => None
      end
  end.

(** The members of an object: a string, a colon, a value, then a comma and
    more members, or the closing brace. *)
Definition members_at (value : text -> option (json * text))
           (members : text -> option (list (text * json) * text))
           (s : text) : option (list (text * json) * text) :=
  match s with
  | q :: s' =>
      if is_char 34 q then
        match string_body [] s' with
        | None => None
        | Some (key, r0) =>
            match skip_ws r0 with
            | col :: r1 =>
                if is_char 58 col then
                  match value (skip_ws r1) with
                  | None => None
                  | Some (v, r) =>
                      match skip_ws r with
                      | d :: r' =>
                          if is_char 44 d then
                            option_map
                              (fun '(ms, r'') => ((key, v) :: ms, r''))
                              (members (skip_ws r'))
                          else if is_char 125 d then Some ([(key, v)], r')
                          else None
                      | [] => None
                      end
                  end
                else None
            | [] => None
            end
        end
      else None
  | [] => None
  end.

(** The three parsers call each other; [fuel] bounds the depth of the calls,
    and [JSON_parse] gives enough of it. *)
Fixpoint value (fuel : nat) (s : text) : option (json * text) :=
  match fuel with
  | O => None
  | S f => value_at (elements f) (members f) s
  end

with elements (fuel : nat) (s : text) : option (list json * text) :=
  match fuel with
  | O => None
  | S f => elements_at (value f) (elements f) s
  end

with members (fuel : nat) (s : text) : option (list (text * json) * text) :=
  match fuel with
  | O => None
  | S f => members_at (value f) (members f) s
  end.

(** A whole text as one value between white space. *)
Definition parse_with (fuel : nat) (t : text) : option json :=
  match value fuel (skip_ws t) with
  | Some (v, r) => match skip_ws r with
                   | [] => Some v
                   | _ :: _ => None
                   end
  | None => None
  end.

(** [JSON.parse(text)]: [None] is the [SyntaxError] it throws. *)
Definition JSON_parse (t : text) : option json :=
  parse_with (2 * length t + 2) t.

(** [o[key]] for an own property of a parsed value; [None] is [undefined].
    Of two members with one key the later one is the property. *)
Fixpoint lookup (key : text) (ms : list (text * json)) : option json :=
  match ms with
  | [] => None
  | (k, v) :: ms' => match lookup key ms' with
                     | Some v' => Some v'
                     | None => if text_eqb k key then Some v else None
                     end
  end.

Definition get (o : json) (key : text) : option json :=
  match o with
  | JObject ms => lookup key ms
  | _ => None
  end.

(** The decimal [mant * 10^exp10] is stored as the double zero: it is zero,
    or no larger than half the least positive double, 2^-1075. *)
Definition is_zero (mant exp10 : Z) : bool :=
  ((mant =? 0) || ((exp10 <? 0) && (Z.abs mant * 2 ^ 1075 <=? 10 ^ (- exp10))))%Z.

(** ToBoolean, on a value or [undefined]. *)
Definition truthy (v : option json) : bool :=
  match v with
  | None => false
  | Some JNull => false
  | Some (JBool b) => b
  | Some (JNumber m e) => negb (is_zero m e)
  | Some (JString s) => match s with [] => false | _ :: _ => true end
  | Some (JArray _) => true
  | Some (JObject _) => true
  end.

End Json.
Import Json.

(* ================================================================== *)
(** * The server: [api/index.js] and [backend/server.js]               *)
(* ================================================================== *)

Module Server.

Local Open Scope N_scope.

(** ** Helper functions *)

(** The pattern of [extractJSON]: a brace, anything, a brace; or a bracket,
    anything, a bracket. *)
Definition json_span : regex :=
  Alt (Seq (Cls (is_char 123)) (Seq (Rep any 0 Unbounded) (Cls (is_char 125))))
      (Seq (Cls (is_char 91)) (Seq (Rep any 0 Unbounded) (Cls (is_char 93)))).

(** [extractJSON(text)]; the result is a JavaScript value, [null] included. *)
Definition extractJSON (t : text) : json :=
  match JSON_parse t with
  | Some v => v
  | None =>
      match match0 json_span t with
      | Some m0 => match JSON_parse m0 with
                   | Some v => v
                   | None => JNull
                   end
      | None => JNull
      end
  end.

(** The classes of the e-mail pattern: letters, digits and [._%+-] before
    the at sign; letters, digits and [.-] after it. *)
Definition is_local (c : char) : bool :=
  is_lower c || is_upper c || is_digit c || is_char 46 c || is_char 95 c
  || is_char 37 c || is_char 43 c || is_char 45 c.

Definition is_domain (c : char) : bool :=
  is_lower c || is_upper c || is_digit c || is_char 46 c || is_char 45 c.

Definition email_re : regex :=
  Seq (Rep is_local 1 Unbounded)
      (Seq (Cls (is_char 64))
           (Seq (Rep is_domain 1 Unbounded)
                (Seq (Cls (is_char 46)) (Rep is_lower 2 Unbounded)))).

(** [extractEmail(text)]; [None] is [null]. *)
Definition extractEmail (t : text) : option text := match0 email_re t.

(** The separator class of the phone pattern: white space or a hyphen. *)
Definition is_sep (c : char) : bool := is_space c || is_char 45 c.

Definition digits_n (n : nat) : regex := Rep is_digit n (Upto n).

Definition phone_prefix : regex :=
  Seq (Rep (is_char 43) 0 (Upto 1))
      (Seq (Rep is_digit 1 (Upto 3)) (Rep is_sep 0 (Upto 1))).

Definition phone_grouped : regex :=
  Seq (digits_n 3)
      (Seq (Cls is_sep) (Seq (digits_n 3) (Seq (Cls is_sep) (digits_n 4)))).

Definition phone_re : regex :=
  Seq (Opt phone_prefix) (Alt (digits_n 10) phone_grouped).

(** [extractPhone(text)]; [None] is [null]. *)
Definition extractPhone (t : text) : option text := match0 phone_re t.

(** The line separator of [extractName]: an optional carriage return and a
    line feed. *)
Definition newline_re : regex :=
  Seq (Rep (is_char 13) 0 (Upto 1)) (Cls (is_char 10)).

Definition resume_re : regex := lit_ci (str "resum") 101.
Definition letter_re : regex := Cls is_letter.

Definition nonempty (s : text) : bool :=
  match s with [] => false | _ :: _ => true end.

(** [text.split(/\r?\n/).map(l => l.trim()).filter(Boolean)] *)
Definition name_lines (t : text) : list text :=
  filter nonempty (map trim (split newline_re t)).

(** The test of the loop body on the line [s]. *)
Definition name_test (s : text) : bool :=
  negb (test resume_re s) && test letter_re s
  && Nat.leb (length (split_char 32 [] s)) 4.

(** The [for] loop: [n] iterations are left, the next index is [i]. *)
Fixpoint name_loop (n i : nat) (lines : list text) : option text :=
  match n with
  | O => None
  | S n' =>
      match nth_error lines i with
      | None => None
      | Some s => if name_test s then Some s
                  else name_loop n' (S i) lines
      end
  end.

(** [extractName(text)]; [None] is [null]. *)
Definition extractName (t : text) : option text :=
  let lines := name_lines t in
  name_loop (Nat.min 6 (length lines)) 0 lines.

(** ** The route [POST /api/grade-answer] *)

(** The hosted model is an oracle: it answers a prompt with a text or fails
    (the promise rejects).  A handler runs against it and leaves the list of
    the calls it made; [None] as its value is an exception on the way. *)
Record Prompt : Type := { p_question : option json; p_answer : option json }.

Definition Model := Prompt -> option text.

Definition IO (A : Type) : Type :=
  Model -> list Prompt -> option A * list Prompt.

Definition ret {A} (x : A) : IO A := fun _ calls => (Some x, calls).

Definition throw {A} : IO A := fun _ calls => (None, calls).

Definition bind {A B} (m : IO A) (f : A -> IO B) : IO B :=
  fun model calls =>
    match m model calls with
    | (Some x, calls') => f x model calls'
    | (None, calls') => (None, calls')
    end.

Definition try_catch {A} (m : IO A) (handler : IO A) : IO A :=
  fun model calls =>
    match m model calls with
    | (Some x, calls') => (Some x, calls')
    | (None, calls') => handler model calls'
    end.

(** [await model.generateContent(prompt)], then [result.response.text()]. *)
Definition generateContent (p : Prompt) : IO text :=
  fun model calls => (model p, calls ++ [p]).

Notation "x <- m ;; f" := (bind m (fun x => f))
  (at level 61, m at next level, right associativity).

Record Response : Type := { status : nat; body : json }.

Definition error (msg : string) : json :=
  JObject [(str "error", JString (str msg))].

(** Whether a parsed value can be turned into a string, as a template
    literal and [join] do.  An object is printed by the [toString] it
    inherits unless it has a member of that name, which is never a function
    and leaves nothing to call that gives a string; an array prints its
    elements. *)
Fixpoint printable (v : json) : bool :=
  match v with
  | JArray items => forallb printable items
  | JObject members =>
      negb (existsb (fun m => text_eqb (fst m) (str "toString")) members)
  | _ => true
  end.

(** The same for a value or [undefined], which is printed as such. *)
Definition prints (x : option json) : bool :=
  match x with
  | Some v => printable v
  | None => true
  end.

(** [`${x}`]: it throws when the value cannot be printed. *)
Definition to_string (x : option json) : IO unit :=
  if prints x then ret tt else throw.

(** [const { question, answer } = req.body]: it throws when there is no
    body to take apart. *)
Definition destructure (req_body : json) : IO json :=
  match req_body with
  | JNull => throw
  | _ => ret req_body
  end.

(** [req.body || {}] *)
Definition body_or_empty (req_body : json) : json :=
  if truthy (Some req_body) then req_body else JObject [].

(** The handler of [api/index.js]; [req_body] is [req.body], with [JNull]
    for a body that is [null] or absent, which no handler can tell apart; a
    field that is [None] is [undefined]. *)
Definition grade_answer (req_body : json) : IO Response :=
  try_catch
    (b <- destructure req_body ;;
     let question := get b (str "question") in
     let answer := get b (str "answer") in
     if negb (truthy question) || negb (truthy answer)
     then ret {| status := 400; body := error "Missing data" |}
     else
       _ <- to_string question ;;
       _ <- to_string answer ;;
       result <- generateContent {| p_question := question;
                                    p_answer := answer |} ;;
       let grading := extractJSON result in
       if negb (truthy (Some grading)) then throw
       else ret {| status := 200; body := grading |})
    (ret {| status := 500; body := error "Gemini grading failed" |}).

(** The handler of [backend/server.js]: the body is read as
    [req.body || {}]; the same checks, other messages and an answer of its
    own when the salvage fails. *)
Definition grade_answer_backend (req_body : json) : IO Response :=
  try_catch
    (let b := body_or_empty req_body in
     let question := get b (str "question") in
     let answer := get b (str "answer") in
     if negb (truthy question) || negb (truthy answer)
     then ret {| status := 400; body := error "Missing question or answer" |}
     else
       _ <- to_string question ;;
       _ <- to_string answer ;;
       result <- generateContent {| p_question := question;
                                    p_answer := answer |} ;;
       let grading := extractJSON result in
       if negb (truthy (Some grading))
       then ret {| status := 500;
                   body := error "Failed to parse AI grading output" |}
       else ret {| status := 200; body := grading |})
    (ret {| status := 500; body := error "Gemini grading failed" |}).

(** A request served: the response, and the calls made to the model. *)
Definition serve (h : json -> IO Response) (model : Model) (req_body : json)
  : option Response * list Prompt :=
  h req_body model [].

End Server.
Import Server.


(* ================================================================== *)
(** * The client: [frontend/src/pages/Interviewee.js]                  *)
(* ================================================================== *)

(** The component is a function of its state that React calls again after
    every change.  A handler reads the state of the render that created it
    (its closure) and queues changes against the current state; the changes
    of one synchronous stretch of a handler are applied together, and the
    timer effect then runs again when one of its dependencies changed.  An
    [await] ends a stretch: what follows it is a step of its own, with the
    closure of the call.  The flags that only drive spinners ([loading],
    [uploading], [fetchingQuestions]) are left out. *)

Module Client.

Local Open Scope Z_scope.

Inductive Difficulty : Type := easy | medium | hard.

Definition difficultySeconds (d : Difficulty) : Z :=
  match d with easy => 20 | medium => 60 | hard => 120 end.

Module Question.
Record t : Type := { id : Js.text; difficulty : Difficulty; text : Js.text }.
End Question.

Module Answer.
Record t : Type := {
  questionId : text;
  questionText : text;
  difficulty : Difficulty;
  responseText : text;
  timeTakenSeconds : Z;
  autoSubmitted : bool;
  score : option json;
  feedback : option json
}.
End Answer.

(** The [timer] object of a candidate.  A field that a handler did not write
    is [None]. *)
Module Timer.
Record t : Type := {
  questionIndex : option nat;
  remaining : option Z;
  lastUpdated : Z
}.
End Timer.

(** A candidate; its [id] is the reading of the clock the identifier is
    built from, and [createdAt] the same reading. *)
Module Cand.
Record t : Type := {
  id : Z;
  name : text;
  email : text;
  phone : text;
  resumeText : text;
  createdAt : Z;
  currentIndex : nat;
  answers : list Answer.t;
  finalScore : option json;
  summary : option json;
  timer : option Timer.t;
  paused : bool;
  questionsLength : nat;
  questions : list Question.t
}.
End Cand.

(** The fields the modal asks for; [None] is a field the object lacks. *)
Module Missing.
Record t : Type := {
  name : option text;
  email : option text;
  phone : option text;
  id : option Z
}.
End Missing.

(** The state of one render. *)
Module View.
Record t : Type := {
  candidates : list Cand.t;
  active : option Z;
  questions : list Question.t;
  currentIndex : nat;
  remaining : Z;
  answer : text;
  showModal : bool;
  missingFields : Missing.t;
  submitting : bool
}.
End View.

(** The application: the current render, the closure of the armed interval
    ([timerRef.current]), and the closures of the [handleSubmit] calls that
    wait for the grade and for the summary. *)
Record App : Type := {
  view : View.t;
  interval : option View.t;
  grading : list View.t;
  summarizing : list View.t
}.

(** ** Field updates *)

Definition with_timer (tm : option Timer.t) (p : bool) (c : Cand.t) : Cand.t :=
  {| Cand.id := Cand.id c; Cand.name := Cand.name c;
     Cand.email := Cand.email c; Cand.phone := Cand.phone c;
     Cand.resumeText := Cand.resumeText c; Cand.createdAt := Cand.createdAt c;
     Cand.currentIndex := Cand.currentIndex c; Cand.answers := Cand.answers c;
     Cand.finalScore := Cand.finalScore c; Cand.summary := Cand.summary c;
     Cand.timer := tm; Cand.paused := p;
     Cand.questionsLength := Cand.questionsLength c;
     Cand.questions := Cand.questions c |}.

Definition with_answers (ans : list Answer.t) (i : nat) (tm : option Timer.t)
           (c : Cand.t) : Cand.t :=
  {| Cand.id := Cand.id c; Cand.name := Cand.name c;
     Cand.email := Cand.email c; Cand.phone := Cand.phone c;
     Cand.resumeText := Cand.resumeText c; Cand.createdAt := Cand.createdAt c;
     Cand.currentIndex := i; Cand.answers := ans;
     Cand.finalScore := Cand.finalScore c; Cand.summary := Cand.summary c;
     Cand.timer := tm; Cand.paused := Cand.paused c;
     Cand.questionsLength := Cand.questionsLength c;
     Cand.questions := Cand.questions c |}.

Definition with_questions (qs : list Question.t) (c : Cand.t) : Cand.t :=
  {| Cand.id := Cand.id c; Cand.name := Cand.name c;
     Cand.email := Cand.email c; Cand.phone := Cand.phone c;
     Cand.resumeText := Cand.resumeText c; Cand.createdAt := Cand.createdAt c;
     Cand.currentIndex := Cand.currentIndex c; Cand.answers := Cand.answers c;
     Cand.finalScore := Cand.finalScore c; Cand.summary := Cand.summary c;
     Cand.timer := Cand.timer c; Cand.paused := Cand.paused c;
     Cand.questionsLength := length qs; Cand.questions := qs |}.

Definition with_final (fs sm : option json) (i : nat) (c : Cand.t) : Cand.t :=
  {| Cand.id := Cand.id c; Cand.name := Cand.name c;
     Cand.email := Cand.email c; Cand.phone := Cand.phone c;
     Cand.resumeText := Cand.resumeText c; Cand.createdAt := Cand.createdAt c;
     Cand.currentIndex := i; Cand.answers := Cand.answers c;
     Cand.finalScore := fs; Cand.summary := sm;
     Cand.timer := Cand.timer c; Cand.paused := Cand.paused c;
     Cand.questionsLength := Cand.questionsLength c;
     Cand.questions := Cand.questions c |}.

Definition or_else {A} (o : option A) (d : A) : A :=
  match o with Some x => x | None => d end.

(** [{ ...c, ...missingFields }] *)
Definition with_missing (m : Missing.t) (c : Cand.t) : Cand.t :=
  {| Cand.id := or_else (Missing.id m) (Cand.id c);
     Cand.name := or_else (Missing.name m) (Cand.name c);
     Cand.email := or_else (Missing.email m) (Cand.email c);
     Cand.phone := or_else (Missing.phone m) (Cand.phone c);
     Cand.resumeText := Cand.resumeText c; Cand.createdAt := Cand.createdAt c;
     Cand.currentIndex := Cand.currentIndex c; Cand.answers := Cand.answers c;
     Cand.finalScore := Cand.finalScore c; Cand.summary := Cand.summary c;
     Cand.timer := Cand.timer c; Cand.paused := Cand.paused c;
     Cand.questionsLength := Cand.questionsLength c;
     Cand.questions := Cand.questions c |}.

Definition with_score (sc fb : option json) (a : Answer.t) : Answer.t :=
  {| Answer.questionId := Answer.questionId a;
     Answer.questionText := Answer.questionText a;
     Answer.difficulty := Answer.difficulty a;
     Answer.responseText := Answer.responseText a;
     Answer.timeTakenSeconds := Answer.timeTakenSeconds a;
     Answer.autoSubmitted := Answer.autoSubmitted a;
     Answer.score := sc; Answer.feedback := fb |}.

Definition set_candidates (cs : list Cand.t) (v : View.t) : View.t :=
  {| View.candidates := cs; View.active := View.active v;
     View.questions := View.questions v;
     View.currentIndex := View.currentIndex v;
     View.remaining := View.remaining v; View.answer := View.answer v;
     View.showModal := View.showModal v;
     View.missingFields := View.missingFields v;
     View.submitting := View.submitting v |}.

Definition set_remaining (r : Z) (v : View.t) : View.t :=
  {| View.candidates := View.candidates v; View.active := View.active v;
     View.questions := View.questions v;
     View.currentIndex := View.currentIndex v;
     View.remaining := r; View.answer := View.answer v;
     View.showModal := View.showModal v;
     View.missingFields := View.missingFields v;
     View.submitting := View.submitting v |}.

Definition set_answer (t : text) (v : View.t) : View.t :=
  {| View.candidates := View.candidates v; View.active := View.active v;
     View.questions := View.questions v;
     View.currentIndex := View.currentIndex v;
     View.remaining := View.remaining v; View.answer := t;
     View.showModal := View.showModal v;
     View.missingFields := View.missingFields v;
     View.submitting := View.submitting v |}.

Definition set_submitting (b : bool) (v : View.t) : View.t :=
  {| View.candidates := View.candidates v; View.active := View.active v;
     View.questions := View.questions v;
     View.currentIndex := View.currentIndex v;
     View.remaining := View.remaining v; View.answer := View.answer v;
     View.showModal := View.showModal v;
     View.missingFields := View.missingFields v;
     View.submitting := b |}.

Definition set_currentIndex (i : nat) (v : View.t) : View.t :=
  {| View.candidates := View.candidates v; View.active := View.active v;
     View.questions := View.questions v;
     View.currentIndex := i;
     View.remaining := View.remaining v; View.answer := View.answer v;
     View.showModal := View.showModal v;
     View.missingFields := View.missingFields v;
     View.submitting := View.submitting v |}.

Definition set_questions (qs : list Question.t) (v : View.t) : View.t :=
  {| View.candidates := View.candidates v; View.active := View.active v;
     View.questions := qs;
     View.currentIndex := View.currentIndex v;
     View.remaining := View.remaining v; View.answer := View.answer v;
     View.showModal := View.showModal v;
     View.missingFields := View.missingFields v;
     View.submitting := View.submitting v |}.

Definition set_active (a : option Z) (v : View.t) : View.t :=
  {| View.candidates := View.candidates v; View.active := a;
     View.questions := View.questions v;
     View.currentIndex := View.currentIndex v;
     View.remaining := View.remaining v; View.answer := View.answer v;
     View.showModal := View.showModal v;
     View.missingFields := View.missingFields v;
     View.submitting := View.submitting v |}.

Definition set_modal (b : bool) (m : Missing.t) (v : View.t) : View.t :=
  {| View.candidates := View.candidates v; View.active := View.active v;
     View.questions := View.questions v;
     View.currentIndex := View.currentIndex v;
     View.remaining := View.remaining v; View.answer := View.answer v;
     View.showModal := b;
     View.missingFields := m;
     View.submitting := View.submitting v |}.

(** ** The store *)

(** [candidates.find(c => c.id === id)] *)
Definition find_candidate (id : Z) (cs : list Cand.t) : option Cand.t :=
  find (fun c => Cand.id c =? id) cs.

(** [updateCandidate(id, updater)], on the current list. *)
Definition updateCandidate (id : Z) (updater : Cand.t -> Cand.t)
           (cs : list Cand.t) : list Cand.t :=
  map (fun c => if Cand.id c =? id then updater c else c) cs.

Definition update (id : Z) (updater : Cand.t -> Cand.t) (v : View.t) : View.t :=
  set_candidates (updateCandidate id updater (View.candidates v)) v.

(** ** The countdown *)

(** [cand?.timer?.remaining ?? difficultySeconds[q.difficulty]] *)
Definition initialRemaining (cand : option Cand.t) (q : Question.t) : Z :=
  match cand with
  | Some c => match Cand.timer c with
              | Some t => or_else (Timer.remaining t)
                                  (difficultySeconds (Question.difficulty q))
              | None => difficultySeconds (Question.difficulty q)
              end
  | None => difficultySeconds (Question.difficulty q)
  end.

(** [startTimer()] of the render [v]: the state after it and the interval it
    arms; the interval keeps [v] as the closure of its callback. *)
Definition startTimer (v : View.t) : View.t * option View.t :=
  match nth_error (View.questions v) (View.currentIndex v), View.active v with
  | Some q, Some id =>
      (set_remaining
         (initialRemaining (find_candidate id (View.candidates v)) q) v,
       Some v)
  | _, _ => (v, None)
  end.

(** The timer effect after the render [v]: the previous interval is cleared,
    and the timer starts unless the active candidate is paused. *)
Definition effect (v : View.t) : View.t * option View.t :=
  match View.questions v, View.active v with
  | _ :: _, Some id =>
      match find_candidate id (View.candidates v) with
      | Some c => if Cand.paused c then (v, None) else startTimer v
      | None => startTimer v
      end
  | _, _ => (v, None)
  end.

(** A render of [v] that runs the timer effect. *)
Definition render (a : App) (v : View.t) : App :=
  let '(v', i) := effect v in
  {| view := v'; interval := i;
     grading := grading a; summarizing := summarizing a |}.

(** A render of [v] that leaves the timer alone. *)
Definition render_only (a : App) (v : View.t) : App :=
  {| view := v; interval := interval a;
     grading := grading a; summarizing := summarizing a |}.

Definition clearInterval (a : App) : App :=
  {| view := view a; interval := None;
     grading := grading a; summarizing := summarizing a |}.

(** ** Pause and resume *)

Definition timer_question (c : Cand.t) : option nat :=
  match Cand.timer c with
  | Some t => Timer.questionIndex t
  | None => None
  end.

Definition timer_remaining (c : Cand.t) : option Z :=
  match Cand.timer c with
  | Some t => Timer.remaining t
  | None => None
  end.

(** [pauseActive()]; [now] is the reading of [Date.now()]. *)
Definition pauseActive (now : Z) (a : App) : App :=
  let v := view a in
  match View.active v with
  | None => a
  | Some id =>
      render a
        (update id
           (fun c =>
              with_timer
                (Some {| Timer.questionIndex := timer_question c;
                         Timer.remaining := Some (View.remaining v);
                         Timer.lastUpdated := now |})
                true c)
           v)
  end.

(** [resumeActive()]: the candidate is updated, and [startTimer()] of the
    current render sets the countdown before the next render. *)
Definition resumeActive (now : Z) (a : App) : App :=
  let v := view a in
  match View.active v with
  | None => a
  | Some id =>
      let v1 :=
        update id
          (fun c =>
             with_timer
               (Some {| Timer.questionIndex := timer_question c;
                        Timer.remaining := timer_remaining c;
                        Timer.lastUpdated := now |})
               false c)
          v in
      render a (set_remaining (View.remaining (fst (startTimer v))) v1)
  end.

(** ** Submitting an answer *)

Definition sentinel : text := str "[AUTO SUBMITTED]".

(** [!answer.trim()] *)
Definition blank (t : text) : bool :=
  match trim t with [] => true | _ :: _ => false end.

Definition newAnswer (cl : View.t) (q : Question.t) (auto : bool) : Answer.t :=
  {| Answer.questionId := Question.id q;
     Answer.questionText := Question.text q;
     Answer.difficulty := Question.difficulty q;
     Answer.responseText :=
       if blank (View.answer cl) && auto then sentinel else View.answer cl;
     Answer.timeTakenSeconds :=
       difficultySeconds (Question.difficulty q) - View.remaining cl;
     Answer.autoSubmitted := auto;
     Answer.score := Some JNull;
     Answer.feedback := Some JNull |}.

Inductive Outcome : Type :=
| Ignored                 (* returned before anything happened *)
| Stopped                 (* cleared the interval, then returned *)
| Recorded (v : View.t).  (* recorded the answer; the grade is awaited *)

(** [handleSubmit(auto)] up to its first [await]; [cl] is the render the
    callback closes over and [v] the current state. *)
Definition handleSubmit (cl : View.t) (auto : bool) (v : View.t) : Outcome :=
  match View.active cl with
  | None => Ignored
  | Some id =>
      match find_candidate id (View.candidates cl) with
      | None => Ignored
      | Some _ =>
          match nth_error (View.questions cl) (View.currentIndex cl) with
          | None => Stopped
          | Some q =>
              Recorded
                (set_submitting true
                   (set_answer []
                      (update id
                         (fun c =>
                            with_answers
                              (Cand.answers c ++ [newAnswer cl q auto])
                              (Cand.currentIndex c + 1)%nat None c)
                         v)))
          end
      end
  end.

Definition await_grade (cl : View.t) (a : App) : App :=
  {| view := view a; interval := interval a;
     grading := grading a ++ [cl]; summarizing := summarizing a |}.

Definition await_summary (cl : View.t) (a : App) : App :=
  {| view := view a; interval := interval a;
     grading := grading a; summarizing := summarizing a ++ [cl] |}.

(** The click on the submit button. *)
Definition submit (a : App) : App :=
  match handleSubmit (view a) false (view a) with
  | Ignored => a
  | Stopped => clearInterval a
  | Recorded v' => render (await_grade (view a) a) v'
  end.

(** The callback of the interval; [now] is the reading of [Date.now()].
    The updater of [setRemaining] sees the current countdown [prev]; the
    [handleSubmit] it calls is the one of the closure [cl]. *)
Definition tick (now : Z) (a : App) : App :=
  match interval a with
  | None => a
  | Some cl =>
      match View.active cl with
      | None => a
      | Some id =>
          let prev := View.remaining (view a) in
          let next := prev - 1 in
          let v1 :=
            update id
              (fun c =>
                 with_timer
                   (Some {| Timer.questionIndex := Some (View.currentIndex cl);
                            Timer.remaining := Some (Z.max 0 next);
                            Timer.lastUpdated := now |})
                   (Cand.paused c) c)
              (view a) in
          if next <=? 0 then
            match handleSubmit cl true v1 with
            | Recorded v2 => render (await_grade cl a) (set_remaining 0 v2)
            | _ => render a (set_remaining 0 v1)
            end
          else render a (set_remaining next v1)
      end
  end.

Fixpoint remove_nth {A} (i : nat) (l : list A) : list A :=
  match l, i with
  | [], _ => []
  | _ :: l', O => l'
  | x :: l', S i' => x :: remove_nth i' l'
  end.

(** [a[a.length - 1] = { ...a[a.length - 1], score, feedback }] *)
Fixpoint grade_last (sc fb : option json) (ans : list Answer.t)
  : list Answer.t :=
  match ans with
  | [] => []
  | [x] => [with_score sc fb x]
  | x :: ans' => x :: grade_last sc fb ans'
  end.

(** A response whose properties can be read inside the [try] of
    [handleSubmit]: reading a property of [null] throws there, as a failed
    request does. *)
Definition readable (r : option json) : option json :=
  match r with
  | Some JNull => None
  | _ => r
  end.

(** The updater that writes the grade reads [grade.score] when React
    applies it to a candidate, while it renders and outside the [try] of
    [handleSubmit].  For a reply that is [null] and a candidate to apply it
    to, the read throws there and the page is lost. *)
Definition grade_breaks (id : Z) (grade : option json) (v : View.t) : bool :=
  match grade, find_candidate id (View.candidates v) with
  | Some JNull, Some _ => true
  | _, _ => false
  end.

(** [handleSubmit] after the grade request settled; [grade] is the parsed
    response, [None] when the request or its parsing failed.  For the last
    question the summary request goes out and is awaited.  The result is
    [None] when the page is lost. *)
Definition grade_settled (i : nat) (grade : option json) (now : Z) (a : App)
  : option App :=
  match nth_error (grading a) i with
  | None => Some a
  | Some cl =>
      match View.active cl with
      | None => Some a
      | Some id =>
          let a' := {| view := view a; interval := interval a;
                       grading := remove_nth i (grading a);
                       summarizing := summarizing a |} in
          let graded v :=
            match grade with
            | Some g =>
                update id
                  (fun c =>
                     with_answers
                       (grade_last (get g (str "score"))
                                   (get g (str "feedback")) (Cand.answers c))
                       (Cand.currentIndex c) (Cand.timer c) c)
                  v
            | None => v
            end in
          let nextIndex := (View.currentIndex cl + 1)%nat in
          if grade_breaks id grade (view a) then None
          else if (nextIndex <? length (View.questions cl))%nat then
            let budget :=
              match nth_error (View.questions cl) nextIndex with
              | Some nextQ => difficultySeconds (Question.difficulty nextQ)
              | None => 0
              end in
            Some
              (render a'
                 (update id
                    (with_timer
                       (Some {| Timer.questionIndex := Some nextIndex;
                                Timer.remaining := Some budget;
                                Timer.lastUpdated := now |})
                       false)
                    (set_remaining budget
                       (set_currentIndex nextIndex
                          (set_submitting false (graded (view a)))))))
          else
            match grade with
            | Some _ => Some (render (await_summary cl a') (graded (view a)))
            | None => Some (await_summary cl a')
            end
      end
  end.

(** [handleSubmit] after the summary request settled. *)
Definition summary_settled (i : nat) (finalData : option json) (a : App)
  : App :=
  match nth_error (summarizing a) i with
  | None => a
  | Some cl =>
      match View.active cl with
      | None => a
      | Some id =>
          let a' := {| view := view a; interval := interval a;
                       grading := grading a;
                       summarizing := remove_nth i (summarizing a) |} in
          match readable finalData with
          | Some d =>
              render a'
                (set_submitting false
                   (update id
                      (with_final (get d (str "finalScorePercent"))
                                  (get d (str "summary"))
                                  (length (View.questions cl)))
                      (view a)))
          | None => render_only a' (set_submitting false (view a))
          end
      end
  end.

(** ** Opening a candidate *)

(** The questions of the session: those of the candidate, or the six the
    server sent ([fetched], [None] when the request failed); the flag tells
    that they are new. *)
Definition open_questions (cand : Cand.t) (fetched : option (list Question.t))
  : option (list Question.t * bool) :=
  match Cand.questions cand with
  | _ :: _ => Some (Cand.questions cand, false)
  | [] => match fetched with
          | Some qs => if (length qs =? 6)%nat then Some (qs, true) else None
          | None => None
          end
  end.

(** [resume ? (cand.currentIndex || cand.answers.length || 0) : 0] *)
Definition open_index (resume : bool) (cand : Cand.t) : nat :=
  if resume then
    match Cand.currentIndex cand with
    | O => length (Cand.answers cand)
    | S _ => Cand.currentIndex cand
    end
  else O.

(** The countdown [rem] that [openCandidate] reconstructs. *)
Definition open_remaining (cand : Cand.t) (qs : list Question.t) (idx : nat)
           (now : Z) : Z :=
  let rem := match nth_error qs idx with
             | Some q => difficultySeconds (Question.difficulty q)
             | None => 0
             end in
  match Cand.timer cand with
  | Some t =>
      match Timer.questionIndex t, Timer.remaining t with
      | Some i, Some r =>
          if (i =? idx)%nat then
            let elapsed := (now - Timer.lastUpdated t) / 1000 in
            Z.max 0 (r - elapsed)
          else rem
      | _, _ => rem
      end
  | None => rem
  end.

(** [openCandidate(candidateId, resume, candidatesList)]; [cs] is the list it
    searches ([candidatesList || candidates]).  No other handler runs while
    the questions are requested. *)
Definition openCandidate (cs : list Cand.t) (candidateId : Z) (resume : bool)
           (fetched : option (list Question.t)) (now : Z) (a : App) : App :=
  match find_candidate candidateId cs with
  | None => a
  | Some cand =>
      match open_questions cand fetched with
      | None => a
      | Some (qs, fresh) =>
          let v0 := if fresh then update candidateId (with_questions qs) (view a)
                    else view a in
          let idx := open_index resume cand in
          let rem := open_remaining cand qs idx now in
          render a
            (set_active (Some candidateId)
               (update candidateId
                  (with_timer
                     (Some {| Timer.questionIndex := Some idx;
                              Timer.remaining := Some rem;
                              Timer.lastUpdated := now |})
                     false)
                  (set_remaining rem
                     (set_currentIndex (Nat.min idx (length qs - 1))
                        (set_questions qs v0)))))
      end
  end.

(** [handleOpenCandidate(id)], the button of a past session. *)
Definition handleOpenCandidate (id : Z) (fetched : option (list Question.t))
           (now : Z) (a : App) : App :=
  openCandidate (View.candidates (view a)) id true fetched now a.

(** ** Uploading a resume *)

(** What the server extracted; a field is [None] when it is [null]. *)
Module Parsed.
Record t : Type := {
  name : option text;
  email : option text;
  phone : option text
}.
End Parsed.

Definition newCand (now : Z) (file : text) (d : Parsed.t) : Cand.t :=
  {| Cand.id := now;
     Cand.name := or_else (Parsed.name d) [];
     Cand.email := or_else (Parsed.email d) [];
     Cand.phone := or_else (Parsed.phone d) [];
     Cand.resumeText := file; Cand.createdAt := now;
     Cand.currentIndex := 0; Cand.answers := [];
     Cand.finalScore := Some JNull; Cand.summary := Some JNull;
     Cand.timer := None; Cand.paused := false;
     Cand.questionsLength := 0; Cand.questions := [] |}.

Definition missing_field (t : text) : option text :=
  match t with [] => Some [] | _ :: _ => None end.

(** [handleUploadFile(e)]; [parsed] is [None] when the request failed or the
    server answered with an error.  With every field present the session
    opens at once, on the list that holds the new candidate. *)
Definition handleUploadFile (now : Z) (file : text) (parsed : option Parsed.t)
           (fetched : option (list Question.t)) (a : App) : App :=
  match parsed with
  | None => a
  | Some d =>
      let c := newCand now file d in
      let updated := View.candidates (view a) ++ [c] in
      match missing_field (Cand.name c), missing_field (Cand.email c),
            missing_field (Cand.phone c) with
      | None, None, None =>
          openCandidate updated now false fetched now
            (render a (set_active (Some now) (set_candidates updated (view a))))
      | mn, me, mp =>
          render a
            (set_active (Some now)
               (set_modal true
                  {| Missing.name := mn; Missing.email := me;
                     Missing.phone := mp; Missing.id := Some now |}
                  (set_candidates updated (view a))))
      end
  end.

(** [resumeAfterModal()], the confirmation of the modal. *)
Definition resumeAfterModal (fetched : option (list Question.t)) (now : Z)
           (a : App) : App :=
  let v := view a in
  match match View.active v with
        | Some id => Some id
        | None => Missing.id (View.missingFields v)
        end with
  | None => a
  | Some id =>
      openCandidate (View.candidates v) id false fetched now
        (render a
           (set_modal false (View.missingFields v)
              (update id (with_missing (View.missingFields v)) v)))
  end.

(** The button that closes the summary. *)
Definition closeInterview (a : App) : App :=
  render a
    (set_answer []
       (set_remaining 0
          (set_currentIndex 0 (set_questions [] (set_active None (view a)))))).

(** ** What the page offers *)

Definition activeCandidate (v : View.t) : option Cand.t :=
  match View.active v with
  | Some id => find_candidate id (View.candidates v)
  | None => None
  end.

(** [x != null] fails on [null] and on [undefined]. *)
Definition nullish (o : option json) : bool :=
  match o with
  | None => true
  | Some JNull => true
  | Some _ => false
  end.

Definition is_some {A} (o : option A) : bool :=
  match o with Some _ => true | None => false end.

Definition active_paused (v : View.t) : bool :=
  match activeCandidate v with Some c => Cand.paused c | None => false end.

Definition active_complete (v : View.t) : bool :=
  match activeCandidate v with
  | Some c => negb (nullish (Cand.finalScore c))
  | None => false
  end.

(** The question card is on the page. *)
Definition card_shown (v : View.t) : bool :=
  is_some (View.active v) && negb (View.showModal v)
  && negb (active_complete v)
  && is_some (nth_error (View.questions v) (View.currentIndex v)).

(** The summary card is on the page. *)
Definition summary_shown (v : View.t) : bool :=
  is_some (View.active v) && negb (View.showModal v) && active_complete v.

Definition submit_enabled (v : View.t) : bool :=
  card_shown v && negb (blank (View.answer v)) && (0 <? View.remaining v)
  && negb (View.submitting v) && negb (active_paused v).

Definition pause_enabled (v : View.t) : bool :=
  card_shown v && negb (active_paused v) && negb (View.submitting v).

Definition resume_enabled (v : View.t) : bool :=
  card_shown v && active_paused v && negb (View.submitting v).

Definition typing_enabled (v : View.t) : bool :=
  card_shown v && negb (View.remaining v <=? 0) && negb (active_paused v)
  && negb (View.submitting v).

(** ** Runs of the page *)

Inductive Field : Type := field_name | field_email | field_phone.

Definition edit_missing (f : Field) (t : text) (m : Missing.t) : option Missing.t :=
  match f with
  | field_name =>
      match Missing.name m with
      | Some _ => Some {| Missing.name := Some t; Missing.email := Missing.email m;
                          Missing.phone := Missing.phone m; Missing.id := Missing.id m |}
      | None => None
      end
  | field_email =>
      match Missing.email m with
      | Some _ => Some {| Missing.name := Missing.name m; Missing.email := Some t;
                          Missing.phone := Missing.phone m; Missing.id := Missing.id m |}
      | None => None
      end
  | field_phone =>
      match Missing.phone m with
      | Some _ => Some {| Missing.name := Missing.name m; Missing.email := Missing.email m;
                          Missing.phone := Some t; Missing.id := Missing.id m |}
      | None => None
      end
  end.

(** What can happen to the page: the user acts, the interval fires, or a
    request settles. *)
Inductive Event : Type :=
| Upload (now : Z) (file : text) (parsed : option Parsed.t)
         (fetched : option (list Question.t))
| ModalEdit (f : Field) (t : text)
| ModalOk (fetched : option (list Question.t)) (now : Z)
| ModalCancel
| Open (id : Z) (fetched : option (list Question.t)) (now : Z)
| Type_ (t : text)
| Submit
| Tick (now : Z)
| Pause (now : Z)
| Resume (now : Z)
| GradeSettled (i : nat) (grade : option json) (now : Z)
| SummarySettled (i : nat) (finalData : option json)
| Close.

Definition guard (b : bool) (a : App) : option App :=
  if b then Some a else None.

(** One event on the page; [None] when the page does not offer it, or is
    lost by it. *)
Definition step (e : Event) (a : App) : option App :=
  let v := view a in
  match e with
  | Upload now file parsed fetched =>
      Some (handleUploadFile now file parsed fetched a)
  | ModalEdit f t =>
      if View.showModal v then
        match edit_missing f t (View.missingFields v) with
        | Some m => Some (render_only a (set_modal true m v))
        | None => None
        end
      else None
  | ModalOk fetched now =>
      guard (View.showModal v) (resumeAfterModal fetched now a)
  | ModalCancel =>
      guard (View.showModal v)
            (render_only a (set_modal false (View.missingFields v) v))
  | Open id fetched now =>
      guard (is_some (find_candidate id (View.candidates v)))
            (handleOpenCandidate id fetched now a)
  | Type_ t => guard (typing_enabled v) (render_only a (set_answer t v))
  | Submit => guard (submit_enabled v) (submit a)
  | Tick now => guard (is_some (interval a)) (tick now a)
  | Pause now => guard (pause_enabled v) (pauseActive now a)
  | Resume now => guard (resume_enabled v) (resumeActive now a)
  | GradeSettled i grade now =>
      if is_some (nth_error (grading a) i) then grade_settled i grade now a
      else None
  | SummarySettled i finalData =>
      guard (is_some (nth_error (summarizing a) i))
            (summary_settled i finalData a)
  | Close => guard (summary_shown v) (closeInterview a)
  end.

Fixpoint run_events (es : list Event) (a : App) : option App :=
  match es with
  | [] => Some a
  | e :: es' => match step e a with
                | Some a' => run_events es' a'
                | None => None
                end
  end.

(** The page as it loads, with the candidates found in the storage. *)
Definition init (stored : list Cand.t) : App :=
  {| view := {| View.candidates := stored; View.active := None;
                View.questions := []; View.currentIndex := 0;
                View.remaining := 0; View.answer := [];
                View.showModal := false;
                View.missingFields :=
                  {| Missing.name := None; Missing.email := None;
                     Missing.phone := None; Missing.id := None |};
                View.submitting := false |};
     interval := None; grading := []; summarizing := [] |}.

(** The states a fresh browser can reach. *)
Definition Reachable (a : App) : Prop :=
  exists es, run_events es (init []) = Some a.

End Client.
Import Client.

(* ================================================================== *)
(** * The vocabulary of the properties                                 *)
(* ================================================================== *)

Module Props.

Local Open Scope N_scope.

(** Every character of [w] is in the class [p]. *)
Definition all (p : char -> bool) (w : text) : Prop :=
  Forall (fun c => p c = true) w.

(** Ten consecutive digits. *)
Definition TenDigits (w : text) : Prop := length w = 10%nat /\ all is_digit w.

(** Three digits, a separator, three digits, a separator, four digits; a
    separator is a hyphen or a white space character. *)
Definition Grouped (w : text) : Prop :=
  exists a s1 b s2 c,
    w = a ++ s1 :: b ++ s2 :: c /\
    length a = 3%nat /\ all is_digit a /\ is_sep s1 = true /\
    length b = 3%nat /\ all is_digit b /\ is_sep s2 = true /\
    length c = 4%nat /\ all is_digit c.

Definition PhoneLike (w : text) : Prop := TenDigits w \/ Grouped w.

(** The words of the specification for a text without a phone number: every
    run of digits is shorter than ten, and no group [ddd-ddd-dddd], written
    with hyphens, occurs. *)
Fixpoint longest_digit_run (run best : nat) (s : text) : nat :=
  match s with
  | [] => Nat.max run best
  | c :: s' => if is_digit c then longest_digit_run (S run) best s'
               else longest_digit_run 0 (Nat.max run best) s'
  end.

Definition spec_hyphen_group_here (s : text) : bool :=
  match s with
  | a :: b :: c :: h1 :: d :: e :: f :: h2 :: g :: h :: i :: j :: _ =>
      forallb is_digit [a; b; c; d; e; f; g; h; i; j]
      && is_char 45 h1 && is_char 45 h2
  | _ => false
  end.

Fixpoint spec_has_hyphen_group (s : text) : bool :=
  spec_hyphen_group_here s
  || match s with
     | [] => false
     | _ :: s' => spec_has_hyphen_group s'
     end.

Definition spec_phone_free (t : text) : bool :=
  Nat.ltb (longest_digit_run 0 0 t) 10 && negb (spec_has_hyphen_group t).

(** What the e-mail pattern takes for an address: a local part, an at sign,
    a domain, a point and a top-level name of two or more lower-case
    letters. *)
Definition EmailLike (w : text) : Prop :=
  exists loc dom tld,
    w = loc ++ 64 :: dom ++ 46 :: tld /\
    loc <> [] /\ all is_local loc /\ dom <> [] /\ all is_domain dom /\
    (2 <= length tld)%nat /\ all is_lower tld.

(** An address [local@domain.tld] in the words of the specification: as
    above, with a top-level name of letters in either case. *)
Definition spec_well_formed_email (w : text) : Prop :=
  exists loc dom tld,
    w = loc ++ 64 :: dom ++ 46 :: tld /\
    loc <> [] /\ all is_local loc /\ dom <> [] /\ all is_domain dom /\
    (2 <= length tld)%nat /\ all is_letter tld.

(** The line holds the letters of "resume", in either case. *)
Definition ContainsResume (s : text) : Prop :=
  exists pre w post,
    s = pre ++ w ++ post /\
    Forall2 (fun c l => ci l c = true) w (str "resume").

Definition HasLetter (s : text) : Prop :=
  exists c, In c s /\ is_letter c = true.

(** How many space characters (code unit 32) the line holds. *)
Definition spaces (s : text) : nat := count_occ N.eq_dec s 32.

(** The lines [extractName] accepts. *)
Definition GoodNameLine (s : text) : Prop :=
  ~ ContainsResume s /\ HasLetter s /\ (spaces s <= 3)%nat.

(** The words of the specification for the same test: at most four tokens
    separated by white space. *)
Fixpoint spec_tokens (inside : bool) (s : text) : nat :=
  match s with
  | [] => 0%nat
  | c :: s' => if is_space c then spec_tokens false s'
               else ((if inside then 0 else 1) + spec_tokens true s')%nat
  end.

Fixpoint prefix_ci (w s : text) : bool :=
  match w, s with
  | [], _ => true
  | l :: w', c :: s' => ci l c && prefix_ci w' s'
  | _ :: _, [] => false
  end.

Fixpoint contains_ci (w s : text) : bool :=
  prefix_ci w s || match s with
                   | [] => false
                   | _ :: s' => contains_ci w s'
                   end.

Definition spec_name_test (s : text) : bool :=
  negb (contains_ci (str "resume") s) && existsb is_letter s
  && Nat.leb (spec_tokens false s) 4.

Definition spec_extractName (t : text) : option text :=
  find spec_name_test (firstn 6 (name_lines t)).

(** A brace closes a brace and a bracket a bracket. *)
Definition closes (o c : char) : Prop :=
  (o = 123 /\ c = 125) \/ (o = 91 /\ c = 93).

(** A span can start at [o]: its closing character comes somewhere after. *)
Definition viable (o : char) (after : text) : Prop :=
  exists c, closes o c /\ In c after.

Definition or_null (o : option json) : json :=
  match o with Some v => v | None => JNull end.

(** The words of the specification for the salvage: the first top-level
    span, from the first opening character to the one that balances it. *)
Definition opener (c : char) : bool := is_char 123 c || is_char 91 c.
Definition closer (c : char) : bool := is_char 125 c || is_char 93 c.

Fixpoint balanced_length (depth : nat) (s : text) : option nat :=
  match s with
  | [] => None
  | c :: s' =>
      if opener c then option_map S (balanced_length (S depth) s')
      else if closer c then
             match depth with
             | O => Some 1%nat
             | S d => option_map S (balanced_length d s')
             end
      else option_map S (balanced_length depth s')
  end.

Fixpoint spec_first_span (s : text) : option text :=
  match s with
  | [] => None
  | c :: s' =>
      if opener c then
        option_map (fun n => c :: firstn n s') (balanced_length 0 s')
      else spec_first_span s'
  end.

Definition spec_extractJSON (t : text) : json :=
  match JSON_parse t with
  | Some v => v
  | None => match spec_first_span t with
            | Some span => or_null (JSON_parse span)
            | None => JNull
            end
  end.

(** The two refusals of the grading route. *)
Definition missing_data : Response :=
  {| status := 400; body := error "Missing data" |}.

Definition missing_question_or_answer : Response :=
  {| status := 400; body := error "Missing question or answer" |}.

(** What [pauseActive] does to the active candidate, [r] being the countdown
    on the page. *)
Definition pause_update (now r : Z) (c : Cand.t) : Cand.t :=
  with_timer
    (Some {| Timer.questionIndex := timer_question c;
             Timer.remaining := Some r;
             Timer.lastUpdated := now |})
    true c.

(** The candidate [id] with the time stamp of its timer set to [now]. *)
Definition restamp (now : Z) (id : Z) (a : App) : App :=
  {| view :=
       update id
         (fun c =>
            with_timer
              (option_map
                 (fun t => {| Timer.questionIndex := Timer.questionIndex t;
                              Timer.remaining := Timer.remaining t;
                              Timer.lastUpdated := now |})
                 (Cand.timer c))
              (Cand.paused c) c)
         (view a);
     interval := interval a;
     grading := grading a;
     summarizing := summarizing a |}.

End Props.
Import Props.

(* ================================================================== *)
(** * Sample sessions                                                  *)
(* ================================================================== *)

Module Scenario.

Local Open Scope Z_scope.

Definition question (n : string) (d : Difficulty) : Question.t :=
  {| Question.id := str n; Question.difficulty := d;
     Question.text := str "Explain " ++ str n |}.

Definition six : list Question.t :=
  [question "q1" easy; question "q2" easy; question "q3" medium;
   question "q4" medium; question "q5" hard; question "q6" hard].

Definition ada : Parsed.t :=
  {| Parsed.name := Some (str "Ada Lovelace");
     Parsed.email := Some (str "ada@example.com");
     Parsed.phone := Some (str "5551234567") |}.

(** A resume with every field is uploaded at time 1000 and the six
    questions arrive. *)
Definition started : list Event :=
  [Upload 1000 (str "cv.pdf") (Some ada) (Some six)].

(** [n] ticks, one second apart, the first at [from]. *)
Fixpoint ticks (n : nat) (from : Z) : list Event :=
  match n with
  | O => []
  | S n' => Tick from :: ticks n' (from + 1000)
  end.

(** The candidate types "x" and lets the first question expire. *)
Definition typed_then_expired : list Event :=
  started ++ Type_ (str "x") :: ticks 20 2000.

(** The candidate types "late" in the last second of the first question. *)
Definition typed_in_the_last_second : list Event :=
  started ++ ticks 19 2000 ++ [Type_ (str "late"); Tick 21000].

Definition grade : json :=
  JObject [(str "score", JNumber 7 0); (str "feedback", JString (str "ok"))].

Definition final : json :=
  JObject [(str "finalScorePercent", JNumber 70 0);
           (str "summary", JString (str "fine"))].

(** One question answered by hand and graded. *)
Definition answered (now : Z) : list Event :=
  [Type_ (str "my answer"); Submit; GradeSettled 0 (Some grade) now].

(** The whole interview by hand, the summary, the summary closed; then the
    finished session is opened again and one second passes. *)
Definition finished_then_reopened : list Event :=
  started ++ answered 2000 ++ answered 3000 ++ answered 4000
  ++ answered 5000 ++ answered 6000 ++ answered 7000
  ++ [SummarySettled 0 (Some final); Close; Open 1000 None 9000; Tick 10000].

(** The page after a run; the empty page when the run is not offered. *)
Definition after (es : list Event) : App :=
  match run_events es (init []) with
  | Some a => a
  | None => init []
  end.

(** Request bodies for the grading route, and a model that answers. *)
Definition asked : json := JString (str "What is a closure?").

Definition body_ok : json :=
  JObject [(str "question", asked);
           (str "answer", JString (str "A function and its scope"))].

Definition body_without_answer : json := JObject [(str "question", asked)].

Definition body_empty_answer : json :=
  JObject [(str "question", asked); (str "answer", JString [])].

Definition body_zero_answer : json :=
  JObject [(str "question", asked); (str "answer", JNumber 0 0)].

Definition grader : Model :=
  fun _ => Some (str "{" ++ dq :: str "score" ++ dq :: str ": 7, " ++ dq
                 :: str "feedback" ++ dq :: str ": " ++ dq :: str "ok" ++ dq
                 :: str "}").

End Scenario.

(* ================================================================== *)
(** * The other routes of the two servers                              *)
(* ================================================================== *)

Module Routes.

Local Open Scope N_scope.

(** ** Handlers that call the model *)

(** What a handler sends to the model, as the request data its prompt is
    built from: the role and the elements of the stack; the name and the
    answers of a candidate; for [backend/server.js] the name, the e-mail
    address and the phone number, and the answers, which are an array.  The
    answers are printed by [JSON.stringify], which prints every parsed
    value. *)
Inductive Prompt : Type :=
| QuestionsPrompt (role : json) (stack : list json)
| SummaryPrompt (name : option json) (answers : json)
| FinalPrompt (name email phone : json) (answers : list json).

Definition Model := Prompt -> option text.

(** A handler runs against the model and leaves the list of the calls it
    made; [None] as its value is an exception on the way. *)
Definition IO (A : Type) : Type :=
  Model -> list Prompt -> option A * list Prompt.

Definition ret {A} (x : A) : IO A := fun _ calls => (Some x, calls).

Definition throw {A} : IO A := fun _ calls => (None, calls).

Definition bind {A B} (m : IO A) (f : A -> IO B) : IO B :=
  fun model calls =>
    match m model calls with
    | (Some x, calls') => f x model calls'
    | (None, calls') => (None, calls')
    end.

Definition try_catch {A} (m : IO A) (handler : IO A) : IO A :=
  fun model calls =>
    match m model calls with
    | (Some x, calls') => (Some x, calls')
    | (None, calls') => handler model calls'
    end.

(** [await model.generateContent(prompt)], then [result.response.text()]. *)
Definition generateContent (p : Prompt) : IO text :=
  fun model calls => (model p, calls ++ [p]).

Declare Scope routes_scope.
Notation "x <- m ;; f" := (bind m (fun x => f))
  (at level 61, m at next level, right associativity) : routes_scope.
Local Open Scope routes_scope.

(** [o.key]: reading a property of [null] throws. *)
Definition prop (o : json) (key : string) : IO (option json) :=
  match o with
  | JNull => throw
  | _ => ret (get o (str key))
  end.

(** [x || d] *)
Definition or_default (x : option json) (d : json) : json :=
  match x with
  | Some v => if truthy x then v else d
  | None => d
  end.

(** [`${x}`]: it throws when the value cannot be printed. *)
Definition to_string (x : option json) : IO unit :=
  if prints x then ret tt else throw.

(** [stack.join(", ")]: only an array has a [join] to call, and it prints
    the elements; what comes back is the elements the text is built from. *)
Definition join (stack : json) : IO (list json) :=
  match stack with
  | JArray items => if forallb printable items then ret items else throw
  | _ => throw
  end.

Definition ok (b : json) : Response := {| status := 200; body := b |}.

Definition fail (code : nat) (msg : string) : Response :=
  {| status := code; body := error msg |}.

Definition default_role : json := JString (str "Full Stack Developer").

Definition default_stack : json :=
  JArray [JString (str "React"); JString (str "Node.js")].

(** [POST /api/generate-questions] of [api/index.js]. *)
Definition generate_questions (req_body : json) : IO Response :=
  try_catch
    (role0 <- prop req_body "role" ;;
     let role := or_default role0 default_role in
     stack0 <- prop req_body "stack" ;;
     let stack := or_default stack0 default_stack in
     _ <- to_string (Some role) ;;
     items <- join stack ;;
     result <- generateContent (QuestionsPrompt role items) ;;
     let questions := extractJSON result in
     if negb (truthy (Some questions)) then throw
     else ret (ok (JObject [(str "questions", questions)])))
    (ret (fail 500 "Gemini question generation failed")).

(** [POST /api/generate-questions] of [backend/server.js]. *)
Definition generate_questions_backend (req_body : json) : IO Response :=
  try_catch
    (role0 <- prop req_body "role" ;;
     let role := or_default role0 default_role in
     stack0 <- prop req_body "stack" ;;
     let stack := or_default stack0 default_stack in
     _ <- to_string (Some role) ;;
     items <- join stack ;;
     result <- generateContent (QuestionsPrompt role items) ;;
     let questions := extractJSON result in
     if negb (truthy (Some questions))
     then ret (fail 500 "Failed to parse AI output")
     else ret (ok (JObject [(str "questions", questions)])))
    (ret (fail 500 "Gemini API call failed")).

(** [POST /api/final-summary] of [api/index.js]. *)
Definition final_summary (req_body : json) : IO Response :=
  try_catch
    (candidate <- prop req_body "candidate" ;;
     match candidate with
     | None => ret (fail 400 "Missing candidate data")
     | Some c =>
         if negb (truthy (Some c))
         then ret (fail 400 "Missing candidate data")
         else
           match get c (str "answers") with
           | None => ret (fail 400 "Missing candidate data")
           | Some answers =>
               if negb (truthy (Some answers))
               then ret (fail 400 "Missing candidate data")
               else
                 _ <- to_string (get c (str "name")) ;;
                 result <- generateContent
                             (SummaryPrompt (get c (str "name")) answers) ;;
                 let summary := extractJSON result in
                 if negb (truthy (Some summary)) then throw
                 else ret (ok summary)
           end
     end)
    (ret (fail 500 "Gemini summary failed")).

Definition unknown : json := JString (str "Unknown").

(** [POST /api/final-summary] of [backend/server.js]; the body is read as
    [req.body || {}] and the answers must be an array. *)
Definition final_summary_backend (req_body : json) : IO Response :=
  try_catch
    (let candidate := if truthy (Some req_body)
                      then get req_body (str "candidate") else None in
     match candidate with
     | None => ret (fail 400 "Missing candidate answers")
     | Some c =>
         if negb (truthy (Some c))
         then ret (fail 400 "Missing candidate answers")
         else
           match get c (str "answers") with
           | Some (JArray answers) =>
               let name := or_default (get c (str "name")) unknown in
               let email := or_default (get c (str "email")) unknown in
               let phone := or_default (get c (str "phone")) unknown in
               _ <- to_string (Some name) ;;
               _ <- to_string (Some email) ;;
               _ <- to_string (Some phone) ;;
               result <- generateContent
                           (FinalPrompt name email phone answers) ;;
               let finalEval := extractJSON result in
               if negb (truthy (Some finalEval))
               then ret (fail 500 "Failed to parse AI final summary output")
               else ret (ok finalEval)
           | _ => ret (fail 400 "Missing candidate answers")
           end
     end)
    (ret (fail 500 "Gemini final summary failed")).

(** A request served: the response, and the calls made to the model. *)
Definition serve (h : json -> IO Response) (model : Model) (req_body : json)
  : option Response * list Prompt :=
  h req_body model [].

End Routes.

(** ** The route [POST /api/parse-resume] *)

Module Upload.

Local Open Scope N_scope.

(** What the libraries answer for an uploaded file: the extension that
    [path.extname(req.file.originalname).toLowerCase()] gives; what
    [pdfParse] resolves with, as the [text] of its result, [None] when it
    rejects; the same for [mammoth.extractRawText] and the [value] of its
    result. *)
Record t : Type := {
  ext : text;
  pdf : option (option text);
  docx : option (option text)
}.

Inductive Op : Type := ReadFile | PdfParse | ExtractRawText | Unlink.

(** The temporary file that [multer] wrote for the upload, and the calls made
    on it. *)
Record Disk : Type := { on_disk : bool; ops : list Op }.

Definition FS (A : Type) : Type := Disk -> option A * Disk.

Definition ret {A} (x : A) : FS A := fun d => (Some x, d).

Definition bind {A B} (m : FS A) (f : A -> FS B) : FS B :=
  fun d =>
    match m d with
    | (Some x, d') => f x d'
    | (None, d') => (None, d')
    end.

Definition try_catch {A} (m : FS A) (handler : FS A) : FS A :=
  fun d =>
    match m d with
    | (Some x, d') => (Some x, d')
    | (None, d') => handler d'
    end.

(** [try { m } catch { }] with the outcome as a value. *)
Definition attempt {A} (m : FS A) : FS (option A) :=
  fun d => let '(r, d') := m d in (Some r, d').

Definition logged (o : Op) (d : Disk) : Disk :=
  {| on_disk := on_disk d; ops := ops d ++ [o] |}.

(** [fs.readFileSync(req.file.path)] throws when the file is not there. *)
Definition readFileSync : FS unit :=
  fun d => ((if on_disk d then Some tt else None), logged ReadFile d).

(** [await pdfParse(data)] *)
Definition pdfParse (u : t) : FS (option text) :=
  fun d => (pdf u, logged PdfParse d).

(** [await mammoth.extractRawText({ path })] reads the file itself. *)
Definition extractRawText (u : t) : FS (option text) :=
  fun d => ((if on_disk d then docx u else None), logged ExtractRawText d).

(** [fs.unlinkSync(req.file.path)] throws when the file is not there. *)
Definition unlinkSync : FS unit :=
  fun d => ((if on_disk d then Some tt else None),
            {| on_disk := false; ops := ops d ++ [Unlink] |}).

Declare Scope upload_scope.
Notation "x <- m ;; f" := (bind m (fun x => f))
  (at level 61, m at next level, right associativity) : upload_scope.
Local Open Scope upload_scope.

(** [x || ""] *)
Definition or_empty (x : option text) : text :=
  match x with Some s => s | None => [] end.

Definition nullable (x : option text) : json :=
  match x with Some s => JString s | None => JNull end.

(** [{ name, email, phone, text }] *)
Definition fields (text : text) : json :=
  JObject [(str "name", nullable (extractName text));
           (str "email", nullable (extractEmail text));
           (str "phone", nullable (extractPhone text));
           (str "text", JString text)].

(** The handler of [api/index.js]; [req_file] is [req.file], [None] when the
    form had no file. *)
Definition parse_resume (req_file : option t) : FS Response :=
  try_catch
    (match req_file with
     | None => ret (Routes.fail 400 "No file uploaded")
     | Some u =>
         let extracted text :=
           _ <- unlinkSync ;; ret (Routes.ok (fields text)) in
         if text_eqb (ext u) (str ".pdf") then
           _ <- readFileSync ;;
           pdf <- pdfParse u ;;
           extracted (or_empty pdf)
         else if text_eqb (ext u) (str ".docx") then
           result <- extractRawText u ;;
           extracted (or_empty result)
         else
           _ <- unlinkSync ;;
           ret (Routes.fail 400 "Only PDF or DOCX allowed")
     end)
    (ret (Routes.fail 500 "Failed to parse resume")).

(** The handler of [backend/server.js]: a PDF that cannot be read is
    answered in place, and a failure of the last removal is ignored. *)
Definition parse_resume_backend (req_file : option t) : FS Response :=
  try_catch
    (match req_file with
     | None => ret (Routes.fail 400 "No file uploaded")
     | Some u =>
         let extracted text :=
           _ <- attempt unlinkSync ;; ret (Routes.ok (fields text)) in
         if text_eqb (ext u) (str ".pdf") then
           parsed <- attempt (_ <- readFileSync ;; pdfParse u) ;;
           match parsed with
           | Some pdf => extracted (or_empty pdf)
           | None =>
               ret (Routes.fail 400 "Failed to parse PDF. Try another file.")
           end
         else if text_eqb (ext u) (str ".docx") then
           result <- extractRawText u ;;
           extracted (or_empty result)
         else
           _ <- unlinkSync ;;
           ret (Routes.fail 400 "Only PDF or DOCX allowed")
     end)
    (ret (Routes.fail 500 "Failed to parse resume")).

(** The upload as the handler finds it: written to the disk, untouched. *)
Definition saved : Disk := {| on_disk := true; ops := [] |}.

End Upload.

(* ================================================================== *)
(** * The page when it loads                                           *)
(* ================================================================== *)

Module Mount.

(** The candidate the effect of the first render offers to resume:
    [candidates.find(c => c.answers.length < (c.questionsLength || 0)
    && !c.finalScore)]. *)
Definition unfinished (cs : list Cand.t) : option Cand.t :=
  find (fun c => (length (Cand.answers c) <? Cand.questionsLength c)%nat
                 && negb (truthy (Cand.finalScore c)))
       cs.

(** The [onOk] of the confirmation: [handleOpenCandidate(unfinished.id,
    true)] on the page as it loaded. *)
Definition welcome_back (stored : list Cand.t)
           (fetched : option (list Question.t)) (now : Z) : App :=
  match unfinished stored with
  | Some c => handleOpenCandidate (Cand.id c) fetched now (init stored)
  | None => init stored
  end.

End Mount.
Import Mount.

(* ================================================================== *)
(** * What every state of the page satisfies                           *)
(* ================================================================== *)

Module Invariants.

Local Open Scope Z_scope.

(** An answer without its grade. *)
Definition ungraded (x : Answer.t) : Answer.t := with_score None None x.

(** [c'] holds the answers of [c], in their order and with any grade, and
    maybe more answers after them. *)
Definition keeps (c c' : Cand.t) : Prop :=
  exists more,
    map ungraded (Cand.answers c') = map ungraded (Cand.answers c) ++ more.

(** [cs'] holds the candidates of [cs], in their order, each with the
    answers it had, and maybe more candidates after them. *)
Definition grows (cs cs' : list Cand.t) : Prop :=
  exists old new, cs' = old ++ new /\ Forall2 keeps cs old.

(** A list of questions is empty or holds six. *)
Definition six_or_none (qs : list Question.t) : Prop :=
  qs = [] \/ length qs = 6%nat.

(** A timer does not hold a negative remaining time. *)
Definition timer_ok (tm : option Timer.t) : Prop :=
  match tm with
  | Some t => match Timer.remaining t with Some r => 0 <= r | None => True end
  | None => True
  end.

Definition stored_ok (c : Cand.t) : Prop := timer_ok (Cand.timer c).

(** The time recorded for an answer is no more than the budget of its
    question. *)
Definition answer_ok (x : Answer.t) : Prop :=
  Answer.timeTakenSeconds x <= difficultySeconds (Answer.difficulty x).

Definition cand_ok (c : Cand.t) : Prop :=
  six_or_none (Cand.questions c)
  /\ Cand.questionsLength c = length (Cand.questions c)
  /\ stored_ok c
  /\ Forall answer_ok (Cand.answers c).

Definition view_ok (v : View.t) : Prop :=
  six_or_none (View.questions v)
  /\ (View.currentIndex v < 6)%nat
  /\ 0 <= View.remaining v
  /\ Forall cand_ok (View.candidates v).

(** The page, the closure of the interval and the closures of the pending
    requests are all in order. *)
Definition app_ok (a : App) : Prop :=
  view_ok (view a)
  /\ match interval a with Some cl => view_ok cl | None => True end
  /\ Forall view_ok (grading a)
  /\ Forall view_ok (summarizing a).

End Invariants.
Import Invariants.

(* ================================================================== *)
(** * Facts about the regular expressions                              *)
(* ================================================================== *)

Module RegexFacts.

Lemma matched_app (w rest : text) : matched (w ++ rest) rest = w.
Proof.
  unfold matched. rewrite length_app.
  replace (length w + length rest - length rest) with (length w) by lia.
  rewrite firstn_app, firstn_all, Nat.sub_diag. simpl. apply app_nil_r.
Qed.

Lemma more_within hi n : within hi (S n) -> more hi = true /\ within (dec hi) n.
Proof.
  destruct hi as [[|h]|]; simpl; intros H; try lia; split; auto; lia.
Qed.

Lemma within_dec hi n : more hi = true -> within (dec hi) n -> within hi (S n).
Proof.
  destruct hi as [[|h]|]; simpl; intros Hm H; try discriminate; auto; lia.
Qed.

(** Whatever [rep] returns comes from the continuation, after a run of the
    class whose length the quantifier allows. *)
Lemma rep_sound A (p : char -> bool) (k : text -> option A) :
  forall s lo hi x,
    rep p lo hi s k = Some x ->
    exists w rest, s = w ++ rest /\ Forall (fun c => p c = true) w /\
                   lo <= length w /\ within hi (length w) /\ k rest = Some x.
Proof.
  assert (Hstop : forall s lo hi x,
             match lo with O => k s | S _ => None end = Some x ->
             exists w rest, s = w ++ rest /\ Forall (fun c => p c = true) w /\
                            lo <= length w /\ within hi (length w) /\
                            k rest = Some x).
  { intros s lo hi x H. destruct lo; [|discriminate].
    exists [], s. repeat split; auto. destruct hi; simpl; lia. }
  induction s as [|c s IH]; intros lo hi x H; simpl in H.
  - now apply Hstop.
  - destruct (p c && more hi) eqn:E; [|now apply Hstop].
    destruct (rep p (pred lo) (dec hi) s k) eqn:R; [|now apply Hstop].
    inversion H; subst a; clear H.
    apply andb_true_iff in E as [Hp Hm].
    destruct (IH _ _ _ R) as (w & rest & -> & Hw & Hlo & Hhi & Hk).
    exists (c :: w), rest. simpl. repeat split; auto.
    + lia.
    + now apply within_dec.
Qed.

(** [rep] succeeds whenever the continuation accepts what some allowed run
    leaves. *)
Lemma rep_complete A (p : char -> bool) (k : text -> option A) :
  forall w lo hi rest x,
    Forall (fun c => p c = true) w -> lo <= length w -> within hi (length w) ->
    k rest = Some x ->
    exists y, rep p lo hi (w ++ rest) k = Some y.
Proof.
  induction w as [|c w IH]; intros lo hi rest x Hw Hlo Hhi Hk; simpl in *.
  - assert (lo = 0) by lia. subst lo.
    destruct rest as [|d rest]; simpl; [eauto|].
    destruct (p d && more hi); [|eauto].
    destruct (rep p 0 (dec hi) rest k); eauto.
  - inversion Hw; subst.
    apply more_within in Hhi as [Hm Hd]. rewrite H1, Hm. simpl.
    destruct (IH (pred lo) (dec hi) rest x) as [y Hy]; auto; [lia|].
    rewrite Hy. eauto.
Qed.

Lemma run_sound A : forall r s (k : text -> option A) x,
    run r s k = Some x ->
    exists w rest, s = w ++ rest /\ Matches r w /\ k rest = Some x.
Proof.
  induction r as [p|p lo hi|r1 IH1 r2 IH2|r1 IH1 r2 IH2|r IH];
    intros s k x H; simpl in H.
  - destruct s as [|c s]; [discriminate|].
    destruct (p c) eqn:E; [|discriminate].
    exists [c], s. repeat split; auto. now constructor.
  - destruct (rep_sound _ _ _ _ _ H) as (w & rest & -> & Hw & Hlo & Hhi & Hk).
    exists w, rest. repeat split; auto. now constructor.
  - destruct (IH1 _ _ _ H) as (w1 & rest1 & -> & M1 & H2).
    destruct (IH2 _ _ _ H2) as (w2 & rest & -> & M2 & Hk).
    exists (w1 ++ w2), rest. rewrite <- app_assoc. repeat split; auto.
    now constructor.
  - destruct (run r1 s k) eqn:E1.
    + inversion H; subst a.
      destruct (IH1 _ _ _ E1) as (w & rest & -> & M & Hk).
      exists w, rest. repeat split; auto. now apply MAltL.
    + destruct (IH2 _ _ _ H) as (w & rest & -> & M & Hk).
      exists w, rest. repeat split; auto. now apply MAltR.
  - destruct (run r s k) eqn:E1.
    + inversion H; subst a.
      destruct (IH _ _ _ E1) as (w & rest & -> & M & Hk).
      exists w, rest. repeat split; auto. now apply MOptSome.
    + exists [], s. repeat split; auto. apply MOptNone.
Qed.

Lemma run_complete A : forall r w,
    Matches r w ->
    forall rest (k : text -> option A) x,
      k rest = Some x -> exists y, run r (w ++ rest) k = Some y.
Proof.
  induction 1; intros rest k x Hk; simpl.
  - rewrite H. eauto.
  - eapply rep_complete; eauto.
  - rewrite <- app_assoc.
    destruct (IHMatches2 rest k x Hk) as [y Hy].
    eapply IHMatches1. exact Hy.
  - destruct (IHMatches rest k x Hk) as [y ->]. eauto.
  - destruct (run r1 (w ++ rest) k); eauto.
  - destruct (run r rest k); eauto.
  - destruct (IHMatches rest k x Hk) as [y ->]. eauto.
Qed.

Lemma match_here_sound r s rest :
  match_here r s = Some rest -> exists w, s = w ++ rest /\ Matches r w.
Proof.
  intros H. destruct (run_sound _ _ _ H) as (w & rest' & -> & M & E).
  inversion E; subst. eauto.
Qed.

Lemma match_here_complete r w rest :
  Matches r w -> exists rest', match_here r (w ++ rest) = Some rest'.
Proof.
  intros M. eapply run_complete; eauto.
Qed.

(** No match anywhere: [exec] gives nothing, and conversely. *)
Lemma exec_from_none r : forall s i,
    exec_from r i s = None <->
    (forall pre w post, s = pre ++ w ++ post -> ~ Matches r w).
Proof.
  induction s as [|c s IH]; intros i; simpl.
  - destruct (match_here r []) as [rest|] eqn:E.
    + split; [discriminate|]. intros H.
      destruct (match_here_sound _ _ E) as (w & Hs & M).
      exfalso. apply (H [] w rest); auto.
    + split; auto. intros _ pre w post Hs M.
      destruct pre; [|discriminate]. destruct w; [|discriminate].
      destruct post; [|discriminate].
      destruct (match_here_complete [] M) as [rest' E']. simpl in E'.
      congruence.
  - destruct (match_here r (c :: s)) as [rest|] eqn:E.
    + split; [discriminate|]. intros H.
      destruct (match_here_sound _ _ E) as (w & Hs & M).
      exfalso. apply (H [] w rest); auto.
    + rewrite IH. split.
      * intros H pre w post Hs M. destruct pre as [|d pre].
        -- simpl in Hs. destruct (match_here_complete post M) as [rest' E'].
           rewrite <- Hs in E'. congruence.
        -- simpl in Hs. inversion Hs; subst. eapply H; eauto.
      * intros H pre w post Hs M. apply (H (c :: pre) w post); auto.
        simpl. now rewrite Hs.
Qed.

(** What [exec] finds is a match, at the leftmost position that has one. *)
Lemma exec_from_some r : forall s i j m,
    exec_from r i s = Some (j, m) ->
    exists pre post,
      s = pre ++ m ++ post /\ j = i + length pre /\ Matches r m /\
      match_here r (m ++ post) = Some post /\
      (forall p1 p2, pre = p1 ++ p2 -> p2 <> [] ->
                     match_here r (p2 ++ m ++ post) = None).
Proof.
  assert (Hhere : forall s i j m rest,
             match_here r s = Some rest -> Some (i, matched s rest) = Some (j, m) ->
             exists pre post,
               s = pre ++ m ++ post /\ j = i + length pre /\ Matches r m /\
               match_here r (m ++ post) = Some post /\
               (forall p1 p2, pre = p1 ++ p2 -> p2 <> [] ->
                              match_here r (p2 ++ m ++ post) = None)).
  { intros s i j m rest E H. inversion H; subst.
    destruct (match_here_sound _ _ E) as (w & -> & M).
    rewrite matched_app. exists [], rest. simpl. repeat split; auto.
    intros p1 p2 Hp Hn. destruct p1; destruct p2; try discriminate.
    congruence. }
  induction s as [|c s IH]; intros i j m H; simpl in H.
  - destruct (match_here r []) eqn:E; [|discriminate]. eapply Hhere; eauto.
  - destruct (match_here r (c :: s)) eqn:E; [eapply Hhere; eauto|].
    destruct (IH _ _ _ H) as (pre & post & -> & -> & M & Hm & Hpre).
    exists (c :: pre), post. simpl. repeat split; auto.
    intros p1 p2 Hp Hn. destruct p1 as [|d p1]; simpl in Hp.
    + subst p2. exact E.
    + inversion Hp; subst. eapply Hpre; eauto.
Qed.

(** The search, given the place of the first match. *)
Lemma exec_from_at r m post : forall pre i,
    match_here r (m ++ post) = Some post ->
    (forall p1 p2, pre = p1 ++ p2 -> p2 <> [] ->
                   match_here r (p2 ++ m ++ post) = None) ->
    exec_from r i (pre ++ m ++ post) = Some (i + length pre, m).
Proof.
  induction pre as [|c pre IH]; intros i Hm Hpre; simpl.
  - assert (E : exec_from r i (m ++ post) = Some (i, matched (m ++ post) post)).
    { destruct (m ++ post); simpl; simpl in Hm; now rewrite Hm. }
    rewrite E, matched_app. do 2 f_equal. lia.
  - pose proof (Hpre [] (c :: pre) eq_refl ltac:(discriminate)) as E.
    simpl in E. rewrite E.
    rewrite IH; auto.
    + do 2 f_equal. lia.
    + intros p1 p2 -> Hn. apply (Hpre (c :: p1) p2); auto.
Qed.

Lemma test_true r s :
  test r s = true <-> exists w, occurs_in w s /\ Matches r w.
Proof.
  unfold test, exec. destruct (exec_from r 0 s) as [[j m]|] eqn:E.
  - split; auto. intros _.
    destruct (exec_from_some _ _ _ E) as (pre & post & -> & _ & M & _).
    exists m. split; auto. now exists pre, post.
  - split; [discriminate|]. intros (w & (pre & post & ->) & M).
    exfalso. eapply (proj1 (exec_from_none r _ 0)); eauto.
Qed.

Lemma match0_none r s :
  match0 r s = None <-> (forall w, occurs_in w s -> ~ Matches r w).
Proof.
  unfold match0, exec. destruct (exec_from r 0 s) as [[j m]|] eqn:E; simpl.
  - split; [discriminate|]. intros H.
    destruct (exec_from_some _ _ _ E) as (pre & post & -> & _ & M & _).
    exfalso. apply (H m); auto. now exists pre, post.
  - split; auto. intros _ w (pre & post & ->) M.
    eapply (proj1 (exec_from_none r _ 0)); eauto.
Qed.

Lemma match0_some r s m :
  match0 r s = Some m -> occurs_in m s /\ Matches r m.
Proof.
  unfold match0, exec. destruct (exec_from r 0 s) as [[j m']|] eqn:E; simpl;
    [|discriminate].
  intros H; inversion H; subst.
  destruct (exec_from_some _ _ _ E) as (pre & post & -> & _ & M & _).
  split; auto. now exists pre, post.
Qed.

(** The greedy quantifier gives back characters one at a time, from the
    longest run down: when the continuation refuses everything longer than
    [w1] and accepts after [w1], that is the answer. *)
Lemma rep_greedy A (p : char -> bool) (k : text -> option A) :
  forall w1 lo w2 rest x,
    all p w1 -> lo <= length w1 -> all p w2 ->
    (forall c r, rest = c :: r -> p c = false) ->
    k (w2 ++ rest) = Some x ->
    (forall u v, w2 = u ++ v -> u <> [] -> k (v ++ rest) = None) ->
    rep p lo Unbounded (w1 ++ w2 ++ rest) k = Some x.
Proof.
  assert (Hnone : forall w rest lo,
             all p w -> (forall c r, rest = c :: r -> p c = false) ->
             (forall u v, w = u ++ v -> k (v ++ rest) = None) ->
             rep p lo Unbounded (w ++ rest) k = None).
  { intros w rest lo Hw Hrest Hk.
    destruct (rep p lo Unbounded (w ++ rest) k) as [y|] eqn:E; auto.
    exfalso.
    destruct (rep_sound _ _ _ _ _ E) as (w0 & rest0 & Heq & Hw0 & _ & _ & Hy).
    apply app_eq_app in Heq as [l [[Hw1 Hr]|[Hw1 Hr]]].
    - subst. rewrite (Hk w0 l eq_refl) in Hy. discriminate.
    - destruct l as [|c l].
      + simpl in Hr. subst rest0.
        pose proof (Hk w [] (eq_sym (app_nil_r w))) as Hn. simpl in Hn.
        congruence.
      + subst w0. apply Forall_app in Hw0 as [_ Hl]. inversion Hl; subst.
        rewrite (Hrest c (l ++ rest0) eq_refl) in H1. discriminate. }
  induction w1 as [|c w1 IH]; intros lo w2 rest x H1 Hlo H2 Hrest Hk Hlonger.
  - simpl in *. assert (lo = 0) by lia. subst lo.
    destruct w2 as [|c w2]; simpl in *.
    + destruct rest as [|c r]; simpl; auto.
      now rewrite (Hrest c r eq_refl).
    + inversion H2; subst. rewrite H3. simpl.
      rewrite Hnone; auto.
      intros u v -> . apply (Hlonger (c :: u) v); [reflexivity|discriminate].
  - inversion H1; subst. simpl. rewrite H3. simpl.
    simpl in Hlo. rewrite (IH (pred lo) w2 rest x); auto. lia.
Qed.

Lemma cls_matches p w : Matches (Cls p) w <-> exists c, w = [c] /\ p c = true.
Proof.
  split.
  - intros M. inversion M; subst. eauto.
  - intros (c & -> & H). now constructor.
Qed.

Lemma seq_matches r1 r2 w :
  Matches (Seq r1 r2) w <->
  exists w1 w2, w = w1 ++ w2 /\ Matches r1 w1 /\ Matches r2 w2.
Proof.
  split.
  - intros M. inversion M; subst. eauto.
  - intros (w1 & w2 & -> & M1 & M2). now constructor.
Qed.

Lemma alt_matches r1 r2 w :
  Matches (Alt r1 r2) w <-> Matches r1 w \/ Matches r2 w.
Proof.
  split.
  - intros M. inversion M; subst; auto.
  - intros [M|M]; [now apply MAltL|now apply MAltR].
Qed.

End RegexFacts.

(* ================================================================== *)
(** * The helpers on small inputs                                      *)
(* ================================================================== *)

Module Examples.

Example trim_both_ends : trim (str "  Ada Lovelace	 ") = str "Ada Lovelace".
Proof. reflexivity. Qed.

Example split_on_newlines :
  split newline_re (str "a" ++ [13; 10]%N ++ str "b" ++ [10]%N ++ [10]%N
                    ++ str "c" ++ [13]%N ++ str "d")
  = [str "a"; str "b"; []; str "c" ++ [13]%N ++ str "d"].
Proof. reflexivity. Qed.

Example split_on_spaces :
  split_char 32 [] (str "John  Smith") = [str "John"; []; str "Smith"].
Proof. reflexivity. Qed.

Example email_in_a_sentence :
  extractEmail (str "Contact: john.doe+cv@mail.example.co.uk.")
  = Some (str "john.doe+cv@mail.example.co.uk").
Proof. reflexivity. Qed.

Example email_takes_the_first :
  extractEmail (str "a@b.cc d@e.ff") = Some (str "a@b.cc").
Proof. reflexivity. Qed.

Example phone_with_prefix :
  extractPhone (str "tel +91 9876543210 x") = Some (str "+91 9876543210").
Proof. reflexivity. Qed.

Example phone_grouped_with_spaces :
  extractPhone (str "call 555 123 4567") = Some (str "555 123 4567").
Proof. reflexivity. Qed.

Example phone_too_short : extractPhone (str "call 555-1234 now") = None.
Proof. reflexivity. Qed.

Example name_skips_the_heading :
  extractName (str "RESUME" ++ [10]%N ++ [10]%N ++ str "  Jane Doe  "
               ++ [13; 10]%N ++ str "jane@example.com")
  = Some (str "Jane Doe").
Proof. reflexivity. Qed.

Example name_wants_a_letter : extractName (str "12345") = None.
Proof. reflexivity. Qed.

Example parse_nested :
  JSON_parse (str " [1, 2.50e-3, true, null, [], {}, [[0]] ] ")
  = Some (JArray [JNumber 1 0; JNumber 250 (-5); JBool true; JNull;
                  JArray []; JObject []; JArray [JArray [JNumber 0 0]]]).
Proof. reflexivity. Qed.

Example parse_escapes :
  JSON_parse (dq :: str "a\nA" ++ [dq]) = Some (JString (97 :: 10 :: [65]))%N.
Proof. reflexivity. Qed.

Example parse_refuses :
  map JSON_parse [str "01"; str "[1,]"; str "1."; str "{a:1}"; str "[1] x"; []]
  = [None; None; None; None; None; None].
Proof. reflexivity. Qed.

Example salvage_fenced_reply :
  extractJSON (str "```json" ++ [10]%N ++ str "[1, 2]" ++ [10]%N ++ str "```")
  = JArray [JNumber 1 0; JNumber 2 0].
Proof. reflexivity. Qed.

Example underflow_is_zero :
  truthy (Some (JNumber 1 (-400))) = false /\ truthy (Some (JNumber 5 (-324))) = true.
Proof. split; vm_compute; reflexivity. Qed.

Example graded :
  serve grade_answer Scenario.grader Scenario.body_ok
  = (Some {| status := 200;
             body := JObject [(str "score", JNumber 7 0);
                              (str "feedback", JString (str "ok"))] |},
     [{| p_question := Some Scenario.asked;
         p_answer := Some (JString (str "A function and its scope")) |}]).
Proof. reflexivity. Qed.

Example model_down :
  serve grade_answer (fun _ => None) Scenario.body_ok
  = (Some {| status := 500; body := error "Gemini grading failed" |},
     [{| p_question := Some Scenario.asked;
         p_answer := Some (JString (str "A function and its scope")) |}]).
Proof. reflexivity. Qed.

Example first_question_starts :
  let a := Scenario.after Scenario.started in
  (View.currentIndex (view a), View.remaining (view a),
   is_some (interval a), length (View.questions (view a)))
  = (0%nat, 20%Z, true, 6%nat).
Proof. vm_compute. reflexivity. Qed.

Example three_ticks :
  View.remaining
    (view (Scenario.after (Scenario.started ++ Scenario.ticks 3 2000)))
  = 17%Z.
Proof. vm_compute. reflexivity. Qed.

End Examples.

(* ================================================================== *)
(** * The phone extractor                                              *)
(* ================================================================== *)

Module PhoneFacts.
Import RegexFacts.

Lemma digits_n_matches n w :
  Matches (digits_n n) w <-> length w = n /\ all is_digit w.
Proof.
  unfold digits_n. split.
  - intros M. inversion M; subst. simpl in *. split; [lia|assumption].
  - intros [L H]. constructor; simpl; auto; lia.
Qed.

Lemma grouped_matches w : Matches phone_grouped w <-> Grouped w.
Proof.
  unfold phone_grouped, Grouped. split.
  - intros M.
    apply seq_matches in M as (a & w1 & -> & Ma & M).
    apply seq_matches in M as (x1 & w2 & -> & Mx1 & M).
    apply seq_matches in M as (b & w3 & -> & Mb & M).
    apply seq_matches in M as (x2 & c & -> & Mx2 & Mc).
    apply cls_matches in Mx1 as (s1 & -> & Hs1).
    apply cls_matches in Mx2 as (s2 & -> & Hs2).
    apply digits_n_matches in Ma as [La Ha].
    apply digits_n_matches in Mb as [Lb Hb].
    apply digits_n_matches in Mc as [Lc Hc].
    exists a, s1, b, s2, c. simpl. repeat split; auto.
  - intros (a & s1 & b & s2 & c & -> & La & Ha & Hs1 & Lb & Hb & Hs2 & Lc & Hc).
    apply seq_matches. exists a, (s1 :: b ++ s2 :: c). split; auto.
    split; [now apply digits_n_matches|].
    apply seq_matches. exists [s1], (b ++ s2 :: c). split; auto.
    split; [apply cls_matches; eauto|].
    apply seq_matches. exists b, (s2 :: c). split; auto.
    split; [now apply digits_n_matches|].
    apply seq_matches. exists [s2], c. split; auto.
    split; [apply cls_matches; eauto|now apply digits_n_matches].
Qed.

Lemma core_matches w :
  Matches (Alt (digits_n 10) phone_grouped) w <-> PhoneLike w.
Proof.
  rewrite alt_matches, digits_n_matches, grouped_matches. reflexivity.
Qed.

(** A match of the whole pattern is an optional prefix and a core. *)
Lemma phone_matches w :
  Matches phone_re w ->
  exists pfx core, w = pfx ++ core /\ PhoneLike core.
Proof.
  unfold phone_re. intros M.
  apply seq_matches in M as (pfx & core & -> & _ & M).
  apply core_matches in M. eauto.
Qed.

Lemma phone_like_matches w : PhoneLike w -> Matches phone_re w.
Proof.
  intros H. unfold phone_re. apply seq_matches. exists [], w.
  split; auto. split; [apply MOptNone|now apply core_matches].
Qed.

(** C7, as the code has it.  A text that holds ten consecutive digits, or
    three digits, a separator, three digits, a separator and four digits,
    where a separator is a hyphen or a white space character, makes
    [extractPhone] return a match: a part of the text made of an optional
    prefix and such a number.  A text that holds neither makes it return
    [null]. *)
Theorem extractPhone_finds_phone_numbers (t : text) :
  ((exists w, occurs_in w t /\ PhoneLike w) ->
   exists m, extractPhone t = Some m /\ occurs_in m t /\
             exists pfx core, m = pfx ++ core /\ PhoneLike core)
  /\
  ((forall w, occurs_in w t -> ~ PhoneLike w) -> extractPhone t = None).
Proof.
  unfold extractPhone. split.
  - intros (w & Hocc & Hw).
    destruct (match0 phone_re t) as [m|] eqn:E.
    + apply match0_some in E as [Hm M].
      exists m. repeat split; auto. now apply phone_matches.
    + exfalso. apply (proj1 (match0_none phone_re t) E w Hocc).
      now apply phone_like_matches.
  - intros H. apply match0_none. intros w (pre & post & ->) M.
    apply phone_matches in M as (pfx & core & -> & Hc).
    apply (H core); auto.
    exists (pre ++ pfx), post. now rewrite <- !app_assoc.
Qed.

(** The theorem at work: a grouped number inside a sentence is found, and a
    seven-digit number is not. *)
Lemma extractPhone_finds_phone_numbers_witness :
  (exists m, extractPhone (str "call 555-123-4567 now") = Some m /\
             occurs_in m (str "call 555-123-4567 now") /\
             exists pfx core, m = pfx ++ core /\ PhoneLike core)
  /\ extractPhone (str "call 555-1234 now") = None.
Proof.
  split.
  - apply (proj1 (extractPhone_finds_phone_numbers _)).
    exists (str "555-123-4567"). split.
    + exists (str "call "), (str " now"). reflexivity.
    + right. exists (str "555"), 45%N, (str "123"), 45%N, (str "4567").
      repeat split; repeat constructor.
  - apply (proj2 (extractPhone_finds_phone_numbers _)).
    intros w Hocc Hw.
    destruct (proj1 (extractPhone_finds_phone_numbers _)
                    (ex_intro _ w (conj Hocc Hw))) as (m & E & _).
    vm_compute in E. discriminate E.
Defined.

(** C7 as it is worded fails: a number grouped with spaces is in a text
    whose runs of digits are all shorter than ten and that holds no
    [ddd-ddd-dddd] group, and it is returned; so is a group cut out of runs
    of four, three and five digits. *)
Lemma extractPhone_takes_spaced_groups :
  spec_phone_free (str "call 555 123 4567") = true
  /\ extractPhone (str "call 555 123 4567") = Some (str "555 123 4567")
  /\ longest_digit_run 0 0 (str "ref 1234-567-89012") = 5
  /\ extractPhone (str "ref 1234-567-89012") = Some (str "1234-567-8901").
Proof. repeat split; reflexivity. Qed.

End PhoneFacts.

(* ================================================================== *)
(** * The e-mail extractor                                             *)
(* ================================================================== *)

Module EmailFacts.
Import RegexFacts.

Lemma email_matches w : Matches email_re w <-> EmailLike w.
Proof.
  unfold email_re, EmailLike. split.
  - intros M.
    apply seq_matches in M as (loc & w1 & -> & Ml & M).
    apply seq_matches in M as (a & w2 & -> & Ma & M).
    apply seq_matches in M as (dom & w3 & -> & Md & M).
    apply seq_matches in M as (d & tld & -> & Mp & Mt).
    apply cls_matches in Ma as (c1 & -> & H1).
    apply cls_matches in Mp as (c2 & -> & H2).
    apply N.eqb_eq in H1, H2. subst.
    inversion Ml; subst. inversion Md; subst. inversion Mt; subst.
    exists loc, dom, tld. simpl. repeat split; auto.
    + intros ->. simpl in *. lia.
    + intros ->. simpl in *. lia.
  - intros (loc & dom & tld & -> & Hl & Al & Hd & Ad & Lt & At).
    apply seq_matches. exists loc, (64%N :: dom ++ 46%N :: tld). split; auto.
    split.
    { constructor; simpl; auto. destruct loc; simpl; [congruence|lia]. }
    apply seq_matches. exists [64%N], (dom ++ 46%N :: tld). split; auto.
    split; [apply cls_matches; eauto|].
    apply seq_matches. exists dom, (46%N :: tld). split; auto.
    split.
    { constructor; simpl; auto. destruct dom; simpl; [congruence|lia]. }
    apply seq_matches. exists [46%N], tld. split; auto.
    split; [apply cls_matches; eauto|].
    constructor; simpl; auto.
Qed.

Lemma lower_is_domain c : is_lower c = true -> is_domain c = true.
Proof. intros H. unfold is_domain. now rewrite H. Qed.

Lemma lower_not_point c : is_lower c = true -> is_char 46 c = false.
Proof.
  unfold is_lower, between, is_char. intros H.
  apply andb_true_iff in H as [H _]. apply N.leb_le in H.
  apply N.eqb_neq. lia.
Qed.

Lemma not_domain_not_point c : is_domain c = false -> is_char 46 c = false.
Proof.
  unfold is_domain. intros H.
  repeat (apply orb_false_iff in H as [H ?]). auto.
Qed.

Lemma not_domain_not_lower c : is_domain c = false -> is_lower c = false.
Proof.
  unfold is_domain. intros H.
  repeat (apply orb_false_iff in H as [H ?]). auto.
Qed.

(** The greedy quantifier answers with the longest run that the rest of the
    pattern accepts. *)
Lemma rep_longest A (p : char -> bool) (k : text -> option A) :
  forall s lo x,
    rep p lo Unbounded s k = Some x ->
    exists w rest,
      s = w ++ rest /\ all p w /\ lo <= length w /\ k rest = Some x /\
      (forall w' rest', s = w' ++ rest' -> all p w' ->
                        length w < length w' -> k rest' = None).
Proof.
  assert (Hstop : forall s lo x,
             match lo with O => k s | S _ => None end = Some x ->
             (forall w' rest', s = w' ++ rest' -> all p w' ->
                               0 < length w' -> k rest' = None) ->
             exists w rest,
               s = w ++ rest /\ all p w /\ lo <= length w /\ k rest = Some x /\
               (forall w' rest', s = w' ++ rest' -> all p w' ->
                                 length w < length w' -> k rest' = None)).
  { intros s lo x H Hmax. destruct lo; [|discriminate].
    exists [], s. repeat split; auto. constructor. }
  induction s as [|c s IH]; intros lo x H; simpl in H.
  - apply Hstop; auto.
    intros w' rest' E _ L. destruct w'; [simpl in L; lia|discriminate].
  - destruct (p c) eqn:Pc; simpl in H.
    + destruct (rep p (pred lo) Unbounded s k) as [y|] eqn:E.
      * inversion H; subst y. clear H.
        destruct (IH _ _ E) as (w & rest & -> & Hw & Hlo & Hk & Hmax).
        exists (c :: w), rest. split; [reflexivity|].
        split; [now constructor|]. split; [simpl; lia|]. split; [exact Hk|].
        intros w' rest' Es Hw' L.
        destruct w' as [|d w']; [simpl in L; lia|].
        simpl in Es. inversion Es; subst d.
        inversion Hw'; subst.
        apply (Hmax w' rest'); auto. simpl in L. lia.
      * apply Hstop; auto.
        intros w' rest' Es Hw' L.
        destruct w' as [|d w']; [simpl in L; lia|].
        simpl in Es. inversion Es; subst. inversion Hw'; subst.
        destruct (k rest') as [y|] eqn:Ek; auto.
        destruct (@rep_complete A p k w' (pred lo) Unbounded rest' y)
          as [z Hz]; auto; [|simpl; auto|congruence].
        destruct lo; [simpl; lia|discriminate H].
    + apply Hstop; auto.
      intros w' rest' Es Hw' L.
      destruct w' as [|d w']; [simpl in L; lia|].
      simpl in Es. inversion Es; subst. inversion Hw'; subst. congruence.
Qed.

(** A text is a run of a class and a rest that does not start in it. *)
Lemma run_of_class (p : char -> bool) : forall s : text,
    exists u v, s = u ++ v /\ all p u /\
                (forall c r, v = c :: r -> p c = false).
Proof.
  induction s as [|c s (u & v & -> & Hu & Hv)].
  - exists [], []. repeat split; [constructor|discriminate].
  - destruct (p c) eqn:E.
    + exists (c :: u), v. repeat split; auto. now constructor.
    + exists [], (c :: u ++ v). repeat split; [constructor|].
      intros d r H. now inversion H; subst.
Qed.

(** Two texts that agree start with the same run before the first
    character outside a class. *)
Lemma same_run (p : char -> bool) (x : char) : forall a b r r' : text,
    all p a -> all p b -> p x = false ->
    a ++ x :: r = b ++ x :: r' -> a = b /\ r = r'.
Proof.
  induction a as [|c a IH]; intros [|d b] r r' Ha Hb Hx E; simpl in E.
  - inversion E. auto.
  - inversion E; subst. inversion Hb; subst. congruence.
  - inversion E; subst. inversion Ha; subst. congruence.
  - inversion E; subst. inversion Ha; subst. inversion Hb; subst.
    destruct (IH b r r') as [-> ->]; auto.
Qed.

Lemma point_is_domain : is_domain 46%N = true.
Proof. reflexivity. Qed.

Lemma email_like_ends_lower w :
  EmailLike w -> exists w' c, w = w' ++ [c] /\ is_lower c = true.
Proof.
  intros (loc & dom & tld & -> & _ & _ & _ & _ & Lt & At).
  assert (Hne : tld <> []) by (intros ->; simpl in Lt; lia).
  destruct (exists_last Hne) as (t' & c & ->).
  apply Forall_app in At as [_ Ac]. inversion Ac; subst.
  exists (loc ++ 64%N :: dom ++ 46%N :: t'), c. split; auto.
  rewrite <- app_assoc. simpl. now rewrite <- app_assoc.
Qed.

(** The rest of the pattern after the domain: a point and the top-level
    name.  It succeeds after a point that two or more lower-case letters
    follow, and only there. *)
Lemma tld_here (s y : text) :
  run (Seq (Cls (is_char 46)) (Rep is_lower 2 Unbounded)) s
      (fun rest => Some rest) = Some y ->
  exists tl, s = 46%N :: tl ++ y /\ all is_lower tl /\ 2 <= length tl.
Proof.
  intros H. apply run_sound in H as (w & rest & -> & M & E).
  inversion E; subst rest. clear E.
  apply seq_matches in M as (d & tl & -> & Md & Mt).
  apply cls_matches in Md as (c & -> & Hc). apply N.eqb_eq in Hc. subst c.
  inversion Mt; subst. exists tl. auto.
Qed.

Lemma extension_is_email loc dom tld l tl :
  loc <> [] -> all is_local loc -> dom <> [] -> all is_domain dom ->
  all is_lower tld -> all is_domain l -> all is_lower tl -> 2 <= length tl ->
  EmailLike ((loc ++ 64%N :: dom ++ 46%N :: tld) ++ l ++ 46%N :: tl).
Proof.
  intros Hl Al Hd Ad At Adl Atl Ltl.
  exists loc, (dom ++ 46%N :: tld ++ l), tl.
  split; [|split; [exact Hl|split; [exact Al|split; [|split; [|split]]]]].
  - repeat (rewrite <- app_assoc; simpl). reflexivity.
  - destruct dom; [congruence|discriminate].
  - apply Forall_app. split; [exact Ad|].
    constructor; [reflexivity|]. apply Forall_app. split; [|exact Adl].
    eapply Forall_impl; [|exact At]. apply lower_is_domain.
  - exact Ltl.
  - exact Atl.
Qed.

(** The pattern, started on an address that the text after it does not
    extend to a longer one, takes the address and no more. *)
Lemma email_here loc dom tld post :
  loc <> [] -> all is_local loc -> dom <> [] -> all is_domain dom ->
  2 <= length tld -> all is_lower tld ->
  (forall e post', post = e ++ post' -> e <> [] ->
                   ~ EmailLike ((loc ++ 64%N :: dom ++ 46%N :: tld) ++ e)) ->
  match_here email_re ((loc ++ 64%N :: dom ++ 46%N :: tld) ++ post)
  = Some post.
Proof.
  intros Hl Al Hd Ad Lt At Hext.
  destruct (run_of_class is_domain post) as (more & rest & Ep & Am & Hrest).
  assert (Hlow : forall c r, post = c :: r -> is_lower c = false).
  { intros c r E. destruct (is_lower c) eqn:Lc; auto. exfalso.
    apply (Hext [c] r E ltac:(discriminate)).
    exists loc, dom, (tld ++ [c]). repeat split; auto.
    - rewrite <- app_assoc. simpl. now rewrite <- app_assoc.
    - rewrite length_app. simpl. lia.
    - apply Forall_app. split; auto. }
  assert (Hpoint : forall l v tl y,
             more = l ++ v -> v ++ rest = 46%N :: tl ++ y ->
             all is_lower tl -> 2 <= length tl -> False).
  { intros l v tl y Em Ev Atl Ltl.
    apply (Hext (l ++ 46%N :: tl) y).
    - rewrite Ep, Em. rewrite <- !app_assoc. rewrite Ev. reflexivity.
    - destruct l; discriminate.
    - apply extension_is_email; auto.
      rewrite Em in Am. now apply Forall_app in Am as [Al' _]. }
  unfold match_here, email_re. simpl run.
  rewrite <- app_assoc. simpl. rewrite <- app_assoc. simpl.
  apply rep_greedy with (w1 := loc) (w2 := [])
                        (rest := 64%N :: dom ++ 46%N :: tld ++ post).
  - assumption.
  - destruct loc; simpl; [congruence|lia].
  - constructor.
  - intros c r E. inversion E; subst. reflexivity.
  - simpl. rewrite Ep.
    replace (dom ++ 46%N :: tld ++ more ++ rest)
      with (dom ++ (46%N :: tld ++ more) ++ rest)
      by (simpl; now rewrite <- app_assoc).
    apply rep_greedy with (w1 := dom) (w2 := 46%N :: tld ++ more)
                          (rest := rest).
    + assumption.
    + destruct dom; simpl; [congruence|lia].
    + constructor; [reflexivity|]. apply Forall_app. split; auto.
      eapply Forall_impl; [|exact At]. apply lower_is_domain.
    + assumption.
    + simpl. rewrite <- app_assoc.
      apply rep_greedy with (w1 := tld) (w2 := []) (rest := more ++ rest).
      * assumption.
      * assumption.
      * constructor.
      * rewrite <- Ep. exact Hlow.
      * reflexivity.
      * intros u v E Hu. destruct u; [congruence|discriminate].
    + intros u v E Hu.
      destruct u as [|c u]; [congruence|].
      simpl in E. inversion E as [[Ec E']]. clear E Hu.
      match goal with
      | |- ?X = None => destruct X as [y|] eqn:K
      end; [|reflexivity].
      exfalso.
      assert (K' : run (Seq (Cls (is_char 46)) (Rep is_lower 2 Unbounded))
                       (v ++ rest) (fun r => Some r) = Some y) by exact K.
      apply tld_here in K' as (tl & Ev & Atl & Ltl).
      apply app_eq_app in E' as [l [[Et Em]|[Eu Em]]].
      * destruct l as [|d l].
        -- simpl in Em. subst v.
           now apply (Hpoint [] more tl y).
        -- subst v. simpl in Ev. inversion Ev; subst d.
           rewrite Et in At. apply Forall_app in At as [_ Al'].
           inversion Al'; subst. discriminate.
      * now apply (Hpoint l v tl y).
  - intros u v E Hu. destruct u; [congruence|discriminate].
Qed.

(** The match that starts on an address is not shorter than any
    address-shaped text that starts there. *)
Lemma email_match_is_longest m post :
  match_here email_re (m ++ post) = Some post ->
  forall e post', post = e ++ post' -> e <> [] -> ~ EmailLike (m ++ e).
Proof.
  intros H e post' Ep He (l2 & d2 & t2 & Ee & Hl2 & Al2 & Hd2 & Ad2 & Lt2 & At2).
  unfold match_here, email_re in H. simpl run in H.
  apply rep_longest in H as (wl & r1 & E1 & Awl & _ & K1 & _).
  destruct r1 as [|c s2]; [discriminate K1|].
  destruct (is_char 64 c) eqn:C; [|discriminate K1].
  apply N.eqb_eq in C. subst c.
  apply rep_longest in K1 as (wd & r3 & E2 & Awd & _ & K2 & Maxd).
  destruct r3 as [|c s4]; [discriminate K2|].
  destruct (is_char 46 c) eqn:C; [|discriminate K2].
  apply N.eqb_eq in C. subst c.
  apply rep_longest in K2 as (wt & r5 & E4 & Awt & _ & K3 & Maxt).
  inversion K3; subst r5. clear K3.
  subst s4 s2.
  assert (Em : m = wl ++ 64%N :: wd ++ 46%N :: wt).
  { apply app_inv_tail with (l := post). rewrite E1.
    repeat (rewrite <- app_assoc; simpl). reflexivity. }
  rewrite Em in Ee. repeat (rewrite <- app_assoc in Ee; simpl in Ee).
  apply same_run with (p := is_local) in Ee as [El Ed]; auto.
  assert (Hlong : forall tl, tl = wt ++ e -> all is_lower tl -> False).
  { intros tl Etl Atl.
    assert (N : Some post' = None).
    { apply (Maxt tl post').
      - rewrite Ep, Etl. now rewrite <- app_assoc.
      - exact Atl.
      - rewrite Etl, length_app. destruct e; [congruence|simpl; lia]. }
    discriminate N. }
  apply app_eq_app in Ed as [l [[Ewd Et]|[Ed2 Et]]].
  - destruct l as [|c l].
    + simpl in Et. inversion Et as [Et']. apply (Hlong t2); auto.
    + simpl in Et. inversion Et as [[Ec Et']]. subst c.
      rewrite Et' in At2. apply Forall_app in At2 as [_ A].
      inversion A; subst. discriminate.
  - destruct l as [|c l].
    + simpl in Et. inversion Et as [Et']. apply (Hlong t2); auto.
    + assert (N : rep is_lower 2 Unbounded (t2 ++ post')
                      (fun rest => Some rest) = None).
      { apply (Maxd d2 (46%N :: t2 ++ post')).
        - rewrite Ep. rewrite Ed2.
          apply (f_equal (fun z => wd ++ z ++ post')) in Et.
          repeat (rewrite <- app_assoc in Et; simpl in Et).
          repeat (rewrite <- app_assoc; simpl). exact Et.
        - exact Ad2.
        - rewrite Ed2, length_app. simpl. rewrite Nat.add_succ_r.
          apply Nat.lt_succ_r, Nat.le_add_r. }
      destruct (@rep_complete text is_lower (fun rest => Some rest) t2 2
                  Unbounded post' post') as [y Hy]; auto; [exact I|].
      change (rep is_lower 2 Unbounded (t2 ++ post')
                  (fun rest => Some rest) = Some y) in Hy.
      rewrite N in Hy. discriminate Hy.
Qed.

(** C6, as the code has it.  [extractEmail] returns the address-shaped part
    of the text that starts first and, of those that start there, the
    longest: it returns [m] exactly when [m] is a part of the text of the
    shape [local@domain.tld], with a top-level name of two or more
    lower-case letters, such that no part of that shape starts before it
    and the text after it does not extend it to a longer part of that
    shape.  When no part of the text is e-mail-like, it returns [null]. *)
Theorem extractEmail_leftmost_longest :
  (forall t m,
      extractEmail t = Some m <->
      exists pre post,
        t = pre ++ m ++ post /\ EmailLike m /\
        (forall pre' w post',
            t = pre' ++ w ++ post' -> EmailLike w ->
            length pre <= length pre') /\
        (forall e post',
            post = e ++ post' -> e <> [] -> ~ EmailLike (m ++ e)))
  /\
  (forall t, (forall w, occurs_in w t -> ~ EmailLike w) ->
             extractEmail t = None).
Proof.
  split.
  - intros t m. unfold extractEmail, match0, exec. split.
    + destruct (exec_from email_re 0 t) as [[j m']|] eqn:E; [|discriminate].
      simpl. intros H. inversion H; subst m'. clear H.
      destruct (exec_from_some _ _ _ E)
        as (pre & post & -> & _ & M & Hm & Hpre).
      exists pre, post. split; [reflexivity|].
      split; [now apply email_matches|]. split.
      * intros pre' w post' Heq Mw.
        destruct (Nat.le_gt_cases (length pre) (length pre')) as [|Hlt];
          auto.
        exfalso. apply email_matches in Mw.
        apply app_eq_app in Heq as [l [[-> Hr]|[-> Hr]]].
        -- destruct l as [|c l]; [rewrite app_nil_r in Hlt; lia|].
           pose proof (Hpre pre' (c :: l) eq_refl ltac:(discriminate)) as Hn.
           rewrite <- Hr in Hn.
           destruct (match_here_complete post' Mw) as [rest Hs]. congruence.
        -- rewrite length_app in Hlt. lia.
      * now apply email_match_is_longest.
    + intros (pre & post & -> & (loc & dom & tld & -> & Hl & Al & Hd & Ad
                                 & Lt & At) & Hfirst & Hext).
      rewrite exec_from_at.
      * reflexivity.
      * now apply email_here.
      * intros p1 p2 -> Hn.
        match goal with
        | |- ?X = None => destruct X as [rest|] eqn:K
        end; [|reflexivity].
        exfalso.
        destruct (match_here_sound _ _ K) as (w & Ew & Mw).
        apply email_matches in Mw.
        assert (L : length (p1 ++ p2) <= length p1).
        { apply (Hfirst p1 w rest); auto.
          rewrite <- app_assoc. now rewrite Ew. }
        rewrite length_app in L. destruct p2; [congruence|simpl in L; lia].
  - intros t H. apply match0_none. intros w Hocc M.
    apply (H w Hocc). now apply email_matches.
Qed.

(** The theorem at work: an address with a full stop after it, and a text
    without an at sign. *)
Lemma extractEmail_leftmost_longest_witness :
  extractEmail (str "john@example.com.") = Some (str "john@example.com")
  /\ extractEmail (str "no address here") = None.
Proof.
  split.
  - apply (proj2 (proj1 extractEmail_leftmost_longest
                    (str "john@example.com.") (str "john@example.com"))).
    exists [], (str "."). split; [reflexivity|]. split; [|split].
    + exists (str "john"), (str "example"), (str "com").
      repeat split; try discriminate; try (simpl; lia); repeat constructor.
    + intros pre' w post' _ _. simpl. lia.
    + intros e post' E He M.
      destruct e as [|c e]; [congruence|].
      simpl in E. inversion E as [[Ec Ee]].
      destruct e; [|discriminate Ee]. subst c.
      apply email_like_ends_lower in M as (w' & c & Ew & Lc).
      change (str "john@example.com" ++ [46%N])
        with ((str "john@example.com") ++ [46%N]) in Ew.
      apply app_inj_tail in Ew as [_ <-]. discriminate Lc.
  - apply (proj2 extractEmail_leftmost_longest).
    intros w (pre & post & E) (loc & dom & tld & -> & _).
    assert (H : In 64%N (str "no address here")).
    { rewrite E. apply in_or_app. right. apply in_or_app. left.
      apply in_or_app. right. now left. }
    simpl in H. intuition discriminate.
Defined.

(** C6 as it is worded fails: an address with an upper-case top-level name
    is not found at all, and an address that text follows without a gap is
    returned with part of that text. *)
Lemma extractEmail_not_exactly_the_address :
  (spec_well_formed_email (str "JOHN@EXAMPLE.COM")
   /\ occurs_in (str "JOHN@EXAMPLE.COM") (str "JOHN@EXAMPLE.COM")
   /\ extractEmail (str "JOHN@EXAMPLE.COM") = None)
  /\
  (spec_well_formed_email (str "john@example.com")
   /\ occurs_in (str "john@example.com")
                (str "john@example.comlinkedin.com/in/john")
   /\ extractEmail (str "john@example.comlinkedin.com/in/john")
      = Some (str "john@example.comlinkedin.com")
   /\ str "john@example.comlinkedin.com" <> str "john@example.com").
Proof.
  split; [split; [|split]|split; [|split; [|split]]].
  - exists (str "JOHN"), (str "EXAMPLE"), (str "COM").
    repeat split; try discriminate; try (simpl; lia); repeat constructor.
  - exists [], []. reflexivity.
  - reflexivity.
  - exists (str "john"), (str "example"), (str "com").
    repeat split; try discriminate; try (simpl; lia); repeat constructor.
  - exists [], (str "linkedin.com/in/john"). reflexivity.
  - reflexivity.
  - discriminate.
Qed.

End EmailFacts.

(* ================================================================== *)
(** * The name extractor                                               *)
(* ================================================================== *)

Module NameFacts.
Import RegexFacts.

Lemma lit_ci_matches : forall w0 last w,
    Matches (lit_ci w0 last) w <->
    Forall2 (fun c l => ci l c = true) w (w0 ++ [last]).
Proof.
  induction w0 as [|l w0 IH]; intros last w; simpl.
  - rewrite cls_matches. split.
    + intros (c & -> & H). repeat constructor. exact H.
    + intros H. inversion H; subst. inversion H4; subst. eauto.
  - rewrite seq_matches. split.
    + intros (w1 & w2 & -> & M1 & M2).
      apply cls_matches in M1 as (c & -> & H). apply IH in M2.
      simpl. now constructor.
    + intros H. inversion H; subst.
      exists [x], l0. repeat split; auto.
      * apply cls_matches. eauto.
      * now apply IH.
Qed.

Lemma resume_test s : test resume_re s = true <-> ContainsResume s.
Proof.
  rewrite test_true. unfold ContainsResume, resume_re. split.
  - intros (w & (pre & post & ->) & M). apply lit_ci_matches in M.
    exists pre, w, post. split; auto.
  - intros (pre & w & post & -> & H). exists w. split.
    + now exists pre, post.
    + now apply lit_ci_matches.
Qed.

Lemma letter_test s : test letter_re s = true <-> HasLetter s.
Proof.
  rewrite test_true. unfold HasLetter, letter_re. split.
  - intros (w & (pre & post & ->) & M).
    apply cls_matches in M as (c & -> & H). exists c. split; auto.
    apply in_or_app. right. now left.
  - intros (c & Hin & H). apply in_split in Hin as (pre & post & ->).
    exists [c]. split; [now exists pre, post|]. apply cls_matches. eauto.
Qed.

Lemma split_char_length sep : forall s piece,
    length (split_char sep piece s) = S (count_occ N.eq_dec s sep).
Proof.
  induction s as [|c s IH]; intros piece; simpl; auto.
  destruct (N.eqb_spec c sep) as [->|Hne]; simpl.
  - destruct (N.eq_dec sep sep); [|congruence]. now rewrite IH.
  - destruct (N.eq_dec c sep); [congruence|]. apply IH.
Qed.

(** The test of the loop body, in words. *)
Lemma name_test_good s : name_test s = true <-> GoodNameLine s.
Proof.
  unfold name_test, GoodNameLine, spaces.
  rewrite !andb_true_iff, negb_true_iff, split_char_length.
  rewrite <- resume_test, <- letter_test.
  rewrite Nat.leb_le. split.
  - intros [[H1 H2] H3]. repeat split; auto; [congruence|lia].
  - intros (H1 & H2 & H3). repeat split; auto; [|lia].
    destruct (test resume_re s); congruence.
Qed.

Lemma name_test_bad s : name_test s = false <-> ~ GoodNameLine s.
Proof.
  rewrite <- name_test_good. destruct (name_test s); split; congruence.
Qed.

Lemma nth_error_skipn A (l : list A) : forall i x,
    nth_error l i = Some x -> skipn i l = x :: skipn (S i) l.
Proof.
  induction l as [|y l IH]; intros [|i] x H; simpl in *; try discriminate.
  - now inversion H.
  - now apply IH.
Qed.

(** The lines the loop sees are the pieces between line ends, trimmed, that
    are not empty. *)
Lemma name_lines_are_trimmed_pieces t l :
  In l (name_lines t) <->
  l <> [] /\ exists piece, In piece (split newline_re t) /\ l = trim piece.
Proof.
  unfold name_lines. rewrite filter_In, in_map_iff. split.
  - intros [(piece & <- & Hin) Hne]. split; eauto.
    intros E. rewrite E in Hne. discriminate.
  - intros [Hne (piece & Hin & ->)]. split; eauto.
    destruct (trim piece); [congruence|reflexivity].
Qed.

(** The loop stops at the first line that passes the test. *)
Lemma name_loop_first lines : forall n i,
    i + n <= length lines ->
    match name_loop n i lines with
    | Some s =>
        exists before after,
          skipn i lines = before ++ s :: after /\ length before < n /\
          name_test s = true /\
          Forall (fun l => name_test l = false) before
    | None => Forall (fun l => name_test l = false) (firstn n (skipn i lines))
    end.
Proof.
  induction n as [|n IH]; intros i Hn; simpl.
  - constructor.
  - destruct (nth_error lines i) as [s|] eqn:E.
    2:{ apply nth_error_None in E. lia. }
    pose proof (nth_error_skipn _ _ E) as Hs.
    destruct (name_test s) eqn:T.
    + exists [], (skipn (S i) lines). simpl. repeat split; auto; lia.
    + specialize (IH (S i)). rewrite Hs.
      destruct (name_loop n (S i) lines) as [s'|].
      * destruct IH as (before & after & Hb & Hl & Ht & Hf); [lia|].
        exists (s :: before), after. rewrite Hb.
        repeat split; auto; simpl; lia.
      * simpl. constructor; auto. apply IH. lia.
Qed.

(** C5, as the code has it.  [extractName] looks at the first six non-blank
    trimmed lines at most and returns the first of them that does not hold
    "resume" in any letter case, holds a letter, and holds at most three
    space characters (at most four pieces when cut at each space); when none
    of these lines is such, it returns [null]. *)
Theorem extractName_first_good_line (t : text) :
  match extractName t with
  | Some s =>
      exists before after,
        name_lines t = before ++ s :: after /\ length before < 6 /\
        GoodNameLine s /\ Forall (fun l => ~ GoodNameLine l) before
  | None => Forall (fun l => ~ GoodNameLine l) (firstn 6 (name_lines t))
  end.
Proof.
  unfold extractName.
  pose proof (name_loop_first (name_lines t)
                (Nat.min 6 (length (name_lines t))) 0) as H.
  specialize (H ltac:(lia)). cbn [skipn] in H.
  destruct (name_loop (Nat.min 6 (length (name_lines t))) 0 (name_lines t))
    as [s|].
  - destruct H as (before & after & Hb & Hl & Ht & Hf).
    exists before, after.
    split; [exact Hb|]. split; [lia|]. split; [now apply name_test_good|].
    eapply Forall_impl; [|exact Hf]. intros l. apply name_test_bad.
  - assert (E : firstn 6 (name_lines t)
                = firstn (Nat.min 6 (length (name_lines t))) (name_lines t)).
    { destruct (Nat.le_ge_cases 6 (length (name_lines t))).
      - now rewrite Nat.min_l.
      - rewrite Nat.min_r by assumption.
        rewrite firstn_all. now apply firstn_all2. }
    rewrite E. eapply Forall_impl; [|apply H].
    intros l. apply name_test_bad.
Qed.

(** C5 as it is worded fails: a line of three words with two spaces between
    them has three tokens, and is refused for its four space characters. *)
Lemma extractName_counts_spaces :
  extractName (str "John  A.  Smith") = None
  /\ spec_extractName (str "John  A.  Smith") = Some (str "John  A.  Smith").
Proof. split; reflexivity. Qed.

End NameFacts.

(* ================================================================== *)
(** * [JSON.parse] has fuel enough                                     *)
(* ================================================================== *)

Module ParseFacts.

Lemma skip_ws_le s : length (skip_ws s) <= length s.
Proof.
  induction s as [|c s IH]; simpl; auto.
  destruct (is_ws c); simpl; lia.
Qed.

Lemma strip_prefix_le : forall p s r,
    strip_prefix p s = Some r -> length r <= length s.
Proof.
  induction p as [|x p IH]; intros s r H; simpl in H.
  - inversion H; subst. lia.
  - destruct s as [|y s]; [discriminate|].
    destruct (N.eqb x y); [|discriminate].
    apply IH in H. simpl. lia.
Qed.

Lemma digits_le : forall s acc n v k r,
    digits acc n s = (v, k, r) -> length r <= length s.
Proof.
  induction s as [|c s IH]; intros acc n v k r H; simpl in H.
  - inversion H; subst. lia.
  - destruct (is_digit c).
    + apply IH in H. simpl. lia.
    + inversion H; subst. lia.
Qed.

Lemma string_body_le : forall n s acc t r,
    length s <= n -> string_body acc s = Some (t, r) -> length r <= length s.
Proof.
  induction n as [|n IH]; intros s acc t r Hn H.
  - destruct s; [discriminate|simpl in Hn; lia].
  - destruct s as [|c s]; [discriminate|]. simpl in H. simpl in Hn.
    destruct (is_char 34 c).
    { inversion H; subst. simpl. lia. }
    destruct (is_char 92 c).
    { destruct s as [|e s]; [discriminate|]. simpl in Hn.
      destruct (is_char 117 e).
      - destruct s as [|h1 [|h2 [|h3 [|h4 s]]]]; try discriminate.
        destruct (hex4 h1 h2 h3 h4); [|discriminate].
        simpl in Hn. apply IH in H; simpl; lia.
      - destruct (escape e); [|discriminate].
        apply IH in H; simpl; lia. }
    destruct (N.ltb c 32); [discriminate|].
    apply IH in H; simpl; lia.
Qed.

(** Case analysis on every test a hypothesis runs through. *)
Ltac cases :=
  repeat match goal with
         | H : context [match ?x with _ => _ end] |- _ =>
             destruct x eqn:?; try discriminate
         | H : (_, _) = (_, _) |- _ => inversion H; clear H; subst
         | H : Some _ = Some _ |- _ => inversion H; clear H; subst
         end.

Ltac lengths :=
  repeat match goal with
         | H : digits _ _ _ = _ |- _ => apply digits_le in H
         | H : strip_prefix _ _ = _ |- _ => apply strip_prefix_le in H
         | H : string_body _ _ = _ |- _ =>
             eapply string_body_le in H; [|apply Nat.le_refl]
         end;
  simpl in *; try lia.

Lemma sign_le s b r : sign s = (b, r) -> length r <= length s.
Proof. unfold sign. intros H. cases; lengths. Qed.

Lemma int_part_le s v r : int_part s = Some (v, r) -> length r <= length s.
Proof. unfold int_part. intros H. cases; lengths. Qed.

Lemma frac_part_le iv s v n r :
  frac_part iv s = Some (v, n, r) -> length r <= length s.
Proof. unfold frac_part. intros H. cases; lengths. Qed.

Lemma exp_part_le s v r : exp_part s = Some (v, r) -> length r <= length s.
Proof. unfold exp_part. intros H. cases; lengths. Qed.

Lemma number_le s v r : number s = Some (v, r) -> length r <= length s.
Proof.
  unfold number. intros H.
  destruct (sign s) as [neg s1] eqn:E1. apply sign_le in E1.
  destruct (int_part s1) as [[iv s2]|] eqn:E2; [|discriminate].
  apply int_part_le in E2.
  destruct (frac_part iv s2) as [[[fv fn] s3]|] eqn:E3; [|discriminate].
  apply frac_part_le in E3.
  destruct (exp_part s3) as [[ev s4]|] eqn:E4; [|discriminate].
  apply exp_part_le in E4.
  inversion H; subst. lia.
Qed.

Ltac with_skip_ws :=
  repeat match goal with
         | H : context [skip_ws ?s] |- _ =>
             lazymatch goal with
             | _ : length (skip_ws s) <= length s |- _ => fail
             | _ => pose proof (skip_ws_le s)
             end
         end.

(** A parser leaves no more than it was given. *)
Lemma parse_le : forall f,
    (forall s v r, value f s = Some (v, r) -> length r <= length s) /\
    (forall s vs r, elements f s = Some (vs, r) -> length r <= length s) /\
    (forall s ms r, members f s = Some (ms, r) -> length r <= length s).
Proof.
  induction f as [|f (IHv & IHe & IHm)].
  - repeat split; intros; discriminate.
  - repeat split; intros s x r H; simpl in H;
      unfold value_at, elements_at, members_at, option_map in H;
      cases; with_skip_ws;
      repeat match goal with
             | H : value f _ = Some _ |- _ => apply IHv in H
             | H : elements f _ = Some _ |- _ => apply IHe in H
             | H : members f _ = Some _ |- _ => apply IHm in H
             | H : number _ = Some _ |- _ => apply number_le in H
             | H : skip_ws _ = _ |- _ => rewrite H in *
             end;
      lengths.
Qed.

Lemma value_at_ext e1 m1 e2 m2 s :
  (forall x, length x < length s -> e1 x = e2 x) ->
  (forall x, length x < length s -> m1 x = m2 x) ->
  value_at e1 m1 s = value_at e2 m2 s.
Proof.
  intros He Hm. unfold value_at. destruct s as [|c s]; auto.
  pose proof (skip_ws_le s) as L.
  destruct (is_char 123 c).
  { destruct (skip_ws s) as [|d r]; auto. destruct (is_char 125 d); auto.
    rewrite Hm; auto. simpl in *. lia. }
  destruct (is_char 91 c); auto.
  destruct (skip_ws s) as [|d r]; auto. destruct (is_char 93 d); auto.
  rewrite He; auto. simpl in *. lia.
Qed.

Lemma elements_at_ext v1 e1 v2 e2 s :
  v1 s = v2 s ->
  (forall v r, v2 s = Some (v, r) -> length r <= length s) ->
  (forall x, length x < length s -> e1 x = e2 x) ->
  elements_at v1 e1 s = elements_at v2 e2 s.
Proof.
  intros Hv Hle He. unfold elements_at. rewrite Hv.
  destruct (v2 s) as [[v r]|] eqn:E; auto.
  specialize (Hle v r eq_refl). pose proof (skip_ws_le r) as L.
  destruct (skip_ws r) as [|d r']; auto. destruct (is_char 44 d); auto.
  pose proof (skip_ws_le r') as L'.
  rewrite He; auto. simpl in *. lia.
Qed.

Lemma members_at_ext v1 m1 v2 m2 s :
  (forall x, length x < length s -> v1 x = v2 x) ->
  (forall x v r, v2 x = Some (v, r) -> length r <= length x) ->
  (forall x, length x < length s -> m1 x = m2 x) ->
  members_at v1 m1 s = members_at v2 m2 s.
Proof.
  intros Hv Hle Hm. unfold members_at. destruct s as [|q s]; auto.
  destruct (is_char 34 q); auto.
  destruct (string_body [] s) as [[key r0]|] eqn:E; auto.
  eapply string_body_le in E; [|apply Nat.le_refl].
  pose proof (skip_ws_le r0) as L0.
  destruct (skip_ws r0) as [|col r1]; auto. destruct (is_char 58 col); auto.
  pose proof (skip_ws_le r1) as L1.
  rewrite Hv by (simpl in *; lia).
  destruct (v2 (skip_ws r1)) as [[v r]|] eqn:E2; auto.
  apply Hle in E2. pose proof (skip_ws_le r) as L.
  destruct (skip_ws r) as [|d r']; auto. destruct (is_char 44 d); auto.
  pose proof (skip_ws_le r') as L'.
  rewrite Hm; auto. simpl in *. lia.
Qed.

(** One more unit of fuel changes nothing once there are two units for
    each character. *)
Lemma fuel_step : forall f,
    (forall s, 2 * length s + 1 <= f -> value (S f) s = value f s) /\
    (forall s, 2 * length s + 2 <= f -> elements (S f) s = elements f s) /\
    (forall s, 2 * length s + 2 <= f -> members (S f) s = members f s).
Proof.
  induction f as [|f (IHv & IHe & IHm)].
  - repeat split; intros; lia.
  - destruct (parse_le f) as (Lv & _ & _).
    repeat split; intros s Hs;
      change (value (S (S f)) s)
        with (value_at (elements (S f)) (members (S f)) s);
      change (value (S f) s) with (value_at (elements f) (members f) s);
      change (elements (S (S f)) s)
        with (elements_at (value (S f)) (elements (S f)) s);
      change (elements (S f) s) with (elements_at (value f) (elements f) s);
      change (members (S (S f)) s)
        with (members_at (value (S f)) (members (S f)) s);
      change (members (S f) s) with (members_at (value f) (members f) s).
    + apply value_at_ext; intros x Hx; [apply IHe|apply IHm]; lia.
    + apply elements_at_ext.
      * apply IHv. lia.
      * apply Lv.
      * intros x Hx. apply IHe. lia.
    + apply members_at_ext.
      * intros x Hx. apply IHv. lia.
      * apply Lv.
      * intros x Hx. apply IHm. lia.
Qed.

Lemma value_enough s : forall k,
    value (2 * length s + 1 + k) s = value (2 * length s + 1) s.
Proof.
  induction k as [|k IH].
  - now rewrite Nat.add_0_r.
  - rewrite Nat.add_succ_r. rewrite (proj1 (fuel_step _)) by lia. exact IH.
Qed.

(** [JSON.parse] does not run out of fuel: any larger amount gives the same
    result, so [None] is a syntax error. *)
Lemma JSON_parse_fuel t f :
  2 * length t + 2 <= f -> parse_with f t = JSON_parse t.
Proof.
  intros Hf. unfold JSON_parse, parse_with.
  pose proof (skip_ws_le t) as L.
  assert (E : forall g, 2 * length t + 2 <= g ->
                        value g (skip_ws t)
                        = value (2 * length (skip_ws t) + 1) (skip_ws t)).
  { intros g Hg.
    replace g with (2 * length (skip_ws t) + 1
                    + (g - (2 * length (skip_ws t) + 1))) by lia.
    apply value_enough. }
  rewrite (E f Hf), (E _ (Nat.le_refl _)). reflexivity.
Qed.

End ParseFacts.

(* ================================================================== *)
(** * The JSON salvage                                                 *)
(* ================================================================== *)

Module SalvageFacts.
Import RegexFacts.

Lemma span_matches w :
  Matches json_span w -> exists o mid c, w = o :: mid ++ [c] /\ closes o c.
Proof.
  unfold json_span. intros M. apply alt_matches in M as [M|M];
    apply seq_matches in M as (x & w1 & -> & Mo & M);
    apply seq_matches in M as (mid & y & -> & _ & Mc);
    apply cls_matches in Mo as (o & -> & Ho);
    apply cls_matches in Mc as (c & -> & Hc);
    apply N.eqb_eq in Ho, Hc; subst;
    eexists _, mid, _; (split; [reflexivity|]); [left|right]; auto.
Qed.

(** From an opening character the pattern runs to the last closing one. *)
Lemma span_here o mid c post :
  closes o c -> ~ In c post ->
  match_here json_span ((o :: mid ++ [c]) ++ post) = Some post.
Proof.
  intros Hoc Hlast.
  assert (G : rep any 0 Unbounded (mid ++ c :: post)
                (fun s1 => match s1 with
                           | [] => None
                           | x :: s' => if is_char c x then Some s' else None
                           end) = Some post).
  { replace (mid ++ c :: post) with (mid ++ (c :: post) ++ [])
      by now rewrite app_nil_r.
    rewrite <- (app_nil_r post) at 2.
    apply rep_greedy with (w1 := mid) (w2 := c :: post) (rest := []).
    - apply Forall_forall. reflexivity.
    - lia.
    - apply Forall_forall. reflexivity.
    - discriminate.
    - simpl. unfold is_char. now rewrite N.eqb_refl.
    - intros u v E Hu. destruct u as [|x u]; [congruence|].
      injection E as Hx Hp. subst x post. rewrite app_nil_r.
      destruct v as [|y v]; auto.
      destruct (N.eqb_spec y c) as [->|Hne]; unfold is_char.
      + exfalso. apply Hlast. apply in_or_app. right. now left.
      + apply N.eqb_neq in Hne. now rewrite Hne. }
  unfold match_here, json_span. simpl. rewrite <- app_assoc. simpl.
  destruct Hoc as [[-> ->]|[-> ->]]; simpl.
  - match goal with
    | |- match ?X with _ => _ end = _ =>
        replace X with (Some post) by (symmetry; exact G)
    end.
    reflexivity.
  - exact G.
Qed.

(** Where no span can start, the pattern does not match. *)
Lemma span_not_here x after :
  ~ viable x after -> match_here json_span (x :: after) = None.
Proof.
  intros Hv. destruct (match_here json_span (x :: after)) as [r|] eqn:E; auto.
  exfalso. apply Hv.
  destruct (match_here_sound _ _ E) as (w & Heq & M).
  apply span_matches in M as (o & mid & c & -> & Hoc).
  simpl in Heq. inversion Heq; subst.
  exists c. split; auto.
  rewrite <- app_assoc. apply in_or_app. right. now left.
Qed.

(** C1, as the code has it.  [extractJSON] returns what [JSON.parse] makes
    of the whole text when that succeeds.  When it fails, the span that is
    parsed next starts at the leftmost brace that has a closing brace after
    it, or bracket that has a closing bracket after it, and ends at the last
    such closing character of the text; [null] is returned when that span
    does not parse or when no such span exists.  The three examples of the
    specification hold. *)
Theorem extractJSON_salvage :
  (forall t v, JSON_parse t = Some v -> extractJSON t = v)
  /\
  (forall pre o mid c post,
      JSON_parse (pre ++ o :: mid ++ c :: post) = None ->
      closes o c -> ~ In c post ->
      (forall p1 x p2, pre = p1 ++ x :: p2 ->
                       ~ viable x (p2 ++ o :: mid ++ c :: post)) ->
      extractJSON (pre ++ o :: mid ++ c :: post)
      = or_null (JSON_parse (o :: mid ++ [c])))
  /\
  (forall t,
      JSON_parse t = None ->
      (forall pre o after, t = pre ++ o :: after -> ~ viable o after) ->
      extractJSON t = JNull)
  /\
  extractJSON (str "{" ++ dq :: str "a" ++ dq :: str ":1}")
  = JObject [(str "a", JNumber 1 0)]
  /\
  extractJSON (str "noise {" ++ dq :: str "a" ++ dq :: str ":1} trailing")
  = JObject [(str "a", JNumber 1 0)]
  /\
  extractJSON (str "not json at all") = JNull.
Proof.
  split; [|split; [|split; [|repeat split; reflexivity]]].
  - intros t v H. unfold extractJSON. now rewrite H.
  - intros pre o mid c post Hp Hoc Hlast Hpre.
    unfold extractJSON. rewrite Hp.
    assert (E : match0 json_span (pre ++ o :: mid ++ c :: post)
                = Some (o :: mid ++ [c])).
    { replace (pre ++ o :: mid ++ c :: post)
        with (pre ++ (o :: mid ++ [c]) ++ post)
        by (simpl; now rewrite <- app_assoc).
      unfold match0, exec. rewrite exec_from_at; auto.
      - now apply span_here.
      - intros p1 p2 -> Hn. destruct p2 as [|x p2]; [congruence|].
        simpl. apply span_not_here.
        replace (p2 ++ o :: (mid ++ [c]) ++ post)
          with (p2 ++ o :: mid ++ c :: post)
          by (now rewrite <- app_assoc).
        eapply Hpre. reflexivity. }
    rewrite E. reflexivity.
  - intros t Hp Hnone. unfold extractJSON. rewrite Hp.
    assert (E : match0 json_span t = None).
    { apply match0_none. intros w (pre & post & ->) M.
      apply span_matches in M as (o & mid & c & -> & Hoc).
      apply (Hnone pre o ((mid ++ [c]) ++ post)); auto.
      exists c. split; auto.
      apply in_or_app. left. apply in_or_app. right. now left. }
    now rewrite E.
Qed.

(** The theorem at work on the second example of the specification and on
    a text without braces. *)
Lemma extractJSON_salvage_witness :
  extractJSON (str "noise {" ++ dq :: str "a" ++ dq :: str ":1} trailing")
  = or_null (JSON_parse (str "{" ++ dq :: str "a" ++ dq :: str ":1}"))
  /\ extractJSON (str "[1]") = JArray [JNumber 1 0]
  /\ extractJSON (str "no span here") = JNull.
Proof.
  split; [|split].
  - apply (proj1 (proj2 extractJSON_salvage)
                 (str "noise ") 123%N (dq :: str "a" ++ dq :: str ":1")
                 125%N (str " trailing")).
    + reflexivity.
    + left. split; reflexivity.
    + simpl. intuition discriminate.
    + intros p1 x p2 E (c & Hc & _).
      assert (H : In x (str "noise ")) by (rewrite E; apply in_elt).
      simpl in H. destruct Hc as [[-> _]|[-> _]]; intuition discriminate.
  - apply (proj1 extractJSON_salvage). reflexivity.
  - apply (proj1 (proj2 (proj2 extractJSON_salvage))).
    + reflexivity.
    + intros pre o after E (c & Hc & _).
      assert (H : In o (str "no span here")) by (rewrite E; apply in_elt).
      simpl in H. destruct Hc as [[-> _]|[-> _]]; intuition discriminate.
Defined.

(** C1 as it is worded fails: in a text with two arrays the first top-level
    span is the first array, which parses; the code takes the span up to the
    last bracket, which does not, and returns [null]. *)
Lemma extractJSON_span_is_greedy :
  JSON_parse (str "[1] [2]") = None
  /\ spec_first_span (str "[1] [2]") = Some (str "[1]")
  /\ spec_extractJSON (str "[1] [2]") = JArray [JNumber 1 0]
  /\ match0 json_span (str "[1] [2]") = Some (str "[1] [2]")
  /\ extractJSON (str "[1] [2]") = JNull.
Proof. repeat split; reflexivity. Qed.

End SalvageFacts.

(* ================================================================== *)
(** * The grading route                                                *)
(* ================================================================== *)

Module RouteFacts.

Lemma grade_answer_rejects model req :
  req <> JNull ->
  truthy (get req (str "question")) = false \/
  truthy (get req (str "answer")) = false ->
  serve grade_answer model req = (Some missing_data, []).
Proof.
  intros Hb H.
  assert (E : destructure req = ret req)
    by (destruct req; [now destruct Hb|reflexivity..]).
  unfold serve, grade_answer, try_catch, bind. rewrite E. unfold ret.
  destruct H as [H|H]; rewrite H; simpl; [reflexivity|].
  now rewrite orb_true_r.
Qed.

Lemma body_or_empty_get req key :
  get (body_or_empty req) key = get req key.
Proof.
  unfold body_or_empty. destruct (truthy (Some req)) eqn:T; auto.
  now destruct req.
Qed.

Lemma grade_answer_backend_rejects model req :
  truthy (get req (str "question")) = false \/
  truthy (get req (str "answer")) = false ->
  serve grade_answer_backend model req = (Some missing_question_or_answer, []).
Proof.
  intros H. unfold serve, grade_answer_backend, try_catch, ret.
  rewrite !body_or_empty_get.
  destruct H as [H|H]; rewrite H; simpl; [reflexivity|].
  now rewrite orb_true_r.
Qed.

(** What the handler does once both fields passed its check. *)
Lemma grade_answer_asks model req :
  truthy (get req (str "question")) = true ->
  truthy (get req (str "answer")) = true ->
  let p := {| p_question := get req (str "question");
              p_answer := get req (str "answer") |} in
  serve grade_answer model req
  = if prints (get req (str "question")) && prints (get req (str "answer"))
    then match model p with
         | Some t =>
             if truthy (Some (extractJSON t))
             then (Some {| status := 200; body := extractJSON t |}, [p])
             else (Some {| status := 500;
                           body := error "Gemini grading failed" |}, [p])
         | None => (Some {| status := 500;
                            body := error "Gemini grading failed" |}, [p])
         end
    else (Some {| status := 500; body := error "Gemini grading failed" |},
          []).
Proof.
  intros Hq Ha p.
  assert (Hb : destructure req = ret req).
  { destruct req; try reflexivity. discriminate Hq. }
  unfold serve, grade_answer, try_catch, bind. rewrite Hb. unfold ret at 1.
  rewrite Hq, Ha. cbn [negb orb]. unfold to_string.
  destruct (prints (get req (str "question"))); [|reflexivity].
  destruct (prints (get req (str "answer"))); [|reflexivity].
  unfold ret, generateContent. cbn [app andb]. fold p.
  destruct (model p) as [t|]; cbv beta iota; [|reflexivity].
  now destruct (truthy (Some (extractJSON t))).
Qed.

(** C8, as the code has it.  A request with a body that lacks [question] or
    [answer] is answered with status 400 and no call to the model.  A
    request in which both are truthy and can be printed into the prompt
    makes exactly one call to the model, with these two values, whatever the
    model answers; the response is then 200 or 500.  When both are truthy
    and one of them cannot be printed, an object with a member named
    [toString] for one, the answer is 500 and the model is not called; the
    same holds for a request without a body. *)
Theorem grade_answer_calls_model_once (model : Model) (req : json) :
  (req <> JNull ->
   get req (str "question") = None \/ get req (str "answer") = None ->
   serve grade_answer model req = (Some missing_data, []))
  /\
  (truthy (get req (str "question")) = true ->
   truthy (get req (str "answer")) = true ->
   prints (get req (str "question")) = true ->
   prints (get req (str "answer")) = true ->
   exists resp,
     serve grade_answer model req
     = (Some resp, [{| p_question := get req (str "question");
                       p_answer := get req (str "answer") |}])
     /\ (status resp = 200 \/ status resp = 500))
  /\
  (truthy (get req (str "question")) = true ->
   truthy (get req (str "answer")) = true ->
   prints (get req (str "question")) = false \/
   prints (get req (str "answer")) = false ->
   serve grade_answer model req
   = (Some {| status := 500; body := error "Gemini grading failed" |}, []))
  /\
  (req = JNull ->
   serve grade_answer model req
   = (Some {| status := 500; body := error "Gemini grading failed" |}, [])).
Proof.
  split; [|split; [|split]].
  - intros Hb H. apply grade_answer_rejects; auto.
    destruct H as [H|H]; rewrite H; auto.
  - intros Hq Ha Pq Pa. rewrite grade_answer_asks by assumption.
    rewrite Pq, Pa. cbn [andb].
    destruct (model _) as [t|].
    + destruct (truthy (Some (extractJSON t)));
        eexists; (split; [reflexivity|simpl; auto]).
    + eexists; (split; [reflexivity|simpl; auto]).
  - intros Hq Ha H. rewrite grade_answer_asks by assumption.
    destruct H as [H|H]; rewrite H; [reflexivity|].
    now rewrite andb_false_r.
  - intros ->. reflexivity.
Qed.

(** The theorem at work: a body without [answer] is refused, a full body
    costs one call, and a question that cannot be printed costs none. *)
Lemma grade_answer_calls_model_once_witness :
  serve grade_answer Scenario.grader Scenario.body_without_answer
  = (Some missing_data, [])
  /\
  (exists resp,
      serve grade_answer Scenario.grader Scenario.body_ok
      = (Some resp,
         [{| p_question := get Scenario.body_ok (str "question");
             p_answer := get Scenario.body_ok (str "answer") |}])
      /\ (status resp = 200 \/ status resp = 500))
  /\
  serve grade_answer Scenario.grader
        (JObject [(str "question",
                   JObject [(str "toString", JNumber 1 0)]);
                  (str "answer", JString (str "x"))])
  = (Some {| status := 500; body := error "Gemini grading failed" |}, []).
Proof.
  split; [|split].
  - apply (proj1 (grade_answer_calls_model_once Scenario.grader
                    Scenario.body_without_answer)).
    + discriminate.
    + right. reflexivity.
  - apply (proj1 (proj2 (grade_answer_calls_model_once Scenario.grader
                           Scenario.body_ok))); reflexivity.
  - apply (proj1 (proj2 (proj2 (grade_answer_calls_model_once Scenario.grader
             (JObject [(str "question",
                        JObject [(str "toString", JNumber 1 0)]);
                       (str "answer", JString (str "x"))]))))).
    + reflexivity.
    + reflexivity.
    + left. reflexivity.
Defined.

(** C8 as it is worded fails: with both fields present and the answer empty,
    the request is refused and no call is made. *)
Lemma grade_answer_present_fields_no_call :
  get Scenario.body_empty_answer (str "question") = Some Scenario.asked
  /\ get Scenario.body_empty_answer (str "answer") = Some (JString [])
  /\ serve grade_answer Scenario.grader Scenario.body_empty_answer
     = (Some missing_data, []).
Proof. repeat split; reflexivity. Qed.

(** C10. An [answer] that is present and falsy (the empty string, the
    number 0, [false], [null]) is treated as a missing one: both servers answer
    400 and do not call the model. *)
Theorem grade_answer_falsy_answer_is_missing
        (model : Model) (members : list (text * json)) (a : json) :
  lookup (str "answer") members = Some a ->
  truthy (Some a) = false ->
  serve grade_answer model (JObject members) = (Some missing_data, [])
  /\ serve grade_answer_backend model (JObject members)
     = (Some missing_question_or_answer, []).
Proof.
  intros Hl Ha. split.
  - apply grade_answer_rejects; [discriminate|]. right. simpl. now rewrite Hl.
  - apply grade_answer_backend_rejects. right. simpl. now rewrite Hl.
Qed.

(** The theorem at work on the empty string and on the number 0. *)
Lemma grade_answer_falsy_answer_is_missing_witness :
  (serve grade_answer Scenario.grader Scenario.body_empty_answer
   = (Some missing_data, [])
   /\ serve grade_answer_backend Scenario.grader Scenario.body_empty_answer
      = (Some missing_question_or_answer, []))
  /\
  (serve grade_answer Scenario.grader Scenario.body_zero_answer
   = (Some missing_data, [])
   /\ serve grade_answer_backend Scenario.grader Scenario.body_zero_answer
      = (Some missing_question_or_answer, [])).
Proof.
  split.
  - apply (@grade_answer_falsy_answer_is_missing Scenario.grader _
             (JString [])); reflexivity.
  - apply (@grade_answer_falsy_answer_is_missing Scenario.grader _
             (JNumber 0 0)); reflexivity.
Defined.

End RouteFacts.

(* ================================================================== *)
(** * The session and its countdown                                    *)
(* ================================================================== *)

Module ClientFacts.

Local Open Scope Z_scope.

(** ** The store *)

Lemma find_update id f cs :
  (forall c, Cand.id (f c) = Cand.id c) ->
  find_candidate id (updateCandidate id f cs)
  = option_map f (find_candidate id cs).
Proof.
  intros Hid. unfold find_candidate, updateCandidate.
  induction cs as [|c cs IH]; simpl; auto.
  destruct (Cand.id c =? id) eqn:E; simpl.
  - now rewrite Hid, E.
  - now rewrite E.
Qed.

Lemma update_update id f g cs :
  (forall c, Cand.id (f c) = Cand.id c) ->
  updateCandidate id g (updateCandidate id f cs)
  = updateCandidate id (fun c => g (f c)) cs.
Proof.
  intros Hid. unfold updateCandidate. rewrite map_map.
  apply map_ext. intros c.
  destruct (Cand.id c =? id) eqn:E.
  - now rewrite Hid, E.
  - now rewrite E.
Qed.

Lemma update_ext id f g cs :
  (forall c, f c = g c) -> updateCandidate id f cs = updateCandidate id g cs.
Proof.
  intros H. unfold updateCandidate. apply map_ext. intros c.
  now rewrite H.
Qed.

(** ** The timer effect *)

Lemma effect_candidates v :
  View.candidates (fst (effect v)) = View.candidates v.
Proof.
  unfold effect, startTimer.
  destruct (View.questions v); auto.
  destruct (View.active v); auto.
  destruct (find_candidate z (View.candidates v)) as [c|];
    [destruct (Cand.paused c); auto|];
    destruct (nth_error _ _); auto.
Qed.

Lemma effect_currentIndex v :
  View.currentIndex (fst (effect v)) = View.currentIndex v.
Proof.
  unfold effect, startTimer.
  destruct (View.questions v); auto.
  destruct (View.active v); auto.
  destruct (find_candidate z (View.candidates v)) as [c|];
    [destruct (Cand.paused c); auto|];
    destruct (nth_error _ _); auto.
Qed.

Lemma render_candidates a v :
  View.candidates (view (render a v)) = View.candidates v.
Proof.
  unfold render. pose proof (effect_candidates v) as H.
  destruct (effect v). exact H.
Qed.

Lemma render_currentIndex a v :
  View.currentIndex (view (render a v)) = View.currentIndex v.
Proof.
  unfold render. pose proof (effect_currentIndex v) as H.
  destruct (effect v). exact H.
Qed.

Lemma render_grading a v : grading (render a v) = grading a.
Proof. unfold render. now destruct (effect v). Qed.

(** With the active candidate paused, a render leaves the timer off. *)
Lemma effect_paused v id c :
  View.active v = Some id ->
  find_candidate id (View.candidates v) = Some c ->
  Cand.paused c = true ->
  effect v = (v, None).
Proof.
  intros Ha Hf Hp. unfold effect. rewrite Ha, Hf, Hp.
  now destruct (View.questions v).
Qed.

(** With the active candidate running on an existing question, a render
    starts the countdown at the stored value. *)
Lemma effect_running v id c q r :
  View.active v = Some id ->
  find_candidate id (View.candidates v) = Some c ->
  Cand.paused c = false ->
  nth_error (View.questions v) (View.currentIndex v) = Some q ->
  timer_remaining c = Some r ->
  effect v = (set_remaining r v, Some v).
Proof.
  intros Ha Hf Hp Hq Hr. unfold effect, startTimer.
  rewrite Hq, Ha, Hf, Hp.
  destruct (View.questions v) eqn:E.
  - now destruct (View.currentIndex v).
  - unfold initialRemaining. unfold timer_remaining in Hr.
    destruct (Cand.timer c); [|discriminate]. now rewrite Hr.
Qed.

(** ** Pausing *)

Lemma pause_shape a now id c :
  View.active (view a) = Some id ->
  find_candidate id (View.candidates (view a)) = Some c ->
  pauseActive now a
  = {| view := update id (pause_update now (View.remaining (view a))) (view a);
       interval := None;
       grading := grading a;
       summarizing := summarizing a |}.
Proof.
  intros Ha Hf. unfold pauseActive. rewrite Ha. unfold render.
  fold (pause_update now (View.remaining (view a))).
  rewrite (@effect_paused _ id (pause_update now (View.remaining (view a)) c));
    auto.
  simpl. rewrite find_update by reflexivity. now rewrite Hf.
Qed.

Lemma update_twice id f g v :
  (forall c, Cand.id (f c) = Cand.id c) ->
  update id g (update id f v) = update id (fun c => g (f c)) v.
Proof.
  intros Hid. unfold update, set_candidates. simpl.
  now rewrite update_update.
Qed.

Lemma update_same id f g v :
  (forall c, f c = g c) -> update id f v = update id g v.
Proof.
  intros H. unfold update. now rewrite (update_ext id f g _ H).
Qed.

(** C9. For an active candidate, pausing twice in a row leaves what pausing
    once leaves: the countdown is stopped after the first call and after the
    second, the candidate is paused, the stored remaining time is the
    countdown of the page and is not decremented again, and the countdown
    of the page does not move.  The second call only refreshes the time
    stamp of the timer, so the two states are equal when the clock did not
    move between the calls. *)
Theorem pause_twice_is_pause_once (a : App) (t1 t2 id : Z) (c : Cand.t) :
  View.active (view a) = Some id ->
  find_candidate id (View.candidates (view a)) = Some c ->
  let once := pauseActive t1 a in
  let twice := pauseActive t2 once in
  (interval once = None /\ interval twice = None)
  /\ (exists c1 c2,
         find_candidate id (View.candidates (view once)) = Some c1 /\
         find_candidate id (View.candidates (view twice)) = Some c2 /\
         Cand.paused c1 = true /\ Cand.paused c2 = true /\
         timer_remaining c1 = Some (View.remaining (view a)) /\
         timer_remaining c2 = Some (View.remaining (view a)) /\
         timer_question c2 = timer_question c1 /\
         Cand.answers c2 = Cand.answers c1 /\
         Cand.currentIndex c2 = Cand.currentIndex c1)
  /\ View.remaining (view twice) = View.remaining (view once)
  /\ twice = restamp t2 id once
  /\ twice = pauseActive t2 a
  /\ (t1 = t2 -> twice = once).
Proof.
  intros Ha Hf once twice.
  set (r := View.remaining (view a)).
  assert (E1 : once = {| view := update id (pause_update t1 r) (view a);
                         interval := None; grading := grading a;
                         summarizing := summarizing a |})
    by (apply pause_shape with (c := c); assumption).
  assert (Hf1 : find_candidate id (View.candidates (view once))
                = Some (pause_update t1 r c)).
  { rewrite E1. simpl. rewrite find_update by reflexivity. now rewrite Hf. }
  assert (Ha1 : View.active (view once) = Some id) by (now rewrite E1).
  assert (Hr1 : View.remaining (view once) = r) by (now rewrite E1).
  assert (Hsame : forall x, pause_update t2 r (pause_update t1 r x)
                            = pause_update t2 r x) by (now intros []).
  assert (E2 : twice = {| view := update id (pause_update t2 r) (view a);
                          interval := None; grading := grading a;
                          summarizing := summarizing a |}).
  { unfold twice.
    rewrite (@pause_shape once t2 id (pause_update t1 r c) Ha1 Hf1).
    rewrite Hr1. rewrite E1. simpl view. simpl grading. simpl summarizing.
    rewrite update_twice by reflexivity.
    now rewrite (update_same id _ _ (view a) Hsame). }
  assert (Hf2 : find_candidate id (View.candidates (view twice))
                = Some (pause_update t2 r c)).
  { rewrite E2. simpl. rewrite find_update by reflexivity. now rewrite Hf. }
  split; [split; [now rewrite E1|now rewrite E2]|].
  split.
  { exists (pause_update t1 r c), (pause_update t2 r c).
    repeat split; auto. }
  split; [rewrite E2, E1; reflexivity|].
  split.
  { rewrite E2. unfold restamp. rewrite E1. simpl view. simpl interval.
    simpl grading. simpl summarizing.
    rewrite update_twice by reflexivity. reflexivity. }
  split.
  { rewrite E2. symmetry. apply pause_shape with (c := c); assumption. }
  intros <-. now rewrite E2, E1.
Qed.

(** The theorem at work: a candidate on its first question, three seconds
    in, is paused at 5000 and again at 5400. *)
Lemma pause_twice_is_pause_once_witness :
  let a := Scenario.after (Scenario.started ++ Scenario.ticks 3 2000) in
  let once := pauseActive 5000 a in
  let twice := pauseActive 5400 once in
  View.remaining (view a) = 17
  /\ interval once = None /\ interval twice = None
  /\ View.remaining (view twice) = 17
  /\ twice = restamp 5400 1000 once.
Proof.
  intros a once twice.
  assert (Ha : View.active (view a) = Some 1000) by reflexivity.
  destruct (find_candidate 1000 (View.candidates (view a))) as [c|] eqn:Hf;
    [|discriminate Hf].
  destruct (@pause_twice_is_pause_once a 5000 5400 1000 c Ha Hf)
    as ((H1 & H2) & _ & H3 & H4 & _).
  split; [reflexivity|]. split; [exact H1|]. split; [exact H2|].
  split; [|exact H4].
  fold once twice in H3. rewrite H3. reflexivity.
Defined.

(** ** Opening a candidate *)

Lemma open_questions_nonempty cand fetched qs fresh :
  open_questions cand fetched = Some (qs, fresh) -> qs <> [].
Proof.
  unfold open_questions. destruct (Cand.questions cand) eqn:E.
  - destruct fetched as [l|]; [|discriminate].
    destruct (length l =? 6)%nat eqn:L; [|discriminate].
    intros H; inversion H; subst. intros ->. discriminate L.
  - intros H; inversion H; subst. discriminate.
Qed.

Lemma clamped_question (qs : list Question.t) idx :
  qs <> [] -> exists q, nth_error qs (Nat.min idx (length qs - 1)) = Some q.
Proof.
  intros H.
  destruct (nth_error qs (Nat.min idx (length qs - 1))) as [q|] eqn:E; eauto.
  apply nth_error_None in E. destruct qs; [congruence|]. simpl in E. lia.
Qed.

(** What [openCandidate] leaves: the countdown of the page and the stored
    one are the reconstructed value, and the candidate runs. *)
Lemma open_shape a id resume fetched now cand qs fresh :
  find_candidate id (View.candidates (view a)) = Some cand ->
  open_questions cand fetched = Some (qs, fresh) ->
  let a' := openCandidate (View.candidates (view a)) id resume fetched now a in
  let rem := open_remaining cand qs (open_index resume cand) now in
  View.remaining (view a') = rem
  /\ (exists c', find_candidate id (View.candidates (view a')) = Some c' /\
                 timer_remaining c' = Some rem /\ Cand.paused c' = false)
  /\ interval a' <> None.
Proof.
  intros Hf Hq a' rem.
  pose proof (open_questions_nonempty _ _ Hq) as Hne.
  destruct (clamped_question (open_index resume cand) Hne) as [q Hnth].
  unfold a', openCandidate. rewrite Hf, Hq. fold rem.
  set (tm := Some {| Timer.questionIndex := Some (open_index resume cand);
                     Timer.remaining := Some rem;
                     Timer.lastUpdated := now |}).
  set (v0 := if fresh then update id (with_questions qs) (view a) else view a).
  set (v1 := set_active (Some id) _).
  assert (Hc0 : exists c0, find_candidate id (View.candidates v0) = Some c0).
  { unfold v0. destruct fresh; eauto.
    simpl. rewrite find_update by reflexivity. rewrite Hf. simpl. eauto. }
  destruct Hc0 as [c0 Hc0].
  assert (Hc1 : find_candidate id (View.candidates v1)
                = Some (with_timer tm false c0)).
  { unfold v1. simpl. rewrite find_update by reflexivity. now rewrite Hc0. }
  assert (E : effect v1 = (set_remaining rem v1, Some v1)).
  { apply effect_running with (id := id) (c := with_timer tm false c0) (q := q);
      auto. }
  unfold render. rewrite E. simpl.
  split; [reflexivity|]. split; [|discriminate].
  exists (with_timer tm false c0). repeat split; auto.
Qed.

(** C2. A candidate is opened on question [i], and its stored timer is for
    question [i] and holds a number [r] as remaining time.  Then the
    countdown that [openCandidate] reconstructs, on the page and in the
    store, is [max 0 (r - floor ((now - lastUpdated) / 1000))], and the
    countdown runs.  (The code does not look at the [paused] flag here, so
    this holds whatever the flag was.) *)
Theorem openCandidate_reconstructs_remaining
        (a : App) (id : Z) (resume : bool) (fetched : option (list Question.t))
        (now : Z) (cand : Cand.t) (qs : list Question.t) (fresh : bool)
        (tm : Timer.t) (r : Z) :
  find_candidate id (View.candidates (view a)) = Some cand ->
  open_questions cand fetched = Some (qs, fresh) ->
  Cand.timer cand = Some tm ->
  Timer.questionIndex tm = Some (open_index resume cand) ->
  Timer.remaining tm = Some r ->
  let a' := openCandidate (View.candidates (view a)) id resume fetched now a in
  let rem := Z.max 0 (r - (now - Timer.lastUpdated tm) / 1000) in
  View.remaining (view a') = rem
  /\ (exists c', find_candidate id (View.candidates (view a')) = Some c' /\
                 timer_remaining c' = Some rem /\ Cand.paused c' = false)
  /\ interval a' <> None.
Proof.
  intros Hf Hq Ht Hi Hr a' rem.
  assert (E : open_remaining cand qs (open_index resume cand) now = rem).
  { unfold open_remaining. rewrite Ht, Hi, Hr. now rewrite Nat.eqb_refl. }
  subst rem a'. rewrite <- E. eapply open_shape; eauto.
Qed.

(** The theorem at work: three seconds into the first question the page is
    left at 4000 and the session opened again at 9500; five whole seconds
    went by and 17 - 5 = 12 remain. *)
Lemma openCandidate_reconstructs_remaining_witness :
  let a := Scenario.after (Scenario.started ++ Scenario.ticks 3 2000) in
  View.remaining (view (handleOpenCandidate 1000 None 9500 a)) = 12.
Proof.
  intros a.
  destruct (find_candidate 1000 (View.candidates (view a))) as [cand|] eqn:Hf;
    [|discriminate Hf].
  assert (Hc : Some cand = find_candidate 1000 (View.candidates (view a)))
    by (now rewrite Hf).
  vm_compute in Hc. injection Hc as ->.
  refine (proj1 (@openCandidate_reconstructs_remaining a 1000 true None 9500
                   _ Scenario.six false
                   {| Timer.questionIndex := Some 0%nat;
                      Timer.remaining := Some 17;
                      Timer.lastUpdated := 4000 |} 17
                   Hf eq_refl eq_refl eq_refl eq_refl)).
Defined.

(** ** Expiry *)

Lemma handleSubmit_records cl auto v id c q :
  View.active cl = Some id ->
  find_candidate id (View.candidates cl) = Some c ->
  nth_error (View.questions cl) (View.currentIndex cl) = Some q ->
  handleSubmit cl auto v
  = Recorded
      (set_submitting true
         (set_answer []
            (update id
               (fun c0 => with_answers (Cand.answers c0 ++ [newAnswer cl q auto])
                                       (Cand.currentIndex c0 + 1)%nat None c0)
               v))).
Proof.
  intros Ha Hf Hq. unfold handleSubmit. now rewrite Ha, Hf, Hq.
Qed.

(** Without a question at the current index nothing is recorded. *)
Lemma handleSubmit_without_question cl auto v :
  nth_error (View.questions cl) (View.currentIndex cl) = None ->
  forall v', handleSubmit cl auto v <> Recorded v'.
Proof.
  intros Hq v'. unfold handleSubmit. rewrite Hq.
  destruct (View.active cl); [|discriminate].
  destruct (find_candidate _ _); discriminate.
Qed.

(** The callback of an interval closes over the render that armed it, and
    the page shows that render with the countdown set. *)
Lemma render_closure a v cl :
  interval (render a v) = Some cl ->
  cl = v /\ View.answer (view (render a v)) = View.answer v.
Proof.
  unfold render, effect, startTimer.
  destruct (View.questions v); [discriminate|].
  destruct (View.active v) as [id|]; [|discriminate].
  destruct (find_candidate id (View.candidates v)) as [c|];
    [destruct (Cand.paused c); [discriminate|]|];
    (destruct (nth_error _ _); [|discriminate]);
    simpl; intros H; inversion H; auto.
Qed.

(** C3, as the code has it.  The interval fires with one second or less on
    the countdown, for an active candidate on an existing question.  Then
    one answer is appended to the candidate, flagged [autoSubmitted], for the
    current question, without any check of its text.  The text is read from
    the render that armed the interval, the one of the previous tick when
    the countdown was running: the sentinel when the answer box was blank in
    that render and the text the box held in it otherwise; what was typed
    since then is not seen.  The candidate's index moves on by one and its
    timer is dropped; the grade is awaited, and when that request settles
    with anything but a [null] reply for a candidate of the page, the page
    moves to the next question if there is one. *)
Theorem expiry_auto_submits
        (a : App) (now : Z) (cl : View.t) (id : Z) (c : Cand.t)
        (q : Question.t) :
  interval a = Some cl ->
  View.active cl = Some id ->
  find_candidate id (View.candidates cl) = Some c ->
  nth_error (View.questions cl) (View.currentIndex cl) = Some q ->
  View.remaining (view a) <= 1 ->
  let a' := tick now a in
  (exists ans,
      Answer.autoSubmitted ans = true /\
      Answer.responseText ans
      = (if blank (View.answer cl) then sentinel else View.answer cl) /\
      Answer.questionId ans = Question.id q /\
      Answer.questionText ans = Question.text q /\
      View.candidates (view a')
      = updateCandidate id
          (fun c0 => with_answers (Cand.answers c0 ++ [ans])
                                  (Cand.currentIndex c0 + 1)%nat None c0)
          (View.candidates (view a)))
  /\ grading a' = grading a ++ [cl]
  /\ (forall a2 i grade now2,
         nth_error (grading a2) i = Some cl ->
         (View.currentIndex cl + 1 < length (View.questions cl))%nat ->
         grade_breaks id grade (view a2) = false ->
         exists a3,
           grade_settled i grade now2 a2 = Some a3 /\
           View.currentIndex (view a3) = (View.currentIndex cl + 1)%nat)
  /\ (forall a0 v cl0,
         interval (render a0 v) = Some cl0 ->
         cl0 = v /\ View.answer (view (render a0 v)) = View.answer v).
Proof.
  intros Hi Ha Hf Hq Hr a'.
  split; [|split; [|split]].
  - exists (newAnswer cl q true). simpl.
    rewrite andb_true_r. repeat split.
    unfold a', tick. rewrite Hi, Ha.
    assert (L : (View.remaining (view a) - 1 <=? 0) = true)
      by (apply Z.leb_le; lia).
    rewrite L. rewrite (@handleSubmit_records cl true _ id c q Ha Hf Hq).
    rewrite render_candidates. simpl.
    now rewrite update_update by reflexivity.
  - unfold a', tick. rewrite Hi, Ha.
    assert (L : (View.remaining (view a) - 1 <=? 0) = true)
      by (apply Z.leb_le; lia).
    rewrite L. rewrite (@handleSubmit_records cl true _ id c q Ha Hf Hq).
    now rewrite render_grading.
  - intros a2 i grade now2 Hn Hlt Hb.
    unfold grade_settled. rewrite Hn, Ha, Hb.
    apply Nat.ltb_lt in Hlt. rewrite Hlt.
    eexists. split; [reflexivity|].
    now rewrite render_currentIndex.
  - intros a0 v cl0. apply render_closure.
Qed.

(** The time an expiry records is the budget less the countdown of the
    render the interval was armed in, and that render is not the last one of
    the countdown at 0: the budget itself is recorded only when the countdown
    was already 0 when the timer started. *)
Lemma expiry_time_taken (a : App) (now : Z) (cl : View.t) (id : Z) (c : Cand.t)
      (q : Question.t) :
  interval a = Some cl ->
  View.active cl = Some id ->
  find_candidate id (View.candidates cl) = Some c ->
  nth_error (View.questions cl) (View.currentIndex cl) = Some q ->
  View.remaining (view a) <= 1 ->
  View.candidates (view (tick now a))
  = updateCandidate id
      (fun c0 =>
         with_answers (Cand.answers c0 ++ [newAnswer cl q true])
                      (Cand.currentIndex c0 + 1)%nat None c0)
      (View.candidates (view a))
  /\ Answer.timeTakenSeconds (newAnswer cl q true)
     = difficultySeconds (Question.difficulty q) - View.remaining cl.
Proof.
  intros Hi Ha Hf Hq Hr. split; [|reflexivity].
  unfold tick. rewrite Hi, Ha.
  assert (L : (View.remaining (view a) - 1 <=? 0) = true)
    by (apply Z.leb_le; lia).
  rewrite L. rewrite (@handleSubmit_records cl true _ id c q Ha Hf Hq).
  rewrite render_candidates. simpl.
  now rewrite update_update by reflexivity.
Qed.

(** The theorem at work: nineteen seconds into the first question one
    second is left; the next tick records the answer and awaits its grade. *)
Lemma expiry_auto_submits_witness :
  let a := Scenario.after (Scenario.started ++ Scenario.ticks 19 2000) in
  View.remaining (view a) = 1
  /\ length (grading (tick 21000 a)) = 1%nat.
Proof.
  intros a. split; [vm_compute; reflexivity|].
  destruct (interval a) as [cl|] eqn:Hi;
    [|vm_compute in Hi; discriminate Hi].
  assert (Hcl : Some cl = interval a) by (now rewrite Hi).
  vm_compute in Hcl. injection Hcl as ->.
  match type of Hi with
  | _ = Some ?cl =>
      assert (Ha : View.active cl = Some 1000) by (vm_compute; reflexivity);
      destruct (find_candidate 1000 (View.candidates cl)) as [c|] eqn:Hf;
        [|vm_compute in Hf; discriminate Hf];
      destruct (nth_error (View.questions cl) (View.currentIndex cl))
        as [q|] eqn:Hq; [|vm_compute in Hq; discriminate Hq]
  end.
  assert (Hr : View.remaining (view a) <= 1) by (vm_compute; discriminate).
  destruct (expiry_auto_submits a 21000 Hi Ha Hf Hq Hr) as (_ & Hg & _ & _).
  rewrite Hg. vm_compute. reflexivity.
Defined.

(** C3 as it is worded fails.  The candidate types "x" into the box of the
    first question (easy, 20 seconds) and submits nothing; the countdown
    expires.  The answer recorded is flagged [autoSubmitted], its text is
    "x" and not the sentinel, and its time is 19 seconds, since the countdown
    still shows 1 when the last tick submits. *)
Lemma expiry_keeps_typed_text :
  run_events Scenario.typed_then_expired (init []) <> None
  /\ map Cand.answers
         (View.candidates (view (Scenario.after Scenario.typed_then_expired)))
     = [[{| Answer.questionId := str "q1";
            Answer.questionText := str "Explain q1";
            Answer.difficulty := easy;
            Answer.responseText := str "x";
            Answer.timeTakenSeconds := 19;
            Answer.autoSubmitted := true;
            Answer.score := Some JNull;
            Answer.feedback := Some JNull |}]]
  /\ str "x" <> sentinel
  /\ difficultySeconds easy = 20.
Proof.
  split; [vm_compute; discriminate|].
  split; [vm_compute; reflexivity|].
  split; [discriminate|reflexivity].
Qed.

(** What is typed after the last tick is not seen by the expiry: with "late"
    in the answer box, the sentinel is recorded. *)
Lemma expiry_drops_late_text :
  option_map (fun a => View.answer (view a))
             (run_events (Scenario.started ++ Scenario.ticks 19 2000
                          ++ [Type_ (str "late")]) (init []))
  = Some (str "late")
  /\ map (fun c => map Answer.responseText (Cand.answers c))
         (View.candidates
            (view (Scenario.after Scenario.typed_in_the_last_second)))
     = [[sentinel]].
Proof. split; vm_compute; reflexivity. Qed.

(** ** The invariant on answers *)

(** C4 fails on the code.  A candidate uploads a resume, answers the six
    questions by hand, gets the summary and closes it; the finished session
    is opened again and one second passes.  The page shows the last
    question with an expired countdown, the interval fires and a seventh
    answer is recorded for six questions. *)
Theorem finished_session_takes_a_seventh_answer :
  exists a,
    Reachable a
    /\ map (fun c => (length (Cand.questions c), length (Cand.answers c),
                      Cand.currentIndex c, nullish (Cand.finalScore c)))
           (View.candidates (view a))
       = [(6, 7, 7, false)]%nat.
Proof.
  exists (Scenario.after Scenario.finished_then_reopened). split.
  - exists Scenario.finished_then_reopened. unfold Scenario.after.
    destruct (run_events Scenario.finished_then_reopened (init [])) eqn:E;
      [reflexivity|].
    vm_compute in E. discriminate E.
  - vm_compute. reflexivity.
Qed.

End ClientFacts.

(* ================================================================== *)
(** * What the extractors return                                       *)
(* ================================================================== *)

Module ShapeFacts.
Import RegexFacts.

(** What [match] returns is the match that starts first. *)
Lemma match0_first r t m :
  match0 r t = Some m ->
  exists pre post,
    t = pre ++ m ++ post /\ Matches r m /\
    (forall pre' w post',
        t = pre' ++ w ++ post' -> Matches r w -> length pre <= length pre').
Proof.
  unfold match0, exec. destruct (exec_from r 0 t) as [[j m']|] eqn:E;
    [|discriminate].
  simpl. intros H; inversion H; subst m'. clear H.
  destruct (exec_from_some _ _ _ E) as (pre & post & -> & _ & M & _ & Hpre).
  exists pre, post. split; [reflexivity|]. split; [exact M|].
  intros pre' w post' Heq Mw.
  destruct (Nat.le_gt_cases (length pre) (length pre')) as [|Hlt]; auto.
  exfalso.
  apply app_eq_app in Heq as [l [[-> Hr]|[-> Hr]]].
  - destruct l as [|c l]; [rewrite app_nil_r in Hlt; lia|].
    pose proof (Hpre pre' (c :: l) eq_refl ltac:(discriminate)) as Hn.
    rewrite <- Hr in Hn.
    destruct (match_here_complete post' Mw) as [rest Hs]. congruence.
  - rewrite length_app in Hlt. lia.
Qed.

Lemma count_none (p : char -> bool) (x : char) (w : text) :
  p x = false -> Forall (fun c => p c = true) w ->
  count_occ N.eq_dec w x = 0.
Proof.
  intros Hx Hw. apply count_occ_not_In. intros Hin.
  rewrite Forall_forall in Hw. apply Hw in Hin. congruence.
Qed.

(** X1. [extractEmail] returns a part of the text that has the shape of an
    address, with one at sign, and no part of that shape starts earlier in
    the text. *)
Theorem extractEmail_returns_first_address (t m : text) :
  extractEmail t = Some m ->
  exists pre post,
    t = pre ++ m ++ post /\ EmailLike m /\
    count_occ N.eq_dec m 64%N = 1 /\
    (forall pre' w post',
        t = pre' ++ w ++ post' -> EmailLike w -> length pre <= length pre').
Proof.
  unfold extractEmail. intros H.
  destruct (match0_first _ _ H) as (pre & post & Ht & M & Hfirst).
  exists pre, post. split; [exact Ht|].
  apply EmailFacts.email_matches in M. split; [exact M|]. split.
  - destruct M as (loc & dom & tld & -> & _ & Al & _ & Ad & _ & At).
    rewrite count_occ_app. simpl. rewrite count_occ_app. simpl.
    rewrite (@count_none is_local 64%N loc eq_refl Al).
    rewrite (@count_none is_domain 64%N dom eq_refl Ad).
    rewrite (@count_none is_lower 64%N tld eq_refl At).
    reflexivity.
  - intros pre' w post' Hw Mw. apply (Hfirst pre' w post' Hw).
    now apply EmailFacts.email_matches.
Qed.

(** The theorem at work. *)
Lemma extractEmail_returns_first_address_witness :
  exists pre post,
    str "a@b.cc d@e.ff" = pre ++ str "a@b.cc" ++ post /\
    EmailLike (str "a@b.cc").
Proof.
  destruct (@extractEmail_returns_first_address (str "a@b.cc d@e.ff")
              (str "a@b.cc") eq_refl) as (pre & post & H1 & H2 & _).
  exists pre, post. split; assumption.
Defined.

(** An optional prefix of the phone pattern has at most five characters: a
    plus sign, up to three digits and a separator. *)
Lemma prefix_shape w :
  Matches (Opt phone_prefix) w ->
  length w <= 5 /\
  Forall (fun c => is_digit c || is_sep c || is_char 43 c = true) w.
Proof.
  intros M. inversion M; subst.
  - split; [simpl; lia|constructor].
  - unfold phone_prefix in H0.
    apply seq_matches in H0 as (p & w1 & -> & Mp & M1).
    apply seq_matches in M1 as (d & s & -> & Md & Ms).
    inversion Mp; subst. inversion Md; subst. inversion Ms; subst.
    simpl in *. split.
    + rewrite !length_app. lia.
    + repeat (apply Forall_app; split);
        (eapply Forall_impl; [|eassumption]); intros c Hc; simpl in Hc;
        rewrite Hc; now rewrite ?orb_true_r.
Qed.

Lemma core_shape w :
  PhoneLike w ->
  10 <= length w <= 12 /\
  Forall (fun c => is_digit c || is_sep c || is_char 43 c = true) w.
Proof.
  assert (D : forall l, all is_digit l ->
                        Forall (fun c => is_digit c || is_sep c
                                         || is_char 43 c = true) l).
  { intros l Hl. eapply Forall_impl; [|exact Hl].
    intros c Hc. simpl in Hc. now rewrite Hc. }
  intros [[L A]|(a & s1 & b & s2 & c & -> & La & Aa & H1 & Lb & Ab & H2 & Lc & Ac)].
  - split; [lia|now apply D].
  - split.
    + rewrite length_app. simpl. rewrite length_app. simpl. lia.
    + apply Forall_app. split; [now apply D|].
      constructor; [now rewrite H1, orb_true_r|].
      apply Forall_app. split; [now apply D|].
      constructor; [now rewrite H2, orb_true_r|now apply D].
Qed.

(** X2. [extractPhone] returns a part of the text of ten to seventeen characters,
    each a digit, a separator or a plus sign, that ends with ten digits or a
    3-3-4 group. *)
Theorem extractPhone_shape (t m : text) :
  extractPhone t = Some m ->
  occurs_in m t /\ 10 <= length m <= 17 /\
  Forall (fun c => is_digit c || is_sep c || is_char 43 c = true) m /\
  exists pfx core, m = pfx ++ core /\ length pfx <= 5 /\ PhoneLike core.
Proof.
  unfold extractPhone. intros H.
  apply match0_some in H as [Hocc M]. split; [exact Hocc|].
  unfold phone_re in M.
  apply seq_matches in M as (pfx & core & -> & Mp & Mc).
  apply PhoneFacts.core_matches in Mc.
  destruct (prefix_shape Mp) as [Lp Fp].
  destruct (core_shape Mc) as [Lc Fc].
  split; [rewrite length_app; lia|].
  split; [apply Forall_app; now split|].
  exists pfx, core. auto.
Qed.

(** The theorem at work. *)
Lemma extractPhone_shape_witness :
  occurs_in (str "+91 9876543210") (str "tel +91 9876543210 x")
  /\ 10 <= length (str "+91 9876543210") <= 17.
Proof.
  destruct (@extractPhone_shape (str "tel +91 9876543210 x")
              (str "+91 9876543210") eq_refl) as (H1 & H2 & _).
  split; assumption.
Defined.

Lemma occurs_in_trans (a b c : text) :
  occurs_in a b -> occurs_in b c -> occurs_in a c.
Proof.
  intros (p1 & q1 & ->) (p2 & q2 & ->).
  exists (p2 ++ p1), (q1 ++ q2). now rewrite <- !app_assoc.
Qed.

Lemma drop_space_suffix s : exists pre, s = pre ++ drop_space s.
Proof.
  induction s as [|c s [pre IH]]; simpl.
  - now exists [].
  - destruct (is_space c).
    + exists (c :: pre). simpl. now f_equal.
    + now exists [].
Qed.

Lemma drop_space_head s c r : drop_space s = c :: r -> is_space c = false.
Proof.
  induction s as [|d s IH]; simpl; [discriminate|].
  destruct (is_space d) eqn:E; auto.
  intros H. inversion H. now subst.
Qed.

(** [trim] cuts a prefix and a suffix off. *)
Lemma trim_cuts s : exists pre post, s = pre ++ trim s ++ post.
Proof.
  unfold trim.
  destruct (drop_space_suffix s) as [pre Hpre].
  destruct (drop_space_suffix (rev (drop_space s))) as [q Hq].
  exists pre, (rev q).
  rewrite <- rev_app_distr, <- Hq, rev_involutive. exact Hpre.
Qed.

Lemma trim_first s c r : trim s = c :: r -> is_space c = false.
Proof.
  intros H. unfold trim in H.
  destruct (drop_space_suffix (rev (drop_space s))) as [q Hq].
  apply (f_equal (@rev char)) in Hq.
  rewrite rev_involutive, rev_app_distr, H in Hq. simpl in Hq.
  now apply drop_space_head in Hq.
Qed.

Lemma trim_last s i c : trim s = i ++ [c] -> is_space c = false.
Proof.
  intros H. unfold trim in H.
  apply (f_equal (@rev char)) in H.
  rewrite rev_involutive, rev_app_distr in H. simpl in H.
  now apply drop_space_head in H.
Qed.

(** Every piece of a split is a part of the text. *)
Lemma split_go_occurs r x : forall s skip piece,
    In x (split_go r skip piece s) ->
    (exists a b, skipn skip s = a ++ b /\ x = rev piece ++ a)
    \/ occurs_in x s.
Proof.
  induction s as [|c s IH]; intros skip piece Hin.
  - simpl in Hin. destruct Hin as [<-|[]]. left. exists [], [].
    split; [now destruct skip|now rewrite app_nil_r].
  - cbn [split_go] in Hin. destruct skip as [|n].
    + destruct (match_here r (c :: s)) as [rest|].
      * destruct (length (c :: s) - length rest) as [|n].
        -- assert (Hc : In x (split_go r 0 [c] s) ->
                        (exists a b, s = a ++ b /\ x = c :: a)
                        \/ occurs_in x (c :: s)).
           { intros H. apply IH in H as [(a & b & Ha & ->)|(p & q & ->)].
             - left. now exists a, b.
             - right. now exists (c :: p), q. }
           destruct piece as [|d piece].
           ++ apply Hc in Hin as [(a & b & -> & ->)|H]; [left|now right].
              now exists (c :: a), b.
           ++ destruct Hin as [<-|Hin].
              ** left. exists [], (c :: s). now rewrite app_nil_r.
              ** right. apply Hc in Hin as [(a & b & -> & ->)|H]; auto.
                 now exists [], b.
        -- destruct Hin as [<-|Hin].
           ++ left. exists [], (c :: s). now rewrite app_nil_r.
           ++ right. apply IH in Hin as [(a & b & Ha & ->)|(p & q & ->)].
              ** simpl. exists (c :: firstn n s), b.
                 simpl. rewrite <- Ha, firstn_skipn. reflexivity.
              ** now exists (c :: p), q.
      * apply IH in Hin as [(a & b & Ha & ->)|(p & q & ->)].
        -- left. simpl in Ha. subst s. exists (c :: a), b.
           simpl. now rewrite <- app_assoc.
        -- right. now exists (c :: p), q.
    + apply IH in Hin as [(a & b & Ha & ->)|(p & q & ->)].
      * left. now exists a, b.
      * right. now exists (c :: p), q.
Qed.

Lemma split_occurs r x s : In x (split r s) -> occurs_in x s.
Proof.
  unfold split. destruct s as [|c s].
  - destruct (match_here r []); simpl; [tauto|].
    intros [<-|[]]. now exists [], [].
  - intros H. apply split_go_occurs in H as [(a & b & Ha & ->)|H]; auto.
    simpl in Ha. exists [], b. simpl. exact Ha.
Qed.

(** A line feed always ends a line. *)
Lemma newline_here s : match_here newline_re (10%N :: s) = Some s.
Proof. reflexivity. Qed.

Lemma split_go_no_line_feed x : forall s skip piece,
    In x (split_go newline_re skip piece s) ->
    ~ In 10%N piece -> ~ In 10%N x.
Proof.
  induction s as [|c s IH]; intros skip piece Hin Hp.
  - simpl in Hin. destruct Hin as [<-|[]]. now rewrite <- in_rev.
  - cbn [split_go] in Hin. destruct skip as [|n]; [|now apply IH in Hin].
    assert (Hrev : ~ In 10%N (rev piece)) by now rewrite <- in_rev.
    destruct (N.eq_dec c 10) as [->|Hc].
    + rewrite newline_here in Hin.
      match type of Hin with
      | In _ (match ?d with _ => _ end) => destruct d as [|n] eqn:E
      end.
      { cbn [length] in E. rewrite Nat.sub_succ_l, Nat.sub_diag in E by lia.
        discriminate. }
      destruct Hin as [<-|Hin]; auto. apply IH in Hin; auto.
    + assert (H1 : ~ In 10%N [c]) by (simpl; intuition congruence).
      assert (H2 : ~ In 10%N (c :: piece)) by (simpl; intuition congruence).
      destruct (match_here newline_re (c :: s)) as [rest|].
      * destruct (length (c :: s) - length rest) as [|n].
        -- destruct piece as [|d piece]; [now apply IH in Hin|].
           destruct Hin as [<-|Hin]; auto. now apply IH in Hin.
        -- destruct Hin as [<-|Hin]; auto. apply IH in Hin; auto.
      * now apply IH in Hin.
Qed.

Lemma split_no_line_feed x s : In x (split newline_re s) -> ~ In 10%N x.
Proof.
  unfold split. destruct s as [|c s].
  - simpl. intros [<-|[]]. auto.
  - intros H. apply split_go_no_line_feed in H; auto.
Qed.

Lemma name_loop_in lines s : forall n i,
    name_loop n i lines = Some s -> In s lines.
Proof.
  induction n as [|n IH]; intros i; simpl; [discriminate|].
  destruct (nth_error lines i) as [l|] eqn:E; [|discriminate].
  destruct (name_test l).
  - intros H. inversion H; subst. eapply nth_error_In; eauto.
  - apply IH.
Qed.

(** X3. The name [extractName] returns is a part of one line of the text: it
    is not empty, it occurs in the text as it stands, it holds no line feed,
    and it neither starts nor ends with white space. *)
Theorem extractName_is_a_trimmed_line_part (t s : text) :
  extractName t = Some s ->
  s <> [] /\ occurs_in s t /\ ~ In 10%N s /\
  (forall c r, s = c :: r -> is_space c = false) /\
  (forall i c, s = i ++ [c] -> is_space c = false).
Proof.
  unfold extractName. intros H. apply name_loop_in in H.
  apply NameFacts.name_lines_are_trimmed_pieces in H
    as (Hne & piece & Hin & ->).
  destruct (trim_cuts piece) as (pre & post & Hcut).
  split; [exact Hne|]. split; [|split; [|split]].
  - apply occurs_in_trans with piece; [now exists pre, post|].
    eapply split_occurs. exact Hin.
  - intros H10. apply split_no_line_feed in Hin. apply Hin.
    rewrite Hcut. apply in_or_app. right. apply in_or_app. now left.
  - intros c r E. eapply trim_first. exact E.
  - intros i c E. eapply trim_last. exact E.
Qed.

(** The theorem at work. *)
Lemma extractName_is_a_trimmed_line_part_witness :
  occurs_in (str "Ada Lovelace")
            (str "  Ada Lovelace " ++ [13; 10]%N ++ str "London")
  /\ ~ In 10%N (str "Ada Lovelace").
Proof.
  destruct (@extractName_is_a_trimmed_line_part
              (str "  Ada Lovelace " ++ [13; 10]%N ++ str "London")
              (str "Ada Lovelace") eq_refl)
    as (_ & H1 & H2 & _).
  split; assumption.
Defined.

End ShapeFacts.

(* ================================================================== *)
(** * The countdown across ticks, pauses and resumes                   *)
(* ================================================================== *)

Module CountdownFacts.
Import ClientFacts.

Local Open Scope Z_scope.

(** X4. Pausing and then resuming, however long the pause lasts, starts the
    countdown again at the value it showed when it was paused: the candidate
    runs, the stored remaining time is that value, and the question, the
    answer box and the recorded answers are as they were. *)
Theorem pause_then_resume_continues
        (a : App) (t1 t2 id : Z) (c : Cand.t) (q : Question.t) :
  View.active (view a) = Some id ->
  find_candidate id (View.candidates (view a)) = Some c ->
  nth_error (View.questions (view a)) (View.currentIndex (view a)) = Some q ->
  let a' := resumeActive t2 (pauseActive t1 a) in
  View.remaining (view a') = View.remaining (view a)
  /\ interval (pauseActive t1 a) = None
  /\ interval a' <> None
  /\ (exists c',
         find_candidate id (View.candidates (view a')) = Some c' /\
         Cand.paused c' = false /\
         timer_remaining c' = Some (View.remaining (view a)) /\
         timer_question c' = timer_question c /\
         Cand.answers c' = Cand.answers c /\
         Cand.currentIndex c' = Cand.currentIndex c)
  /\ View.questions (view a') = View.questions (view a)
  /\ View.currentIndex (view a') = View.currentIndex (view a)
  /\ View.answer (view a') = View.answer (view a)
  /\ View.active (view a') = Some id.
Proof.
  intros Ha Hf Hq a'.
  set (r := View.remaining (view a)).
  assert (E1 : pauseActive t1 a
               = {| view := update id (pause_update t1 r) (view a);
                    interval := None; grading := grading a;
                    summarizing := summarizing a |})
    by (apply pause_shape with (c := c); assumption).
  set (v1 := update id (pause_update t1 r) (view a)) in *.
  assert (Hf1 : find_candidate id (View.candidates v1)
                = Some (pause_update t1 r c)).
  { unfold v1. simpl. rewrite find_update by reflexivity. now rewrite Hf. }
  set (resumed := fun x : Cand.t =>
         with_timer (Some {| Timer.questionIndex := timer_question x;
                             Timer.remaining := timer_remaining x;
                             Timer.lastUpdated := t2 |}) false x).
  set (v2 := set_remaining r (update id resumed v1)).
  assert (Hs : fst (startTimer v1) = set_remaining r v1).
  { unfold startTimer.
    replace (View.questions v1) with (View.questions (view a)) by reflexivity.
    replace (View.currentIndex v1) with (View.currentIndex (view a))
      by reflexivity.
    replace (View.active v1) with (View.active (view a)) by reflexivity.
    rewrite Hq, Ha. cbn [fst]. rewrite Hf1. reflexivity. }
  assert (Hf2 : find_candidate id (View.candidates v2)
                = Some (resumed (pause_update t1 r c))).
  { change (View.candidates v2)
      with (updateCandidate id resumed (View.candidates v1)).
    rewrite find_update by reflexivity. now rewrite Hf1. }
  assert (E2 : a' = {| view := set_remaining r v2; interval := Some v2;
                       grading := grading a; summarizing := summarizing a |}).
  { unfold a'. rewrite E1. unfold resumeActive. simpl view.
    replace (View.active v1) with (View.active (view a)) by reflexivity.
    rewrite Ha, Hs. fold resumed. simpl View.remaining. fold v2.
    unfold render.
    rewrite (@effect_running v2 id (resumed (pause_update t1 r c)) q r);
      auto. }
  rewrite E2, E1. simpl.
  split; [reflexivity|]. split; [reflexivity|]. split; [discriminate|].
  split.
  { rewrite !find_update by reflexivity. rewrite Hf. simpl.
    eexists. split; [reflexivity|]. now repeat split. }
  now repeat split.
Qed.

(** The theorem at work: three seconds into the first question the session
    is paused at 5000 and resumed a minute later; 17 seconds remain. *)
Lemma pause_then_resume_continues_witness :
  let a := Scenario.after (Scenario.started ++ Scenario.ticks 3 2000) in
  View.remaining (view a) = 17
  /\ View.remaining (view (resumeActive 65000 (pauseActive 5000 a))) = 17.
Proof.
  intros a.
  assert (Ha : View.active (view a) = Some 1000) by reflexivity.
  destruct (find_candidate 1000 (View.candidates (view a))) as [c|] eqn:Hf;
    [|discriminate Hf].
  destruct (nth_error (View.questions (view a)) (View.currentIndex (view a)))
    as [q|] eqn:Hq; [|discriminate Hq].
  destruct (@pause_then_resume_continues a 5000 65000 1000 c q Ha Hf Hq)
    as (H & _).
  split; [reflexivity|]. rewrite H. reflexivity.
Defined.

(** X5. With more than one second on the countdown, a tick of the interval
    takes one second off: the page shows one less, the same value is stored
    with the candidate together with the question index and the time of the
    tick, the interval stays armed, and no answer is recorded and no request
    goes out. *)
Theorem tick_counts_down
        (a : App) (now : Z) (cl : View.t) (id : Z) (c : Cand.t)
        (q : Question.t) :
  interval a = Some cl ->
  View.active cl = Some id ->
  View.active (view a) = Some id ->
  find_candidate id (View.candidates (view a)) = Some c ->
  Cand.paused c = false ->
  nth_error (View.questions (view a)) (View.currentIndex (view a)) = Some q ->
  1 < View.remaining (view a) ->
  let a' := tick now a in
  let stamp := Some {| Timer.questionIndex := Some (View.currentIndex cl);
                       Timer.remaining := Some (View.remaining (view a) - 1);
                       Timer.lastUpdated := now |} in
  View.remaining (view a') = View.remaining (view a) - 1
  /\ interval a' <> None
  /\ View.candidates (view a')
     = updateCandidate id (fun x => with_timer stamp (Cand.paused x) x)
         (View.candidates (view a))
  /\ find_candidate id (View.candidates (view a'))
     = Some (with_timer stamp false c)
  /\ map Cand.answers (View.candidates (view a'))
     = map Cand.answers (View.candidates (view a))
  /\ grading a' = grading a /\ summarizing a' = summarizing a.
Proof.
  intros Hi Hc Ha Hf Hp Hq Hr a' stamp.
  set (r := View.remaining (view a)) in *.
  set (f := fun x : Cand.t => with_timer stamp (Cand.paused x) x).
  set (v1 := update id f (view a)).
  assert (Hf1 : find_candidate id (View.candidates v1)
                = Some (with_timer stamp false c)).
  { unfold v1. simpl. rewrite find_update by reflexivity.
    rewrite Hf. simpl. unfold f. now rewrite Hp. }
  assert (E : a' = {| view := set_remaining (r - 1) (set_remaining (r - 1) v1);
                      interval := Some (set_remaining (r - 1) v1);
                      grading := grading a; summarizing := summarizing a |}).
  { unfold a', tick. rewrite Hi, Hc. fold r.
    assert (L : (r - 1 <=? 0) = false) by (apply Z.leb_gt; lia).
    rewrite L. rewrite Z.max_r by lia. fold stamp. fold f. fold v1.
    unfold render.
    rewrite (@effect_running (set_remaining (r - 1) v1) id
               (with_timer stamp false c) q (r - 1)); auto. }
  rewrite E. simpl.
  split; [reflexivity|]. split; [discriminate|]. split; [reflexivity|].
  split; [exact Hf1|]. split; [|now split].
  unfold updateCandidate. rewrite map_map. apply map_ext. intros x.
  now destruct (Cand.id x =? id).
Qed.

(** The theorem at work: the fourth tick of the first question. *)
Lemma tick_counts_down_witness :
  let a := Scenario.after (Scenario.started ++ Scenario.ticks 3 2000) in
  View.remaining (view a) = 17
  /\ View.remaining (view (tick 5000 a)) = 17 - 1.
Proof.
  intros a. split; [vm_compute; reflexivity|].
  destruct (interval a) as [cl|] eqn:Hi;
    [|vm_compute in Hi; discriminate Hi].
  assert (Hcl : Some cl = interval a) by (now rewrite Hi).
  vm_compute in Hcl. injection Hcl as ->.
  destruct (find_candidate 1000 (View.candidates (view a))) as [c|] eqn:Hf;
    [|vm_compute in Hf; discriminate Hf].
  assert (Hc : Some c = find_candidate 1000 (View.candidates (view a)))
    by (now rewrite Hf).
  vm_compute in Hc. injection Hc as ->.
  destruct (nth_error (View.questions (view a)) (View.currentIndex (view a)))
    as [q|] eqn:Hq; [|vm_compute in Hq; discriminate Hq].
  assert (Hr : 1 < View.remaining (view a)) by (vm_compute; reflexivity).
  destruct (@tick_counts_down a 5000 _ 1000 _ q Hi eq_refl eq_refl Hf
              eq_refl Hq Hr) as (H & _).
  rewrite H. vm_compute. reflexivity.
Defined.

End CountdownFacts.

(* ================================================================== *)
(** * What no run of the page undoes                                   *)
(* ================================================================== *)

Module InvariantFacts.
Import ClientFacts.

Local Open Scope Z_scope.

(** ** Answers are kept *)

Lemma keeps_same c c' : Cand.answers c' = Cand.answers c -> keeps c c'.
Proof. intros E. exists []. now rewrite E, app_nil_r. Qed.

Lemma keeps_trans c1 c2 c3 : keeps c1 c2 -> keeps c2 c3 -> keeps c1 c3.
Proof.
  intros [m1 H1] [m2 H2]. exists (m1 ++ m2).
  now rewrite H2, H1, app_assoc.
Qed.

Lemma grade_last_ungraded sc fb : forall l,
    map ungraded (grade_last sc fb l) = map ungraded l.
Proof.
  induction l as [|x l IH]; auto.
  destruct l as [|y l]; [reflexivity|].
  change (grade_last sc fb (x :: y :: l)) with (x :: grade_last sc fb (y :: l)).
  cbn [map]. now rewrite IH.
Qed.

Lemma grows_refl cs : grows cs cs.
Proof.
  exists cs, []. split; [now rewrite app_nil_r|].
  induction cs; constructor; auto. now apply keeps_same.
Qed.

Lemma Forall2_keeps_trans : forall l1 l2 l3,
    Forall2 keeps l1 l2 -> Forall2 keeps l2 l3 -> Forall2 keeps l1 l3.
Proof.
  intros l1 l2 l3 H. revert l3.
  induction H; intros l3 H3; inversion H3; subst; constructor.
  - eapply keeps_trans; eauto.
  - auto.
Qed.

Lemma grows_trans cs1 cs2 cs3 : grows cs1 cs2 -> grows cs2 cs3 -> grows cs1 cs3.
Proof.
  intros (o1 & n1 & -> & H1) (o2 & n2 & -> & H2).
  apply Forall2_app_inv_l in H2 as (o2a & o2b & Ha & Hb & ->).
  exists o2a, (o2b ++ n2). split; [now rewrite app_assoc|].
  eapply Forall2_keeps_trans; eauto.
Qed.

Lemma grows_update id f cs :
  (forall c, keeps c (f c)) -> grows cs (updateCandidate id f cs).
Proof.
  intros Hf. exists (updateCandidate id f cs), [].
  split; [now rewrite app_nil_r|].
  unfold updateCandidate. induction cs as [|c cs IH]; constructor; auto.
  destruct (Cand.id c =? id); auto. now apply keeps_same.
Qed.

Lemma grows_snoc cs c : grows cs (cs ++ [c]).
Proof.
  exists cs, [c]. split; auto.
  induction cs; constructor; auto. now apply keeps_same.
Qed.

Ltac keeps_tac :=
  let c := fresh "c" in
  intros c;
  first [ apply keeps_same; reflexivity
        | exists []; cbn; rewrite grade_last_ungraded, app_nil_r; reflexivity
        | eexists; cbn; rewrite map_app; reflexivity ].

Ltac grow :=
  repeat first [rewrite render_candidates | progress (cbn)];
  repeat first
    [ apply grows_refl
    | apply grows_snoc
    | eapply grows_trans; [|apply grows_update; keeps_tac] ].

Lemma pauseActive_grows now a :
  grows (View.candidates (view a)) (View.candidates (view (pauseActive now a))).
Proof.
  unfold pauseActive. destruct (View.active (view a)); grow.
Qed.

Lemma resumeActive_grows now a :
  grows (View.candidates (view a)) (View.candidates (view (resumeActive now a))).
Proof.
  unfold resumeActive. destruct (View.active (view a)); grow.
Qed.

Lemma handleSubmit_grows cl auto v v' :
  handleSubmit cl auto v = Recorded v' ->
  grows (View.candidates v) (View.candidates v').
Proof.
  unfold handleSubmit.
  destruct (View.active cl); [|discriminate].
  destruct (find_candidate _ _); [|discriminate].
  destruct (nth_error _ _); [|discriminate].
  intros H. inversion H; subst. grow.
Qed.

Lemma submit_grows a :
  grows (View.candidates (view a)) (View.candidates (view (submit a))).
Proof.
  unfold submit.
  destruct (handleSubmit (view a) false (view a)) eqn:E; try apply grows_refl.
  rewrite render_candidates. eapply handleSubmit_grows; eauto.
Qed.

Lemma tick_grows now a :
  grows (View.candidates (view a)) (View.candidates (view (tick now a))).
Proof.
  unfold tick. destruct (interval a) as [cl|]; [|apply grows_refl].
  destruct (View.active cl) as [id|]; [|apply grows_refl].
  destruct (View.remaining (view a) - 1 <=? 0).
  - destruct (handleSubmit cl true _) eqn:E; try solve [grow].
    apply handleSubmit_grows in E.
    rewrite render_candidates. cbn [View.candidates set_remaining].
    eapply grows_trans; [|exact E]. grow.
  - grow.
Qed.

Lemma grade_settled_grows i grade now a a' :
  grade_settled i grade now a = Some a' ->
  grows (View.candidates (view a)) (View.candidates (view a')).
Proof.
  unfold grade_settled.
  destruct (nth_error (grading a) i) as [cl|];
    [|intros H; inversion H; subst; grow].
  destruct (View.active cl) as [id|]; [|intros H; inversion H; subst; grow].
  destruct (grade_breaks id grade (view a)); [discriminate|].
  destruct (_ <? _)%nat; destruct grade;
    intros H; inversion H; subst; grow.
Qed.

Lemma summary_settled_grows i finalData a :
  grows (View.candidates (view a))
        (View.candidates (view (summary_settled i finalData a))).
Proof.
  unfold summary_settled.
  destruct (nth_error (summarizing a) i) as [cl|]; [|grow].
  destruct (View.active cl) as [id|]; [|grow].
  destruct (readable finalData); grow.
Qed.

Lemma openCandidate_grows cs id resume fetched now a :
  grows (View.candidates (view a))
        (View.candidates (view (openCandidate cs id resume fetched now a))).
Proof.
  unfold openCandidate. destruct (find_candidate id cs) as [cand|]; [|grow].
  destruct (open_questions cand fetched) as [[qs fresh]|]; [|grow].
  destruct fresh; grow.
Qed.

Lemma handleUploadFile_grows now file parsed fetched a :
  grows (View.candidates (view a))
        (View.candidates (view (handleUploadFile now file parsed fetched a))).
Proof.
  unfold handleUploadFile. destruct parsed as [d|]; [|grow].
  set (c := newCand now file d).
  assert (G : forall v, View.candidates v = View.candidates (view a) ++ [c] ->
                        grows (View.candidates (view a))
                              (View.candidates (view (render a v)))).
  { intros v E. rewrite render_candidates, E. apply grows_snoc. }
  destruct (missing_field (Cand.name c)), (missing_field (Cand.email c)),
    (missing_field (Cand.phone c));
    try (apply G; reflexivity).
  eapply grows_trans; [|apply openCandidate_grows].
  apply G. reflexivity.
Qed.

Lemma resumeAfterModal_grows fetched now a :
  grows (View.candidates (view a))
        (View.candidates (view (resumeAfterModal fetched now a))).
Proof.
  unfold resumeAfterModal.
  destruct (match View.active (view a) with
            | Some id => Some id
            | None => Missing.id (View.missingFields (view a))
            end) as [id|]; [|grow].
  eapply grows_trans; [|apply openCandidate_grows]. grow.
Qed.

Lemma step_grows e a a' :
  step e a = Some a' ->
  grows (View.candidates (view a)) (View.candidates (view a')).
Proof.
  unfold step, guard.
  destruct e; intros H.
  11: { destruct (is_some (nth_error (grading a) i)); [|discriminate H].
        eapply grade_settled_grows; eauto. }
  all: repeat match type of H with
              | (if ?b then _ else _) = _ => destruct b; [|discriminate H]
              | match ?x with Some _ => _ | None => _ end = _ =>
                  destruct x; [|discriminate H]
              end;
    inversion H; subst; clear H.
  - apply handleUploadFile_grows.
  - grow.
  - apply resumeAfterModal_grows.
  - grow.
  - apply openCandidate_grows.
  - grow.
  - apply submit_grows.
  - apply tick_grows.
  - apply pauseActive_grows.
  - apply resumeActive_grows.
  - apply summary_settled_grows.
  - unfold closeInterview. grow.
Qed.

(** X6. Whatever happens on the page, no candidate is removed and no recorded
    answer is removed, moved or rewritten: after any run of events the list
    of candidates starts with the candidates it had, in their order, and each
    of them holds the answers it had, in their order and unchanged but for
    the grade, followed by the answers recorded since. *)
Theorem answers_are_never_lost (es : list Event) (a a' : App) :
  run_events es a = Some a' ->
  grows (View.candidates (view a)) (View.candidates (view a')).
Proof.
  revert a. induction es as [|e es IH]; intros a; simpl.
  - intros H. inversion H; subst. apply grows_refl.
  - destruct (step e a) as [a1|] eqn:E; [|discriminate].
    intros H. eapply grows_trans.
    + eapply step_grows; eauto.
    + now apply IH.
Qed.

(** The theorem at work: a second question is answered and graded after the
    first one. *)
Lemma answers_are_never_lost_witness :
  grows
    (View.candidates
       (view (Scenario.after (Scenario.started ++ Scenario.answered 2000))))
    (View.candidates
       (view (Scenario.after (Scenario.started ++ Scenario.answered 2000
                              ++ Scenario.answered 3000)))).
Proof.
  apply (@answers_are_never_lost (Scenario.answered 3000)).
  vm_compute. reflexivity.
Defined.

(** ** Questions and countdowns stay in order *)

Lemma find_in id cs c : find_candidate id cs = Some c -> In c cs.
Proof. unfold find_candidate. intros H. now apply find_some in H. Qed.

Lemma find_ok id cs c :
  Forall cand_ok cs -> find_candidate id cs = Some c -> cand_ok c.
Proof.
  intros H Hf. rewrite Forall_forall in H. apply H. eapply find_in; eauto.
Qed.

Lemma update_ok id f cs :
  (forall c, cand_ok c -> cand_ok (f c)) ->
  Forall cand_ok cs -> Forall cand_ok (updateCandidate id f cs).
Proof.
  intros Hf H. unfold updateCandidate. induction H; constructor; auto.
  destruct (Cand.id x =? id); auto.
Qed.

Lemma budget_pos d : 0 <= difficultySeconds d.
Proof. destruct d; simpl; lia. Qed.

Lemma initialRemaining_ok cand q :
  match cand with Some c => cand_ok c | None => True end ->
  0 <= initialRemaining cand q.
Proof.
  unfold initialRemaining. destruct cand as [c|]; [|intros _; apply budget_pos].
  intros (_ & _ & H & _). unfold stored_ok, timer_ok in H.
  destruct (Cand.timer c) as [t|]; [|apply budget_pos].
  destruct (Timer.remaining t); [exact H|apply budget_pos].
Qed.

Lemma startTimer_ok v :
  view_ok v ->
  view_ok (fst (startTimer v))
  /\ match snd (startTimer v) with Some cl => view_ok cl | None => True end.
Proof.
  intros Hv. unfold startTimer.
  destruct (nth_error _ _) as [q|]; [|now split].
  destruct (View.active v) as [id|]; [|now split].
  split; [|exact Hv]. destruct Hv as (H1 & H2 & H3 & H4).
  repeat split; auto. cbn. apply initialRemaining_ok.
  destruct (find_candidate id (View.candidates v)) eqn:E; auto.
  eapply find_ok; eauto.
Qed.

Lemma effect_ok v :
  view_ok v ->
  view_ok (fst (effect v))
  /\ match snd (effect v) with Some cl => view_ok cl | None => True end.
Proof.
  intros Hv. unfold effect.
  destruct (View.questions v); [now split|].
  destruct (View.active v) as [id|]; [|now split].
  destruct (find_candidate id (View.candidates v)) as [c|].
  - destruct (Cand.paused c); [now split|now apply startTimer_ok].
  - now apply startTimer_ok.
Qed.

Lemma render_ok a v : app_ok a -> view_ok v -> app_ok (render a v).
Proof.
  intros (_ & _ & Hg & Hs) Hv. unfold render.
  destruct (effect_ok Hv) as [H1 H2].
  destruct (effect v) as [v' i]. cbn in H1, H2.
  split; [exact H1|]. split; [exact H2|]. split; assumption.
Qed.

Lemma render_only_ok a v : app_ok a -> view_ok v -> app_ok (render_only a v).
Proof.
  intros (_ & Hi & Hg & Hs) Hv.
  split; [exact Hv|]. split; [exact Hi|]. split; assumption.
Qed.

Lemma view_update_ok id f v :
  (forall c, cand_ok c -> cand_ok (f c)) -> view_ok v -> view_ok (update id f v).
Proof.
  intros Hf (H1 & H2 & H3 & H4). repeat split; auto.
  cbn. now apply update_ok.
Qed.

Lemma with_timer_ok tm p c : timer_ok tm -> cand_ok c -> cand_ok (with_timer tm p c).
Proof. intros Ht (H1 & H2 & _ & H4). now repeat split. Qed.

Lemma with_answers_ok ans i tm c :
  timer_ok tm -> Forall answer_ok ans -> cand_ok c ->
  cand_ok (with_answers ans i tm c).
Proof. intros Ht Hans (H1 & H2 & _ & _). now repeat split. Qed.

Lemma with_questions_ok qs c :
  six_or_none qs -> cand_ok c -> cand_ok (with_questions qs c).
Proof. intros Hq (_ & _ & H3 & H4). now repeat split. Qed.

Lemma with_final_ok fs sm i c : cand_ok c -> cand_ok (with_final fs sm i c).
Proof. intros (H1 & H2 & H3 & H4). now repeat split. Qed.

Lemma with_missing_ok m c : cand_ok c -> cand_ok (with_missing m c).
Proof. intros (H1 & H2 & H3 & H4). now repeat split. Qed.

Lemma own_timer_ok c : cand_ok c -> timer_ok (Cand.timer c).
Proof. now intros (_ & _ & H & _). Qed.

Lemma own_answers_ok c : cand_ok c -> Forall answer_ok (Cand.answers c).
Proof. now intros (_ & _ & _ & H). Qed.

Lemma newAnswer_ok cl q auto : view_ok cl -> answer_ok (newAnswer cl q auto).
Proof.
  intros (_ & _ & H & _). unfold answer_ok, newAnswer. cbn. lia.
Qed.

Lemma grade_last_ok sc fb : forall l,
    Forall answer_ok l -> Forall answer_ok (grade_last sc fb l).
Proof.
  induction l as [|x l IH]; auto.
  intros H. inversion H; subst.
  destruct l as [|y l]; [constructor; auto|].
  change (grade_last sc fb (x :: y :: l)) with (x :: grade_last sc fb (y :: l)).
  constructor; auto.
Qed.

Lemma set_remaining_ok r v : 0 <= r -> view_ok v -> view_ok (set_remaining r v).
Proof. intros Hr (H1 & H2 & _ & H4). now repeat split. Qed.

Lemma set_answer_ok t v : view_ok v -> view_ok (set_answer t v).
Proof. intros (H1 & H2 & H3 & H4). now repeat split. Qed.

Lemma set_submitting_ok b v : view_ok v -> view_ok (set_submitting b v).
Proof. intros (H1 & H2 & H3 & H4). now repeat split. Qed.

Lemma set_modal_ok b m v : view_ok v -> view_ok (set_modal b m v).
Proof. intros (H1 & H2 & H3 & H4). now repeat split. Qed.

Lemma set_active_ok o v : view_ok v -> view_ok (set_active o v).
Proof. intros (H1 & H2 & H3 & H4). now repeat split. Qed.

Lemma set_currentIndex_ok i v :
  (i < 6)%nat -> view_ok v -> view_ok (set_currentIndex i v).
Proof. intros Hi (H1 & _ & H3 & H4). now repeat split. Qed.

Lemma set_questions_ok qs v :
  six_or_none qs -> view_ok v -> view_ok (set_questions qs v).
Proof. intros Hq (_ & H2 & H3 & H4). now repeat split. Qed.

Lemma set_candidates_ok cs v :
  Forall cand_ok cs -> view_ok v -> view_ok (set_candidates cs v).
Proof. intros Hc (H1 & H2 & H3 & _). now repeat split. Qed.

Lemma view_remaining_ok v : view_ok v -> 0 <= View.remaining v.
Proof. now intros (_ & _ & H & _). Qed.

Lemma view_candidates_ok v : view_ok v -> Forall cand_ok (View.candidates v).
Proof. now intros (_ & _ & _ & H). Qed.

Lemma page_ok a : app_ok a -> view_ok (view a).
Proof. now intros (H & _). Qed.

Create HintDb ok.
#[local] Hint Resolve render_ok render_only_ok view_update_ok with_timer_ok
  with_answers_ok with_questions_ok with_final_ok with_missing_ok own_timer_ok
  set_remaining_ok set_answer_ok set_submitting_ok set_modal_ok set_active_ok
  set_currentIndex_ok set_questions_ok set_candidates_ok view_remaining_ok
  view_candidates_ok page_ok budget_pos own_answers_ok grade_last_ok : ok.

Lemma pauseActive_ok now a : app_ok a -> app_ok (pauseActive now a).
Proof.
  intros Ha. unfold pauseActive. destruct (View.active (view a)); auto.
  apply render_ok; auto. apply view_update_ok; auto with ok.
  intros c Hc. apply with_timer_ok; auto. cbn. auto with ok.
Qed.

Lemma resumeActive_ok now a : app_ok a -> app_ok (resumeActive now a).
Proof.
  intros Ha. unfold resumeActive. destruct (View.active (view a)); auto.
  apply render_ok; auto. apply set_remaining_ok.
  - apply view_remaining_ok. apply startTimer_ok. auto with ok.
  - apply view_update_ok; auto with ok.
    intros c Hc. apply with_timer_ok; auto. destruct Hc as (_ & _ & H & _).
    unfold stored_ok, timer_ok in H. unfold timer_ok, timer_remaining. cbn.
    destruct (Cand.timer c); auto.
Qed.

Lemma handleSubmit_ok cl auto v v' :
  view_ok cl -> view_ok v -> handleSubmit cl auto v = Recorded v' -> view_ok v'.
Proof.
  intros Hcl Hv. unfold handleSubmit.
  destruct (View.active cl); [|discriminate].
  destruct (find_candidate _ _); [|discriminate].
  destruct (nth_error _ _); [|discriminate].
  intros H. inversion H; subst.
  apply set_submitting_ok, set_answer_ok, view_update_ok; auto.
  intros c Hc. apply with_answers_ok; auto; [exact I|].
  apply Forall_app. split; auto with ok.
  constructor; [now apply newAnswer_ok|constructor].
Qed.

Lemma await_grade_ok cl a : view_ok cl -> app_ok a -> app_ok (await_grade cl a).
Proof.
  intros Hcl (H1 & H2 & H3 & H4).
  split; [exact H1|]. split; [exact H2|]. split; [|exact H4].
  cbn. apply Forall_app. split; auto.
Qed.

Lemma await_summary_ok cl a :
  view_ok cl -> app_ok a -> app_ok (await_summary cl a).
Proof.
  intros Hcl (H1 & H2 & H3 & H4).
  split; [exact H1|]. split; [exact H2|]. split; [exact H3|].
  cbn. apply Forall_app. split; auto.
Qed.

Lemma submit_ok a : app_ok a -> app_ok (submit a).
Proof.
  intros Ha. unfold submit.
  destruct (handleSubmit (view a) false (view a)) eqn:E; auto.
  - destruct Ha as (H1 & _ & H3 & H4).
    split; [exact H1|]. split; [exact I|]. split; assumption.
  - apply render_ok.
    + apply await_grade_ok; auto with ok.
    + eapply handleSubmit_ok with (cl := view a) (v := view a);
        eauto with ok.
Qed.

Lemma tick_ok now a : app_ok a -> app_ok (tick now a).
Proof.
  intros Ha. unfold tick. destruct (interval a) as [cl|] eqn:Hi; auto.
  assert (Hcl : view_ok cl).
  { destruct Ha as (_ & H & _). now rewrite Hi in H. }
  destruct (View.active cl) as [id|]; auto.
  set (v1 := update id _ (view a)).
  assert (Hv1 : view_ok v1).
  { apply view_update_ok; auto with ok.
    intros c Hc. apply with_timer_ok; auto. cbn. lia. }
  destruct (View.remaining (view a) - 1 <=? 0) eqn:L.
  - destruct (handleSubmit cl true v1) eqn:E.
    + apply render_ok; auto. apply set_remaining_ok; auto. lia.
    + apply render_ok; auto. apply set_remaining_ok; auto. lia.
    + apply render_ok.
      * now apply await_grade_ok.
      * apply set_remaining_ok; [lia|].
        eapply handleSubmit_ok with (cl := cl) (v := v1); eauto.
  - apply render_ok; auto. apply set_remaining_ok; auto.
    apply Z.leb_gt in L. lia.
Qed.

Lemma remove_nth_ok A (P : A -> Prop) : forall i l,
    Forall P l -> Forall P (remove_nth i l).
Proof.
  intros i l H. revert i. induction H; intros [|i]; simpl; auto.
Qed.

Lemma nth_error_ok A (P : A -> Prop) l i x :
  Forall P l -> nth_error l i = Some x -> P x.
Proof.
  intros H E. rewrite Forall_forall in H. apply H. eapply nth_error_In; eauto.
Qed.

Lemma six_length (qs : list Question.t) : six_or_none qs -> (length qs <= 6)%nat.
Proof. intros [->| ->]; simpl; lia. Qed.

Lemma grade_settled_ok i grade now a a1 :
  app_ok a -> grade_settled i grade now a = Some a1 -> app_ok a1.
Proof.
  intros Ha. unfold grade_settled.
  destruct (nth_error (grading a) i) as [cl|] eqn:En;
    [|intros H; now inversion H; subst].
  assert (Hcl : view_ok cl).
  { destruct Ha as (_ & _ & H & _). eapply nth_error_ok; eauto. }
  destruct (View.active cl) as [id|]; [|intros H; now inversion H; subst].
  destruct (grade_breaks id grade (view a)); [discriminate|].
  set (a' := {| view := view a; interval := interval a;
                grading := remove_nth i (grading a);
                summarizing := summarizing a |}).
  assert (Ha' : app_ok a').
  { destruct Ha as (H1 & H2 & H3 & H4).
    split; [exact H1|]. split; [exact H2|]. split; [|exact H4].
    now apply remove_nth_ok. }
  set (graded := match grade with
                 | Some g => update id _ (view a)
                 | None => view a
                 end).
  assert (Hg : view_ok graded).
  { unfold graded. destruct grade; auto with ok. }
  destruct (_ <? _)%nat eqn:L.
  - apply Nat.ltb_lt in L.
    assert (H6 : (View.currentIndex cl + 1 < 6)%nat).
    { destruct Hcl as (Hq & _). apply six_length in Hq. lia. }
    assert (Hb : 0 <= match nth_error (View.questions cl)
                                      (View.currentIndex cl + 1) with
                      | Some nextQ => difficultySeconds (Question.difficulty nextQ)
                      | None => 0
                      end).
    { destruct (nth_error (View.questions cl) (View.currentIndex cl + 1));
        [apply budget_pos|lia]. }
    intros H. inversion H; subst a1. clear H.
    apply render_ok; auto.
    apply view_update_ok.
    + intros c Hc. apply with_timer_ok; auto.
    + auto 6 with ok.
  - destruct grade eqn:R; intros H; inversion H; subst a1; clear H.
    + apply render_ok; [now apply await_summary_ok|].
      unfold graded in Hg. exact Hg.
    + now apply await_summary_ok.
Qed.

Lemma summary_settled_ok i finalData a :
  app_ok a -> app_ok (summary_settled i finalData a).
Proof.
  intros Ha. unfold summary_settled.
  destruct (nth_error (summarizing a) i) as [cl|]; auto.
  destruct (View.active cl) as [id|]; auto.
  set (a' := {| view := view a; interval := interval a;
                grading := grading a;
                summarizing := remove_nth i (summarizing a) |}).
  assert (Ha' : app_ok a').
  { destruct Ha as (H1 & H2 & H3 & H4).
    split; [exact H1|]. split; [exact H2|]. split; [exact H3|].
    now apply remove_nth_ok. }
  destruct (readable finalData).
  - apply render_ok; auto. apply set_submitting_ok.
    apply view_update_ok; auto with ok.
  - apply render_only_ok; auto with ok.
Qed.

Lemma open_questions_ok cand fetched qs fresh :
  cand_ok cand -> open_questions cand fetched = Some (qs, fresh) ->
  length qs = 6%nat.
Proof.
  intros (Hq & _). unfold open_questions.
  destruct (Cand.questions cand) eqn:E.
  - destruct fetched as [l|]; [|discriminate].
    destruct (length l =? 6)%nat eqn:L; [|discriminate].
    intros H. inversion H; subst. now apply Nat.eqb_eq.
  - intros H. inversion H; subst. destruct Hq as [Hq|Hq]; [discriminate|].
    exact Hq.
Qed.

Lemma open_remaining_ok cand qs idx now : 0 <= open_remaining cand qs idx now.
Proof.
  unfold open_remaining.
  assert (H : 0 <= match nth_error qs idx with
                   | Some q => difficultySeconds (Question.difficulty q)
                   | None => 0
                   end)
    by (destruct (nth_error qs idx); [apply budget_pos|lia]).
  destruct (Cand.timer cand) as [t|]; auto.
  destruct (Timer.questionIndex t); auto.
  destruct (Timer.remaining t); auto.
  destruct (_ =? _)%nat; auto. lia.
Qed.

Lemma openCandidate_ok cs id resume fetched now a :
  Forall cand_ok cs -> app_ok a ->
  app_ok (openCandidate cs id resume fetched now a).
Proof.
  intros Hcs Ha. unfold openCandidate.
  destruct (find_candidate id cs) as [cand|] eqn:Ef; auto.
  pose proof (@find_ok id cs cand Hcs Ef) as Hc.
  destruct (open_questions cand fetched) as [[qs fresh]|] eqn:Eq; auto.
  pose proof (@open_questions_ok cand fetched qs fresh Hc Eq) as H6.
  pose proof (open_remaining_ok cand qs (open_index resume cand) now) as Hr.
  apply render_ok; auto. apply set_active_ok.
  apply view_update_ok.
  { intros c Hc'. apply with_timer_ok; auto. }
  apply set_remaining_ok; auto.
  apply set_currentIndex_ok; [lia|].
  apply set_questions_ok; [now right|].
  destruct fresh; auto with ok.
  apply view_update_ok; auto with ok.
  intros c Hc'. apply with_questions_ok; auto. now right.
Qed.

Lemma newCand_ok now file d : cand_ok (newCand now file d).
Proof.
  split; [now left|]. split; [reflexivity|]. split; [exact I|constructor].
Qed.

Lemma handleUploadFile_ok now file parsed fetched a :
  app_ok a -> app_ok (handleUploadFile now file parsed fetched a).
Proof.
  intros Ha. unfold handleUploadFile. destruct parsed as [d|]; auto.
  set (c := newCand now file d).
  assert (Hu : Forall cand_ok (View.candidates (view a) ++ [c])).
  { apply Forall_app. split; auto with ok.
    constructor; [apply newCand_ok|constructor]. }
  assert (Hv : view_ok (set_candidates (View.candidates (view a) ++ [c])
                                       (view a))) by auto with ok.
  destruct (missing_field (Cand.name c)), (missing_field (Cand.email c)),
    (missing_field (Cand.phone c));
    try (apply render_ok; auto; apply set_active_ok, set_modal_ok; exact Hv).
  apply openCandidate_ok; auto with ok.
Qed.

Lemma resumeAfterModal_ok fetched now a :
  app_ok a -> app_ok (resumeAfterModal fetched now a).
Proof.
  intros Ha. unfold resumeAfterModal.
  destruct (match View.active (view a) with
            | Some id => Some id
            | None => Missing.id (View.missingFields (view a))
            end) as [id|]; auto.
  apply openCandidate_ok; auto 6 with ok.
Qed.

Lemma closeInterview_ok a : app_ok a -> app_ok (closeInterview a).
Proof.
  intros Ha. unfold closeInterview. apply render_ok; auto.
  apply set_answer_ok, set_remaining_ok; [lia|].
  apply set_currentIndex_ok; [lia|].
  apply set_questions_ok; [now left|].
  apply set_active_ok. auto with ok.
Qed.

Lemma step_ok e a a' : app_ok a -> step e a = Some a' -> app_ok a'.
Proof.
  intros Ha. unfold step, guard.
  destruct e; intros H.
  11: { destruct (is_some (nth_error (grading a) i)); [|discriminate H].
        eapply grade_settled_ok; eauto. }
  all: repeat match type of H with
              | (if ?b then _ else _) = _ => destruct b; [|discriminate H]
              | match ?x with Some _ => _ | None => _ end = _ =>
                  destruct x; [|discriminate H]
              end;
    inversion H; subst; clear H.
  - now apply handleUploadFile_ok.
  - apply render_only_ok; auto with ok.
  - now apply resumeAfterModal_ok.
  - apply render_only_ok; auto with ok.
  - apply openCandidate_ok; auto with ok.
  - apply render_only_ok; auto with ok.
  - now apply submit_ok.
  - now apply tick_ok.
  - now apply pauseActive_ok.
  - now apply resumeActive_ok.
  - now apply summary_settled_ok.
  - now apply closeInterview_ok.
Qed.

Lemma run_ok es : forall a a',
    app_ok a -> run_events es a = Some a' -> app_ok a'.
Proof.
  induction es as [|e es IH]; intros a a' Ha; simpl.
  - intros H. now inversion H; subst.
  - destruct (step e a) as [a1|] eqn:E; [|discriminate].
    apply IH. eapply step_ok; eauto.
Qed.

Lemma init_ok stored : Forall cand_ok stored -> app_ok (init stored).
Proof.
  intros H. split; [|split; [exact I|split; constructor]].
  split; [now left|]. split; [simpl; lia|]. split; [simpl; lia|exact H].
Qed.

(** X7. The page loads with stored candidates that are in order: each has no
    questions or six, a question count in step with them, no negative
    remaining time and no answer that took more than its budget.  Then after
    any run of events the countdown of the page is not negative, and no
    candidate holds a negative remaining time. *)
Theorem countdown_is_never_negative
        (stored : list Cand.t) (es : list Event) (a : App) :
  Forall cand_ok stored ->
  run_events es (init stored) = Some a ->
  0 <= View.remaining (view a)
  /\ Forall (fun c => forall r, timer_remaining c = Some r -> 0 <= r)
            (View.candidates (view a)).
Proof.
  intros Hs Hr.
  destruct (run_ok es (init_ok Hs) Hr) as ((_ & _ & H3 & H4) & _).
  split; [exact H3|].
  eapply Forall_impl; [|exact H4].
  intros c (_ & _ & Ht & _) r E. unfold stored_ok, timer_ok in Ht.
  unfold timer_remaining in E. destruct (Cand.timer c); [|discriminate].
  now rewrite E in Ht.
Qed.

(** The theorem at work: the countdown of the first question runs out. *)
Lemma countdown_is_never_negative_witness :
  0 <= View.remaining (view (Scenario.after Scenario.typed_then_expired)).
Proof.
  refine (proj1 (@countdown_is_never_negative [] Scenario.typed_then_expired
                   _ (Forall_nil _) _)).
  vm_compute. reflexivity.
Defined.

(** X8. From stored candidates that are in order, after any run of events: the
    page holds no questions or exactly six, and when it holds questions there
    is one at the current index; every candidate holds no questions or
    exactly six, and its question count is their number. *)
Theorem sessions_have_six_questions_and_a_current_one
        (stored : list Cand.t) (es : list Event) (a : App) :
  Forall cand_ok stored ->
  run_events es (init stored) = Some a ->
  six_or_none (View.questions (view a))
  /\ (View.questions (view a) <> [] ->
      exists q, nth_error (View.questions (view a))
                          (View.currentIndex (view a)) = Some q)
  /\ Forall (fun c => six_or_none (Cand.questions c)
                      /\ Cand.questionsLength c = length (Cand.questions c))
            (View.candidates (view a)).
Proof.
  intros Hs Hr.
  destruct (run_ok es (init_ok Hs) Hr) as ((H1 & H2 & _ & H4) & _).
  split; [exact H1|]. split.
  - intros Hne. destruct H1 as [H1|H1]; [contradiction|].
    destruct (nth_error (View.questions (view a))
                        (View.currentIndex (view a))) as [q|] eqn:E; eauto.
    apply nth_error_None in E. lia.
  - eapply Forall_impl; [|exact H4]. now intros c (Hq & Hl & _).
Qed.

(** The theorem at work: a finished session that was opened again still shows
    one of its six questions. *)
Lemma sessions_have_six_questions_and_a_current_one_witness :
  six_or_none
    (View.questions (view (Scenario.after Scenario.finished_then_reopened))).
Proof.
  refine (proj1 (@sessions_have_six_questions_and_a_current_one
                   [] Scenario.finished_then_reopened _ (Forall_nil _) _)).
  vm_compute. reflexivity.
Defined.

(** X9. From stored candidates that are in order, after any run of events: the
    time recorded with any answer, submitted by hand or by the expiry of the
    countdown, is no more than the budget of its question. *)
Theorem recorded_time_is_within_budget
        (stored : list Cand.t) (es : list Event) (a : App) :
  Forall cand_ok stored ->
  run_events es (init stored) = Some a ->
  Forall (fun c =>
            Forall (fun x => Answer.timeTakenSeconds x
                             <= difficultySeconds (Answer.difficulty x))
                   (Cand.answers c))
         (View.candidates (view a)).
Proof.
  intros Hs Hr.
  destruct (run_ok es (init_ok Hs) Hr) as ((_ & _ & _ & H4) & _).
  eapply Forall_impl; [|exact H4]. now intros c (_ & _ & _ & H).
Qed.

(** The theorem at work: the answers of a whole interview. *)
Lemma recorded_time_is_within_budget_witness :
  Forall (fun c =>
            Forall (fun x => Answer.timeTakenSeconds x
                             <= difficultySeconds (Answer.difficulty x))
                   (Cand.answers c))
         (View.candidates
            (view (Scenario.after Scenario.finished_then_reopened))).
Proof.
  apply (@recorded_time_is_within_budget [] Scenario.finished_then_reopened).
  - constructor.
  - vm_compute. reflexivity.
Defined.

End InvariantFacts.

(* ================================================================== *)
(** * Starting a session and moving to the next question               *)
(* ================================================================== *)

Module SessionFacts.
Import ClientFacts.

Local Open Scope Z_scope.

(** The timer effect changes the countdown of a render and nothing else. *)
Lemma effect_only_remaining v :
  fst (effect v) = set_remaining (View.remaining (fst (effect v))) v.
Proof.
  assert (E : v = set_remaining (View.remaining v) v) by now destruct v.
  unfold effect, startTimer.
  destruct (View.questions v); auto.
  destruct (View.active v); auto.
  destruct (find_candidate z (View.candidates v)) as [c|];
    [destruct (Cand.paused c); auto|];
    destruct (nth_error _ _); auto.
Qed.

Lemma render_view a v :
  view (render a v) = set_remaining (View.remaining (view (render a v))) v.
Proof.
  unfold render. pose proof (effect_only_remaining v) as H.
  destruct (effect v). exact H.
Qed.

Lemma render_summarizing a v : summarizing (render a v) = summarizing a.
Proof. unfold render. now destruct (effect v). Qed.

(** With the active candidate found and its stored remaining time equal to
    the countdown of the render, the effect leaves the countdown as it is. *)
Lemma render_remaining_stored a v id c :
  View.active v = Some id ->
  find_candidate id (View.candidates v) = Some c ->
  timer_remaining c = Some (View.remaining v) ->
  View.remaining (view (render a v)) = View.remaining v.
Proof.
  intros Ha Hf Hr. unfold render, effect, startTimer. rewrite Ha, Hf.
  destruct (View.questions v); auto.
  destruct (Cand.paused c); auto.
  destruct (nth_error _ _); auto.
  cbn. unfold timer_remaining in Hr.
  destruct (Cand.timer c) as [tmr|]; [|discriminate]. now rewrite Hr.
Qed.

(** X10. The grade request of an answer settles while its candidate is the
    active one, and the answered question was not the last.  When the reply
    is [null] the page is lost: the updater that writes the grade reads a
    property of [null] while React renders.  In every other case, whether
    the request failed or brought a reply, the page moves to the next
    question with the full budget of that question on the countdown and in
    the store, and accepts input again.  After a failure the answers are as
    they were; after a reply only the score and the feedback of the
    candidate's last answer are set. *)
Theorem grade_settled_starts_next_question
        (a : App) (i : nat) (grade : option json) (now : Z) (cl : View.t)
        (id : Z) (c : Cand.t) (nextQ : Question.t) :
  nth_error (grading a) i = Some cl ->
  View.active cl = Some id ->
  nth_error (View.questions cl) (View.currentIndex cl + 1) = Some nextQ ->
  View.active (view a) = Some id ->
  find_candidate id (View.candidates (view a)) = Some c ->
  let budget := difficultySeconds (Question.difficulty nextQ) in
  (grade = Some JNull -> grade_settled i grade now a = None)
  /\ (grade <> Some JNull ->
      exists a',
        grade_settled i grade now a = Some a'
        /\ View.currentIndex (view a') = (View.currentIndex cl + 1)%nat
        /\ View.remaining (view a') = budget
        /\ View.submitting (view a') = false
        /\ grading a' = remove_nth i (grading a)
        /\ summarizing a' = summarizing a
        /\ (exists c',
               find_candidate id (View.candidates (view a')) = Some c' /\
               Cand.timer c'
               = Some {| Timer.questionIndex :=
                           Some (View.currentIndex cl + 1)%nat;
                         Timer.remaining := Some budget;
                         Timer.lastUpdated := now |} /\
               Cand.paused c' = false /\
               Cand.answers c'
               = match grade with
                 | Some g => grade_last (get g (str "score"))
                                        (get g (str "feedback"))
                                        (Cand.answers c)
                 | None => Cand.answers c
                 end)
        /\ (grade = None ->
            map Cand.answers (View.candidates (view a'))
            = map Cand.answers (View.candidates (view a)))).
Proof.
  intros Hn Ha Hq Hv Hf budget.
  assert (L : (View.currentIndex cl + 1 <? length (View.questions cl))%nat
              = true).
  { apply Nat.ltb_lt. apply nth_error_Some. now rewrite Hq. }
  split.
  { intros ->. unfold grade_settled, grade_breaks. now rewrite Hn, Ha, Hf. }
  intros Hg0.
  assert (B : grade_breaks id grade (view a) = false).
  { unfold grade_breaks. rewrite Hf.
    destruct grade as [[| | | | |]|]; try reflexivity. now destruct Hg0. }
  unfold grade_settled. rewrite Hn, Ha, B, L, Hq. fold budget.
  set (tm := Some {| Timer.questionIndex := Some (View.currentIndex cl + 1)%nat;
                     Timer.remaining := Some budget;
                     Timer.lastUpdated := now |}).
  set (graded := match grade with
                 | Some g => update id _ (view a)
                 | None => view a
                 end).
  set (c1 := match grade with
             | Some g =>
                 with_answers (grade_last (get g (str "score"))
                                          (get g (str "feedback"))
                                          (Cand.answers c))
                              (Cand.currentIndex c) (Cand.timer c) c
             | None => c
             end).
  assert (Hg : find_candidate id (View.candidates graded) = Some c1).
  { unfold graded, c1. destruct grade; auto.
    unfold update. cbn [View.candidates set_candidates].
    rewrite find_update by reflexivity. now rewrite Hf. }
  set (v := update id (with_timer tm false) _).
  assert (Hfv : find_candidate id (View.candidates v)
                = Some (with_timer tm false c1)).
  { unfold v, update. cbn [View.candidates set_candidates set_remaining
                              set_currentIndex set_submitting].
    rewrite find_update by reflexivity. now rewrite Hg. }
  assert (Hav : View.active v = Some id).
  { unfold v, graded. cbn. now destruct grade. }
  set (a0 := {| view := view a; interval := interval a;
                grading := remove_nth i (grading a);
                summarizing := summarizing a |}).
  pose proof (@render_remaining_stored a0 v id _ Hav Hfv eq_refl) as Hr.
  eexists. split; [reflexivity|].
  split; [now rewrite render_currentIndex|].
  split; [exact Hr|].
  split; [now rewrite render_view|].
  split; [now rewrite render_grading|].
  split; [now rewrite render_summarizing|].
  split.
  - exists (with_timer tm false c1). rewrite render_candidates.
    split; [exact Hfv|]. split; [reflexivity|]. split; [reflexivity|].
    unfold c1. now destruct grade.
  - intros R. rewrite render_candidates. unfold v, graded. rewrite R. cbn.
    unfold updateCandidate. rewrite map_map. apply map_ext. intros x.
    now destruct (Cand.id x =? id).
Qed.

(** The theorem at work: the grade request of the first answer fails. *)
Lemma grade_settled_starts_next_question_witness :
  let a := Scenario.after (Scenario.started
                           ++ [Type_ (str "my answer"); Submit]) in
  exists a',
    grade_settled 0 None 3000 a = Some a'
    /\ View.currentIndex (view a') = 1%nat
    /\ View.remaining (view a') = 20.
Proof.
  intros a.
  destruct (nth_error (grading a) 0) as [cl|] eqn:Hn;
    [|vm_compute in Hn; discriminate Hn].
  assert (Hcl : Some cl = nth_error (grading a) 0) by (now rewrite Hn).
  vm_compute in Hcl. injection Hcl as ->.
  destruct (find_candidate 1000 (View.candidates (view a))) as [c|] eqn:Hf;
    [|vm_compute in Hf; discriminate Hf].
  destruct (proj2 (@grade_settled_starts_next_question a 0 None 3000 _ 1000 c
                     (Scenario.question "q2" easy) Hn eq_refl eq_refl eq_refl
                     Hf) ltac:(discriminate))
    as (a' & H0 & H1 & H2 & _).
  exists a'. split; [exact H0|]. split; [exact H1|exact H2].
Defined.

Lemma find_none_update id f cs :
  find_candidate id cs = None -> updateCandidate id f cs = cs.
Proof.
  unfold find_candidate, updateCandidate.
  induction cs as [|c cs IH]; simpl; auto.
  destruct (Cand.id c =? id); [discriminate|].
  intros H. now rewrite IH.
Qed.

Lemma find_snoc id cs c :
  find_candidate id cs = None -> Cand.id c = id ->
  find_candidate id (cs ++ [c]) = Some c.
Proof.
  unfold find_candidate. intros Hn Hc.
  induction cs as [|x cs IH]; simpl in *.
  - now rewrite Hc, Z.eqb_refl.
  - destruct (Cand.id x =? id); [discriminate|]. now apply IH.
Qed.

Lemma update_snoc id f cs c :
  find_candidate id cs = None -> Cand.id c = id ->
  updateCandidate id f (cs ++ [c]) = cs ++ [f c].
Proof.
  intros Hn Hc. unfold updateCandidate. rewrite map_app.
  fold (updateCandidate id f cs). rewrite find_none_update by assumption.
  simpl. now rewrite Hc, Z.eqb_refl.
Qed.

(** X11. A resume comes back from the server with a name, an e-mail address and a
    phone number, none of them empty, at a time [now] that is not yet the
    identifier of a candidate, and the server sends six questions.  Then the
    upload stores one new candidate after the others, with the six questions,
    and starts its interview at once: the candidate is the active one, the
    page shows the first question, the countdown shows the budget of that
    question and runs, and the same budget is stored with the candidate. *)
Theorem upload_starts_the_interview
        (a : App) (now : Z) (file : text) (d : Parsed.t)
        (q1 : Question.t) (rest : list Question.t) (n e ph : text) :
  Parsed.name d = Some n -> n <> [] ->
  Parsed.email d = Some e -> e <> [] ->
  Parsed.phone d = Some ph -> ph <> [] ->
  find_candidate now (View.candidates (view a)) = None ->
  length rest = 5%nat ->
  let qs := q1 :: rest in
  let budget := difficultySeconds (Question.difficulty q1) in
  let a' := handleUploadFile now file (Some d) (Some qs) a in
  View.active (view a') = Some now
  /\ View.questions (view a') = qs
  /\ View.currentIndex (view a') = 0%nat
  /\ View.remaining (view a') = budget
  /\ interval a' <> None
  /\ View.candidates (view a')
     = View.candidates (view a)
       ++ [with_timer (Some {| Timer.questionIndex := Some 0%nat;
                               Timer.remaining := Some budget;
                               Timer.lastUpdated := now |})
                      false (with_questions qs (newCand now file d))].
Proof.
  intros Hn Hn' He He' Hp Hp' Hnew Hlen qs budget a'.
  set (c := newCand now file d).
  set (cs := View.candidates (view a)) in *.
  assert (M : missing_field (Cand.name c) = None
              /\ missing_field (Cand.email c) = None
              /\ missing_field (Cand.phone c) = None).
  { unfold c, newCand. cbn. rewrite Hn, He, Hp. cbn.
    destruct n; [congruence|]. destruct e; [congruence|].
    destruct ph; [congruence|]. auto. }
  destruct M as (M1 & M2 & M3).
  set (tm := Some {| Timer.questionIndex := Some 0%nat;
                     Timer.remaining := Some budget;
                     Timer.lastUpdated := now |}).
  set (a1 := render a (set_active (Some now) (set_candidates (cs ++ [c]) (view a)))).
  assert (E1 : a' = openCandidate (cs ++ [c]) now false (Some qs) now a1).
  { unfold a', handleUploadFile. fold c. fold cs. now rewrite M1, M2, M3. }
  assert (Hc1 : View.candidates (view a1) = cs ++ [c])
    by (unfold a1; now rewrite render_candidates).
  assert (Hfc : find_candidate now (cs ++ [c]) = Some c)
    by (now apply find_snoc).
  set (v := set_active (Some now)
              (update now (with_timer tm false)
                 (set_remaining budget
                    (set_currentIndex 0
                       (set_questions qs
                          (update now (with_questions qs) (view a1))))))).
  assert (E2 : a' = render a1 v).
  { rewrite E1. unfold openCandidate. rewrite Hfc.
    unfold open_questions. cbn [Cand.questions c newCand].
    replace (length qs =? 6)%nat with true
      by (symmetry; apply Nat.eqb_eq; unfold qs; simpl; lia).
    reflexivity. }
  assert (Hcv : View.candidates v
                = cs ++ [with_timer tm false (with_questions qs c)]).
  { unfold v, update.
    cbn [View.candidates set_candidates set_remaining set_currentIndex
         set_questions set_active].
    rewrite Hc1. rewrite update_update by reflexivity.
    now rewrite update_snoc. }
  assert (Hfv : find_candidate now (View.candidates v)
                = Some (with_timer tm false (with_questions qs c))).
  { rewrite Hcv. now apply find_snoc. }
  assert (Eff : effect v = (set_remaining budget v, Some v)).
  { apply effect_running
      with (id := now) (c := with_timer tm false (with_questions qs c))
           (q := q1); auto. }
  rewrite E2. unfold render. rewrite Eff. cbn [view interval].
  split; [reflexivity|]. split; [reflexivity|]. split; [reflexivity|].
  split; [reflexivity|]. split; [discriminate|]. exact Hcv.
Qed.

(** The theorem at work: the first upload on an empty page. *)
Lemma upload_starts_the_interview_witness :
  let a' := handleUploadFile 1000 (str "cv.pdf") (Some Scenario.ada)
              (Some Scenario.six) (init []) in
  View.active (view a') = Some 1000 /\ View.remaining (view a') = 20.
Proof.
  intros a'.
  destruct (@upload_starts_the_interview (init []) 1000 (str "cv.pdf")
              Scenario.ada (Scenario.question "q1" easy)
              (tl Scenario.six) (str "Ada Lovelace") (str "ada@example.com")
              (str "5551234567")
              eq_refl ltac:(discriminate) eq_refl ltac:(discriminate)
              eq_refl ltac:(discriminate) eq_refl eq_refl)
    as (H1 & _ & _ & H4 & _).
  split; [exact H1|exact H4].
Defined.

(** X21. The candidate submits an answer by hand, on an existing question and
    not paused.  The answer is recorded with the text of the answer box as it
    stands, the time used so far and no flag of automatic submission, and its
    grade is awaited with the page as it was.  The answer box is emptied and
    the page stays on the same question until the grade settles, and
    meanwhile the countdown starts again from the full budget of that
    question and runs. *)
Theorem submit_records_and_restarts_the_countdown
        (a : App) (id : Z) (c : Cand.t) (q : Question.t) :
  View.active (view a) = Some id ->
  find_candidate id (View.candidates (view a)) = Some c ->
  Cand.paused c = false ->
  nth_error (View.questions (view a)) (View.currentIndex (view a)) = Some q ->
  let a' := submit a in
  let budget := difficultySeconds (Question.difficulty q) in
  (exists ans,
      find_candidate id (View.candidates (view a'))
      = Some (with_answers (Cand.answers c ++ [ans])
                           (Cand.currentIndex c + 1)%nat None c)
      /\ Answer.questionId ans = Question.id q
      /\ Answer.responseText ans = View.answer (view a)
      /\ Answer.timeTakenSeconds ans = budget - View.remaining (view a)
      /\ Answer.autoSubmitted ans = false
      /\ Answer.score ans = Some JNull)
  /\ grading a' = grading a ++ [view a]
  /\ View.answer (view a') = []
  /\ View.submitting (view a') = true
  /\ View.currentIndex (view a') = View.currentIndex (view a)
  /\ View.remaining (view a') = budget
  /\ interval a' <> None.
Proof.
  intros Ha Hf Hp Hq a' budget.
  set (f := fun c0 : Cand.t =>
              with_answers (Cand.answers c0 ++ [newAnswer (view a) q false])
                           (Cand.currentIndex c0 + 1)%nat None c0).
  set (v := set_submitting true (set_answer [] (update id f (view a)))).
  assert (E : a' = render (await_grade (view a) a) v).
  { unfold a', submit.
    now rewrite (@handleSubmit_records (view a) false (view a) id c q Ha Hf Hq). }
  assert (Hfv : find_candidate id (View.candidates v) = Some (f c)).
  { unfold v, update.
    cbn [View.candidates set_candidates set_answer set_submitting].
    rewrite find_update by reflexivity. now rewrite Hf. }
  assert (Eff : effect v = (set_remaining budget v, Some v)).
  { unfold effect, startTimer.
    replace (View.questions v) with (View.questions (view a)) by reflexivity.
    replace (View.currentIndex v) with (View.currentIndex (view a))
      by reflexivity.
    replace (View.active v) with (View.active (view a)) by reflexivity.
    rewrite Ha, Hq, Hfv.
    replace (Cand.paused (f c)) with false by (symmetry; exact Hp).
    destruct (View.questions (view a)); [|reflexivity].
    now destruct (View.currentIndex (view a)). }
  rewrite E. unfold render. rewrite Eff. cbn [view interval grading].
  split.
  { exists (newAnswer (view a) q false).
    split; [exact Hfv|]. cbn. rewrite andb_false_r. now repeat split. }
  split; [reflexivity|]. split; [reflexivity|]. split; [reflexivity|].
  split; [reflexivity|]. split; [reflexivity|discriminate].
Qed.

(** The theorem at work: three seconds into the first question the answer
    "my answer" is submitted; the countdown shows 20 again. *)
Lemma submit_records_and_restarts_the_countdown_witness :
  let a := Scenario.after (Scenario.started ++ Scenario.ticks 3 2000
                           ++ [Type_ (str "my answer")]) in
  View.remaining (view a) = 17
  /\ View.remaining (view (submit a)) = 20.
Proof.
  intros a. split; [vm_compute; reflexivity|].
  destruct (find_candidate 1000 (View.candidates (view a))) as [c|] eqn:Hf;
    [|vm_compute in Hf; discriminate Hf].
  assert (Hc : Some c = find_candidate 1000 (View.candidates (view a)))
    by (now rewrite Hf).
  vm_compute in Hc. injection Hc as ->.
  destruct (@submit_records_and_restarts_the_countdown a 1000 _
              (Scenario.question "q1" easy) eq_refl Hf eq_refl eq_refl)
    as (_ & _ & _ & _ & _ & H & _).
  exact H.
Defined.

End SessionFacts.

(* ================================================================== *)
(** * Facts about the other routes                                     *)
(* ================================================================== *)

Module OtherRouteFacts.
Import Routes.

Local Open Scope nat_scope.

(** What [prop] gives on a body that is not [null]. *)
Lemma prop_read (o : json) (key : string) (model : Model) calls :
  o <> JNull -> prop o key model calls = (Some (get o (str key)), calls).
Proof. destruct o; intros H; try reflexivity. congruence. Qed.

Lemma prop_null (key : string) (model : Model) calls :
  prop JNull key model calls = (None, calls).
Proof. reflexivity. Qed.

Lemma json_eq_null (v : json) : v = JNull \/ v <> JNull.
Proof. destruct v; (now left) || (right; discriminate). Qed.

Ltac read_body :=
  unfold serve, generate_questions, generate_questions_backend,
    final_summary, try_catch, bind;
  repeat (rewrite prop_read by assumption).

Ltac answers_500 :=
  cbn; eexists; split; [reflexivity|]; split; [now right|];
  split; [lia|]; intros H; discriminate H.

(** X12. Both handlers of [generate-questions] always answer, with 200 or with
    500 and never with 400, after at most one call to the model.  They
    answer 200 only when the model replied and a truthy value could be
    salvaged from the reply, and the body then holds that value under
    [questions], whatever it is: nothing checks that it is an array of six
    questions. *)
Theorem generate_questions_outcome
        (model : Model) (req_body : json) (h : json -> IO Response) :
  In h [generate_questions; generate_questions_backend] ->
  exists resp,
    fst (serve h model req_body) = Some resp
    /\ (status resp = 200 \/ status resp = 500)
    /\ length (snd (serve h model req_body)) <= 1
    /\ (status resp = 200 ->
        exists role stack reply,
          snd (serve h model req_body) = [QuestionsPrompt role stack]
          /\ model (QuestionsPrompt role stack) = Some reply
          /\ truthy (Some (extractJSON reply)) = true
          /\ body resp = JObject [(str "questions", extractJSON reply)]).
Proof.
  intros Hh.
  destruct (json_eq_null req_body) as [->|Hb].
  - destruct Hh as [<-|[<-|[]]]; answers_500.
  - destruct Hh as [<-|[<-|[]]]; read_body;
      set (role := or_default _ default_role);
      set (stack := or_default _ default_stack);
      unfold to_string, prints;
      (destruct (printable role); [|answers_500]);
      (destruct stack as [| | | |items|]; try answers_500);
      unfold join;
      (destruct (forallb printable items); [|answers_500]);
      unfold ret, generateContent; cbn [app];
      (destruct (model (QuestionsPrompt role items)) as [reply|] eqn:M;
       [|answers_500]);
      (destruct (truthy (Some (extractJSON reply))) eqn:T; cbn [negb];
       [|answers_500]);
      cbn; eexists; (split; [reflexivity|]); (split; [now left|]);
      (split; [lia|]); intros _; exists role, items, reply; auto.
Qed.

(** The theorem at work: the model replies [true], and the handler passes it
    on as the questions. *)
Lemma generate_questions_outcome_witness :
  exists resp,
    fst (serve generate_questions (fun _ => Some (str "true")) (JObject []))
    = Some resp
    /\ (status resp = 200 \/ status resp = 500)
    /\ resp = ok (JObject [(str "questions", JBool true)]).
Proof.
  destruct (@generate_questions_outcome (fun _ => Some (str "true"))
              (JObject []) generate_questions (or_introl eq_refl))
    as (resp & H1 & H2 & _).
  exists resp. split; [exact H1|]. split; [exact H2|].
  vm_compute in H1. now inversion H1.
Defined.

(** X13. A request whose [stack] is present and truthy but is not an array, a
    string for one, is answered with 500 by both handlers, and the model is
    not called. *)
Theorem generate_questions_stack_must_be_an_array
        (model : Model) (req_body stack : json) (h : json -> IO Response) :
  In h [generate_questions; generate_questions_backend] ->
  get req_body (str "stack") = Some stack ->
  truthy (Some stack) = true ->
  (forall items, stack <> JArray items) ->
  exists resp,
    serve h model req_body = (Some resp, []) /\ status resp = 500.
Proof.
  intros Hh Hs Ht Hn.
  assert (Hb : req_body <> JNull) by (intros ->; discriminate Hs).
  assert (E : or_default (get req_body (str "stack")) default_stack = stack).
  { rewrite Hs. unfold or_default. now rewrite Ht. }
  destruct Hh as [<-|[<-|[]]]; read_body; rewrite E;
    unfold to_string, prints;
    (destruct (printable _); [|cbn; eexists; split; reflexivity]);
    (destruct stack as [| | | |items|];
     try (cbn; eexists; split; reflexivity));
    now destruct (Hn items).
Qed.

(** The theorem at work: the stack is the string "React". *)
Lemma generate_questions_stack_must_be_an_array_witness :
  exists resp,
    serve generate_questions (fun _ => Some (str "[]"))
          (JObject [(str "stack", JString (str "React"))])
    = (Some resp, [])
    /\ status resp = 500.
Proof.
  apply (@generate_questions_stack_must_be_an_array
           (fun _ => Some (str "[]"))
           (JObject [(str "stack", JString (str "React"))])
           (JString (str "React")) generate_questions (or_introl eq_refl)
           eq_refl eq_refl).
  intros items. discriminate.
Defined.

Lemma falsy_prints v : truthy (Some v) = false -> printable v = true.
Proof. now destruct v. Qed.

Lemma or_default_prints x :
  prints x = true -> printable (or_default x unknown) = true.
Proof.
  unfold or_default. destruct x as [v|]; [|reflexivity].
  intros H. now destruct (truthy (Some v)).
Qed.

Lemma prints_or_default x :
  printable (or_default x unknown) = true -> prints x = true.
Proof.
  unfold or_default. destruct x as [v|]; [|reflexivity].
  destruct (truthy (Some v)) eqn:T; auto.
  intros _. now apply falsy_prints.
Qed.

(** What [api/index.js] does with a candidate that passes its check. *)
Lemma final_summary_called model req_body c answers :
  get req_body (str "candidate") = Some c ->
  truthy (Some c) = true ->
  get c (str "answers") = Some answers ->
  truthy (Some answers) = true ->
  prints (get c (str "name")) = true ->
  let p := SummaryPrompt (get c (str "name")) answers in
  serve final_summary model req_body
  = match model p with
    | Some t => if truthy (Some (extractJSON t))
                then (Some (ok (extractJSON t)), [p])
                else (Some (fail 500 "Gemini summary failed"), [p])
    | None => (Some (fail 500 "Gemini summary failed"), [p])
    end.
Proof.
  intros Hc Ht Ha Hat Hn p.
  assert (Hb : req_body <> JNull) by (intros ->; discriminate Hc).
  read_body. rewrite Hc, Ht, Ha, Hat. cbn [negb].
  unfold to_string. rewrite Hn.
  unfold generateContent, ret. cbn [app]. fold p.
  destruct (model p) as [t|]; cbv beta iota; [|reflexivity].
  now destruct (truthy (Some (extractJSON t))).
Qed.

(** What [backend/server.js] does with a candidate that passes its check. *)
Lemma final_summary_backend_called model req_body c items :
  get req_body (str "candidate") = Some c ->
  truthy (Some c) = true ->
  get c (str "answers") = Some (JArray items) ->
  let name := or_default (get c (str "name")) unknown in
  let email := or_default (get c (str "email")) unknown in
  let phone := or_default (get c (str "phone")) unknown in
  let p := FinalPrompt name email phone items in
  serve final_summary_backend model req_body
  = if printable name && printable email && printable phone then
      match model p with
      | Some t =>
          if truthy (Some (extractJSON t))
          then (Some (ok (extractJSON t)), [p])
          else (Some (fail 500 "Failed to parse AI final summary output"),
                [p])
      | None => (Some (fail 500 "Gemini final summary failed"), [p])
      end
    else (Some (fail 500 "Gemini final summary failed"), []).
Proof.
  intros Hc Ht Ha name email phone p.
  assert (Tb : truthy (Some req_body) = true).
  { destruct req_body; try discriminate Hc. reflexivity. }
  unfold serve, final_summary_backend, try_catch, bind.
  rewrite Tb, Hc, Ht, Ha. cbn [negb]. fold name email phone.
  unfold to_string, prints.
  destruct (printable name); [|reflexivity].
  destruct (printable email); [|reflexivity].
  destruct (printable phone); [|reflexivity].
  unfold generateContent, ret. cbn [app andb]. fold p.
  destruct (model p) as [t|]; cbv beta iota; [|reflexivity].
  now destruct (truthy (Some (extractJSON t))).
Qed.

(** What makes the handler of [backend/server.js] call the model. *)
Lemma final_summary_backend_calls model req_body :
  snd (serve final_summary_backend model req_body) <> [] ->
  exists c items,
    get req_body (str "candidate") = Some c /\ truthy (Some c) = true /\
    get c (str "answers") = Some (JArray items) /\
    prints (get c (str "name")) = true.
Proof.
  intros H.
  assert (E : exists c items,
             get req_body (str "candidate") = Some c /\
             truthy (Some c) = true /\
             get c (str "answers") = Some (JArray items)).
  { revert H. unfold serve, final_summary_backend, try_catch, bind.
    destruct (truthy (Some req_body)); [|cbn; congruence].
    destruct (get req_body (str "candidate")) as [c|]; [|cbn; congruence].
    destruct (truthy (Some c)) eqn:T; [|cbn; congruence]. cbn [negb].
    destruct (get c (str "answers")) as [[| | | |items|]|] eqn:A;
      try (cbn; congruence).
    intros _. now exists c, items. }
  destruct E as (c & items & Hc & Ht & Ha).
  exists c, items. split; [exact Hc|]. split; [exact Ht|]. split; [exact Ha|].
  rewrite (@final_summary_backend_called model req_body c items Hc Ht Ha)
    in H.
  apply prints_or_default.
  destruct (printable (or_default (get c (str "name")) unknown));
    [reflexivity|].
  exfalso. apply H. reflexivity.
Qed.

(** X14. A candidate whose [answers] are an array, even an empty one, and whose
    name, e-mail address and phone number can be printed, passes the check
    of both handlers of [final-summary]: each calls the model once, with
    these fields and the answers, and answers 200 with what could be
    salvaged from the reply when that is truthy, and 500 otherwise. *)
Theorem final_summary_takes_any_array
        (model : Model) (req_body c : json) (items : list json) :
  get req_body (str "candidate") = Some c ->
  truthy (Some c) = true ->
  get c (str "answers") = Some (JArray items) ->
  prints (get c (str "name")) = true ->
  prints (get c (str "email")) = true ->
  prints (get c (str "phone")) = true ->
  let p := SummaryPrompt (get c (str "name")) (JArray items) in
  let p' := FinalPrompt (or_default (get c (str "name")) unknown)
                        (or_default (get c (str "email")) unknown)
                        (or_default (get c (str "phone")) unknown) items in
  let outcome reply :=
    match reply with
    | Some t => if truthy (Some (extractJSON t)) then 200 else 500
    | None => 500
    end in
  (exists resp,
      serve final_summary model req_body = (Some resp, [p])
      /\ status resp = outcome (model p)
      /\ (status resp = 200 ->
          exists t, model p = Some t /\ body resp = extractJSON t))
  /\ (exists resp,
         serve final_summary_backend model req_body = (Some resp, [p'])
         /\ status resp = outcome (model p')
         /\ (status resp = 200 ->
             exists t, model p' = Some t /\ body resp = extractJSON t)).
Proof.
  intros Hc Ht Ha Hn He Hp p p' outcome.
  split.
  - rewrite (@final_summary_called model req_body c (JArray items))
      by auto.
    fold p. unfold outcome.
    destruct (model p) as [t|] eqn:M.
    + destruct (truthy (Some (extractJSON t))) eqn:T;
        eexists; (split; [reflexivity|]); (split; [reflexivity|]);
        [intros _; eauto|intros H; discriminate H].
    + eexists. split; [reflexivity|]. split; [reflexivity|].
      intros H; discriminate H.
  - rewrite (@final_summary_backend_called model req_body c items)
      by auto.
    rewrite !or_default_prints by assumption. cbn [andb].
    fold p'. unfold outcome.
    destruct (model p') as [t|] eqn:M.
    + destruct (truthy (Some (extractJSON t))) eqn:T;
        eexists; (split; [reflexivity|]); (split; [reflexivity|]);
        [intros _; eauto|intros H; discriminate H].
    + eexists. split; [reflexivity|]. split; [reflexivity|].
      intros H; discriminate H.
Qed.

(** The theorem at work: a candidate without any answer is summarised. *)
Lemma final_summary_takes_any_array_witness :
  exists resp,
    serve final_summary (fun _ => Some (str "{}"))
          (JObject [(str "candidate", JObject [(str "answers", JArray [])])])
    = (Some resp, [SummaryPrompt None (JArray [])])
    /\ status resp = 200.
Proof.
  destruct (@final_summary_takes_any_array (fun _ => Some (str "{}"))
              (JObject [(str "candidate", JObject [(str "answers", JArray [])])])
              (JObject [(str "answers", JArray [])]) []
              eq_refl eq_refl eq_refl eq_refl eq_refl eq_refl)
    as ((resp & H1 & H2 & _) & _).
  exists resp. split; [exact H1|exact H2].
Defined.

(** X15. On the final summary [backend/server.js] checks more than
    [api/index.js]: every request for which it calls the model makes
    [api/index.js] call the model, once; and a candidate whose [answers] are
    a string makes [api/index.js] call the model while [backend/server.js]
    answers 400 without a call. *)
Theorem final_summary_backend_is_stricter :
  (forall model model' req_body,
      snd (serve final_summary_backend model req_body) <> [] ->
      length (snd (serve final_summary model' req_body)) = 1)
  /\ (forall model model',
         let req_body :=
           JObject [(str "candidate",
                     JObject [(str "answers", JString (str "none"))])] in
         length (snd (serve final_summary model req_body)) = 1
         /\ serve final_summary_backend model' req_body
            = (Some (fail 400 "Missing candidate answers"), [])).
Proof.
  assert (L : forall model req_body c answers,
             get req_body (str "candidate") = Some c ->
             truthy (Some c) = true ->
             get c (str "answers") = Some answers ->
             truthy (Some answers) = true ->
             prints (get c (str "name")) = true ->
             length (snd (serve final_summary model req_body)) = 1).
  { intros model req_body c answers Hc Ht Ha Hat Hn.
    rewrite (@final_summary_called model req_body c answers) by auto.
    destruct (model _) as [t|]; [|reflexivity].
    now destruct (truthy (Some (extractJSON t))). }
  split.
  - intros model model' req_body H.
    apply final_summary_backend_calls in H
      as (c & items & Hc & Ht & Ha & Hn).
    now apply L with (c := c) (answers := JArray items).
  - intros model model' req_body. split; [|reflexivity].
    now apply L with (c := JObject [(str "answers", JString (str "none"))])
                     (answers := JString (str "none")).
Qed.

(** X16. A field that cannot be printed stops a handler before it calls the
    model: an object with a member named [toString] as the [role] of
    [generate-questions], or as the name of the candidate of
    [final-summary], is answered with 500 and no call, by both servers,
    though the field is present and truthy. *)
Theorem unprintable_field_is_a_server_error
        (model : Model) (members : list (text * json))
        (answers : list json) :
  existsb (fun m => text_eqb (fst m) (str "toString")) members = true ->
  let x := JObject members in
  let asks := JObject [(str "role", x)] in
  let sums := JObject [(str "candidate",
                        JObject [(str "name", x);
                                 (str "answers", JArray answers)])] in
  truthy (Some x) = true
  /\ serve generate_questions model asks
     = (Some (fail 500 "Gemini question generation failed"), [])
  /\ serve generate_questions_backend model asks
     = (Some (fail 500 "Gemini API call failed"), [])
  /\ serve final_summary model sums
     = (Some (fail 500 "Gemini summary failed"), [])
  /\ serve final_summary_backend model sums
     = (Some (fail 500 "Gemini final summary failed"), []).
Proof.
  intros Hm x asks sums.
  assert (P : printable (JObject members) = false).
  { change (printable (JObject members))
      with (negb (existsb (fun m => text_eqb (fst m) (str "toString"))
                          members)).
    now rewrite Hm. }
  split; [reflexivity|].
  repeat split;
    unfold serve, generate_questions, generate_questions_backend,
      final_summary, final_summary_backend, try_catch, bind, prop, to_string,
      prints, asks, sums, x;
    cbn -[printable]; rewrite P; reflexivity.
Qed.

(** The theorem at work: the role is an object with a [toString] member. *)
Lemma unprintable_field_is_a_server_error_witness :
  serve generate_questions (fun _ => Some (str "[]"))
        (JObject [(str "role", JObject [(str "toString", JNumber 1 0)])])
  = (Some (fail 500 "Gemini question generation failed"), []).
Proof.
  exact (proj1 (proj2 (@unprintable_field_is_a_server_error
                         (fun _ => Some (str "[]"))
                         [(str "toString", JNumber 1 0)] []
                         eq_refl))).
Defined.

End OtherRouteFacts.

(* ================================================================== *)
(** * Facts about the upload of a resume                               *)
(* ================================================================== *)

Module UploadFacts.
Import Upload.

Local Open Scope nat_scope.

Lemma text_eqb_eq : forall a b, text_eqb a b = true <-> a = b.
Proof.
  induction a as [|x a IH]; intros [|y b]; simpl; split; intros H;
    try reflexivity; try discriminate.
  - apply andb_true_iff in H as [H1 H2].
    apply N.eqb_eq in H1. apply IH in H2. now subst.
  - inversion H; subst. rewrite N.eqb_refl. simpl. now apply IH.
Qed.

Lemma text_eqb_neq a b : text_eqb a b = false <-> a <> b.
Proof.
  rewrite <- text_eqb_eq. destruct (text_eqb a b); split; congruence.
Qed.

Lemma pdf_is_not_docx : str ".pdf" <> str ".docx".
Proof. discriminate. Qed.

(** X17. An upload is answered by both handlers, and its temporary file is left
    on the disk exactly when its decoder rejects it; the answer is 200
    exactly when the file was decoded.  A file that is neither [.pdf] nor
    [.docx] is answered with 400 after its removal, and no decoder runs. *)
Theorem upload_stays_only_when_decoding_fails
        (u : Upload.t) (h : option Upload.t -> FS Response) :
  In h [parse_resume; parse_resume_backend] ->
  exists resp d,
    h (Some u) saved = (Some resp, d)
    /\ (on_disk d = true <->
        (ext u = str ".pdf" /\ pdf u = None)
        \/ (ext u = str ".docx" /\ docx u = None))
    /\ (status resp = 200 <->
        (ext u = str ".pdf" /\ pdf u <> None)
        \/ (ext u = str ".docx" /\ docx u <> None))
    /\ (ext u <> str ".pdf" -> ext u <> str ".docx" ->
        resp = Routes.fail 400 "Only PDF or DOCX allowed"
        /\ ops d = [Unlink]).
Proof.
  intros Hh.
  destruct (text_eqb (ext u) (str ".pdf")) eqn:P.
  - pose proof (proj1 (text_eqb_eq _ _) P) as EP.
    assert (ND : ext u <> str ".docx")
      by (rewrite EP; apply pdf_is_not_docx).
    destruct (pdf u) as [decoded|] eqn:D;
      (destruct Hh as [<-|[<-|[]]];
       unfold parse_resume, parse_resume_backend, try_catch, bind, attempt,
         readFileSync, pdfParse, unlinkSync, saved, ret;
       rewrite P, D; cbn -[fields str];
       do 2 eexists; (split; [reflexivity|]); cbn -[fields str];
       repeat split; try tauto; try congruence;
       try (intros [[_ H]|[H _]]; congruence);
       try (intros [[_ H]|[H _]]; [now destruct H|congruence])).
    all: try (intros _; left; split; [assumption|congruence]).
    all: try (intros H; discriminate H).
  - pose proof (proj1 (text_eqb_neq _ _) P) as NP.
    destruct (text_eqb (ext u) (str ".docx")) eqn:X.
    + pose proof (proj1 (text_eqb_eq _ _) X) as EX.
      destruct (docx u) as [decoded|] eqn:D;
        (destruct Hh as [<-|[<-|[]]];
         unfold parse_resume, parse_resume_backend, try_catch, bind, attempt,
           extractRawText, unlinkSync, saved, ret;
         rewrite P, X, D; cbn -[fields str];
         do 2 eexists; (split; [reflexivity|]); cbn -[fields str];
         repeat split; try tauto; try congruence;
         try (intros [[H _]|[_ H]]; congruence);
         try (intros [[H _]|[_ H]]; [congruence|now destruct H])).
      all: try (intros _; right; split; [assumption|congruence]).
      all: try (intros H; discriminate H).
    + pose proof (proj1 (text_eqb_neq _ _) X) as NX.
      destruct Hh as [<-|[<-|[]]];
        unfold parse_resume, parse_resume_backend, try_catch, bind,
          unlinkSync, saved, ret;
        rewrite P, X; cbn -[fields str];
        do 2 eexists; (split; [reflexivity|]); cbn -[fields str];
        repeat split; try tauto; try congruence;
        try (intros [[H _]|[H _]]; congruence);
        try (intros H; discriminate H).
Qed.

(** The theorem at work: a PDF that cannot be read stays on the disk. *)
Lemma upload_stays_only_when_decoding_fails_witness :
  exists resp d,
    parse_resume (Some {| ext := str ".pdf"; pdf := None; docx := None |})
                 saved = (Some resp, d)
    /\ on_disk d = true.
Proof.
  destruct (@upload_stays_only_when_decoding_fails
              {| ext := str ".pdf"; pdf := None; docx := None |}
              parse_resume (or_introl eq_refl))
    as (resp & d & H1 & H2 & _).
  exists resp, d. split; [exact H1|].
  apply H2. left. split; reflexivity.
Defined.

(** X18. A [.pdf] or [.docx] upload that its decoder accepts is answered with 200
    by both handlers; the body holds what [extractName], [extractEmail] and
    [extractPhone] find in the decoded text, [null] for what they do not
    find, and the text itself, which is empty when the decoder gave none.
    The temporary file is removed. *)
Theorem parse_resume_answers_with_the_extracted_fields
        (u : Upload.t) (decoded : option text)
        (h : option Upload.t -> FS Response) :
  In h [parse_resume; parse_resume_backend] ->
  (ext u = str ".pdf" /\ pdf u = Some decoded)
  \/ (ext u = str ".docx" /\ docx u = Some decoded) ->
  let text := or_empty decoded in
  exists d,
    h (Some u) saved
    = (Some {| status := 200;
               body := JObject
                         [(str "name", nullable (extractName text));
                          (str "email", nullable (extractEmail text));
                          (str "phone", nullable (extractPhone text));
                          (str "text", JString text)] |}, d)
    /\ on_disk d = false
    /\ last (ops d) ReadFile = Unlink.
Proof.
  intros Hh Hd text.
  destruct Hd as [[E D]|[E D]].
  - assert (P : text_eqb (ext u) (str ".pdf") = true)
      by now apply text_eqb_eq.
    destruct Hh as [<-|[<-|[]]];
      unfold parse_resume, parse_resume_backend, try_catch, bind, attempt,
        readFileSync, pdfParse, unlinkSync, saved, ret;
      rewrite P, D; cbn -[fields str]; eexists; repeat split.
  - assert (P : text_eqb (ext u) (str ".pdf") = false).
    { apply text_eqb_neq. rewrite E. intros H. now apply pdf_is_not_docx. }
    assert (X : text_eqb (ext u) (str ".docx") = true)
      by now apply text_eqb_eq.
    destruct Hh as [<-|[<-|[]]];
      unfold parse_resume, parse_resume_backend, try_catch, bind, attempt,
        extractRawText, unlinkSync, saved, ret;
      rewrite P, X, D; cbn -[fields str]; eexists; repeat split.
Qed.

(** The theorem at work: a DOCX file of two lines. *)
Lemma parse_resume_answers_with_the_extracted_fields_witness :
  let text := str "Ada Lovelace" ++ [10%N] ++ str "ada@example.com" in
  exists d,
    parse_resume
      (Some {| ext := str ".docx"; pdf := None; docx := Some (Some text) |})
      saved
    = (Some {| status := 200;
               body := JObject
                         [(str "name", JString (str "Ada Lovelace"));
                          (str "email", JString (str "ada@example.com"));
                          (str "phone", JNull);
                          (str "text", JString text)] |}, d)
    /\ on_disk d = false.
Proof.
  intros text.
  destruct (@parse_resume_answers_with_the_extracted_fields
              {| ext := str ".docx"; pdf := None; docx := Some (Some text) |}
              (Some text) parse_resume (or_introl eq_refl)
              (or_intror (conj eq_refl eq_refl)))
    as (d & H1 & H2 & _).
  exists d. split; [exact H1|exact H2].
Defined.

(** X19. The two handlers answer an upload alike and leave the same disk, but for
    a PDF that cannot be read: [api/index.js] answers it with 500 and
    [backend/server.js] with 400, and both leave the file on the disk. *)
Theorem parse_resume_handlers_differ_on_bad_pdf_only (u : Upload.t) :
  (~ (ext u = str ".pdf" /\ pdf u = None) ->
   parse_resume (Some u) saved = parse_resume_backend (Some u) saved)
  /\ (ext u = str ".pdf" -> pdf u = None ->
      let d := {| on_disk := true; ops := [ReadFile; PdfParse] |} in
      parse_resume (Some u) saved
      = (Some (Routes.fail 500 "Failed to parse resume"), d)
      /\ parse_resume_backend (Some u) saved
         = (Some (Routes.fail 400 "Failed to parse PDF. Try another file."),
            d)).
Proof.
  split.
  - intros Hn.
    unfold parse_resume, parse_resume_backend, try_catch, bind, attempt,
      readFileSync, pdfParse, extractRawText, unlinkSync, saved, ret.
    destruct (text_eqb (ext u) (str ".pdf")) eqn:P.
    + apply text_eqb_eq in P.
      destruct (pdf u) as [decoded|] eqn:D; [|now destruct Hn].
      reflexivity.
    + destruct (text_eqb (ext u) (str ".docx")); [|reflexivity].
      cbn -[fields str]. now destruct (docx u).
  - intros E D d.
    assert (P : text_eqb (ext u) (str ".pdf") = true)
      by now apply text_eqb_eq.
    unfold parse_resume, parse_resume_backend, try_catch, bind, attempt,
      readFileSync, pdfParse, saved, ret.
    rewrite P, D. split; reflexivity.
Qed.

End UploadFacts.

(* ================================================================== *)
(** * Facts about the page when it loads                               *)
(* ================================================================== *)

Module MountFacts.
Import ClientFacts SessionFacts.

Local Open Scope Z_scope.

(** X20. The page loads with stored candidates that are in order, and offers one
    of them, the first with its identifier, to be resumed.  That candidate
    has its six questions in the store, fewer than six answers and no truthy
    final score; resuming it asks the server for nothing: whatever the
    request for questions would give, the session opens on the stored
    questions, at the stored position, with a running countdown. *)
Theorem welcome_back_needs_no_server
        (stored : list Cand.t) (c : Cand.t)
        (fetched : option (list Question.t)) (now : Z) :
  Forall cand_ok stored ->
  unfinished stored = Some c ->
  find_candidate (Cand.id c) stored = Some c ->
  let a' := welcome_back stored fetched now in
  length (Cand.questions c) = 6%nat
  /\ (length (Cand.answers c) < 6)%nat
  /\ truthy (Cand.finalScore c) = false
  /\ a' = welcome_back stored None now
  /\ View.active (view a') = Some (Cand.id c)
  /\ View.questions (view a') = Cand.questions c
  /\ View.currentIndex (view a') = Nat.min (open_index true c) 5
  /\ View.remaining (view a')
     = open_remaining c (Cand.questions c) (open_index true c) now
  /\ interval a' <> None.
Proof.
  intros Hs Hu Hf a'.
  pose proof Hu as Hu'. unfold unfinished in Hu'.
  apply find_some in Hu' as [Hin Hc].
  apply andb_true_iff in Hc as [Hlt Hfs].
  apply Nat.ltb_lt in Hlt. apply negb_true_iff in Hfs.
  rewrite Forall_forall in Hs.
  destruct (Hs c Hin) as (Hq & Hl & _).
  assert (H6 : length (Cand.questions c) = 6%nat).
  { destruct Hq as [Hq|Hq]; auto. rewrite Hq in Hl. simpl in Hl. lia. }
  assert (Ho : forall f, open_questions c f = Some (Cand.questions c, false)).
  { intros f. unfold open_questions.
    destruct (Cand.questions c); [discriminate H6|reflexivity]. }
  assert (E : forall f,
             welcome_back stored f now
             = openCandidate stored (Cand.id c) true None now (init stored)).
  { intros f. unfold welcome_back, handleOpenCandidate. rewrite Hu.
    cbn [view init View.candidates].
    unfold openCandidate. now rewrite Hf, !Ho. }
  split; [exact H6|]. split; [lia|]. split; [exact Hfs|].
  split; [unfold a'; now rewrite !E|].
  unfold a'. rewrite E.
  destruct (@open_shape (init stored) (Cand.id c) true None now c
              (Cand.questions c) false Hf (Ho None)) as (Hr & _ & Hi).
  cbn [view init View.candidates] in Hr, Hi.
  split; [|split; [|split; [|split; [exact Hr|exact Hi]]]].
  - unfold openCandidate. rewrite Hf, Ho. now rewrite render_view.
  - unfold openCandidate. rewrite Hf, Ho. now rewrite render_view.
  - unfold openCandidate. rewrite Hf, Ho. rewrite render_currentIndex.
    cbn. now rewrite H6.
Qed.

(** The theorem at work: the page is loaded again after the first of six
    answers, and the session resumes on the second question. *)
Lemma welcome_back_needs_no_server_witness :
  let stored :=
    View.candidates
      (view (Scenario.after (Scenario.started ++ Scenario.answered 2000))) in
  View.currentIndex (view (welcome_back stored None 9000)) = 1%nat
  /\ interval (welcome_back stored None 9000) <> None.
Proof.
  intros stored.
  assert (Hs : Forall cand_ok stored).
  { apply InvariantFacts.view_candidates_ok, InvariantFacts.page_ok.
    eapply InvariantFacts.run_ok
      with (es := Scenario.started ++ Scenario.answered 2000) (a := init []).
    - apply InvariantFacts.init_ok. constructor.
    - vm_compute. reflexivity. }
  destruct (unfinished stored) as [c|] eqn:Hu;
    [|vm_compute in Hu; discriminate Hu].
  assert (Hc : Some c = unfinished stored) by (now rewrite Hu).
  vm_compute in Hc. injection Hc as ->.
  match type of Hu with
  | _ = Some ?c =>
      assert (Hf : find_candidate (Cand.id c) stored = Some c)
        by (vm_compute; reflexivity);
      destruct (@welcome_back_needs_no_server stored c None 9000 Hs Hu Hf)
        as (_ & _ & _ & _ & _ & _ & H7 & _ & H9)
  end.
  split; [|exact H9].
  rewrite H7. vm_compute. reflexivity.
Defined.

End MountFacts.
